(** * WiredTiger record store: a shallow embedding

    Embedding of [src/mongo/db/storage/wiredtiger/wiredtiger_record_store.cpp]
    (MongoDB 3.6): the record store core, the capped-collection reclaimer,
    the oplog stones ("retention markers") and the record cursor.

    Conventions.
    - A [RecordId] is its 64-bit [repr()], a [Z].  [AtomicInt64] cells are
      [Z] values; [fetchAndAdd] and friends wrap around at 64 bits.
    - The WiredTiger table behind [_uri] is an association list kept in key
      order; cursors are positions in it.  The standard key encoding
      ([key_format=q], [StandardWiredTigerRecordStore]) is embedded.
    - A member function is a computation in the monad [M]: it reads and
      writes the store and the recovery unit of the operation context, and
      ends by returning, by throwing, or by terminating the process
      ([invariant], [fassert]).
    - What other threads and the engine decide (whether a try-lock is won,
      the code returned by [WT_SESSION::truncate]) is read from an [Env].
    - The calls of one thread are embedded, other threads showing through
      the [Env] only, and every transaction reads the one table: the side
      transaction of the capped reclaimer sees the rows its caller has
      written.
    - Logging, fail points, [dassert]s, the size storer's cache, the oplog
      manager and the timestamps handed to the recovery unit leave the
      store as it is and are left out; prefixed stores are not embedded.
    - Signed arithmetic on locals is written without wrap-around, which the
      source leaves undefined; atomic cells wrap. *)

From Stdlib Require Import ZArith List Bool Lia.
From Stdlib Require Strings.Byte Strings.String.
From Stdlib Require Import Sorting.Sorted Sorting.Permutation.
Import ListNotations.
Import String.StringSyntax.
Delimit Scope string_scope with string.
Local Open Scope Z_scope.

Set Implicit Arguments.

(** ** Machine integers *)

Module Int64.
Definition min_value : Z := - 2 ^ 63.
Definition max_value : Z := 2 ^ 63 - 1.
Definition in_range (z : Z) : Prop := min_value <= z <= max_value.
  (** two's complement wrap-around *)
Definition wrap (z : Z) : Z := (z + 2 ^ 63) mod 2 ^ 64 - 2 ^ 63.
End Int64.

(** [AtomicWord<long long>]: each operation maps the cell's value to the
    value it returns and the cell's new value. *)
Module AtomicInt64.
Definition load (cell : Z) : Z := cell.
Definition fetchAndAdd (cell delta : Z) : Z * Z :=
    (cell, Int64.wrap (cell + delta)).
Definition addAndFetch (cell delta : Z) : Z * Z :=
    (Int64.wrap (cell + delta), Int64.wrap (cell + delta)).
Definition swap (cell v : Z) : Z * Z := (cell, v).
End AtomicInt64.

(** ** Records and the engine's ordered table *)

Definition RecordId := Z.
Definition RecordData := list Byte.byte.

(** [RecordData::size()] *)
Definition size (d : RecordData) : Z := Z.of_nat (length d).

(** [RecordId()], the null id *)
Definition RecordId_null : RecordId := 0.
Definition isNull (r : RecordId) : bool := r =? 0.

Module Rec.
Record t := mk { id : RecordId; data : RecordData }.
End Rec.

Definition WT_NOTFOUND : Z := -31803.
Definition WT_ROLLBACK : Z := -31800.
Definition ENOENT : Z := 2.

Module WT.
  (** rows of the table, in increasing key order *)
Definition Table := list (RecordId * RecordData).

Definition keys (t : Table) : list RecordId := map fst t.

  (** [WT_CURSOR::search] *)
Fixpoint search (k : RecordId) (t : Table) : option RecordData :=
    match t with
    | [] => None
    | (k', v) :: t' => if k' =? k then Some v else search k t'
    end.

  (** [WT_CURSOR::insert] with overwrite: the row is put at its place in
      key order, replacing a row of the same key. *)
Fixpoint insert (k : RecordId) (v : RecordData) (t : Table) : Table :=
    match t with
    | [] => [(k, v)]
    | (k', v') :: t' =>
        if k <? k' then (k, v) :: (k', v') :: t'
        else if k =? k' then (k, v) :: t'
        else (k', v') :: insert k v t'
    end.

  (** [WT_CURSOR::remove] *)
Definition remove (k : RecordId) (t : Table) : Table :=
    filter (fun kv => negb (fst kv =? k)) t.

  (** Rows a range truncate removes: those from [start] (the beginning of
      the table when [None]) through [stop] (the end when [None]). *)
Definition in_range (start stop : option RecordId) (k : RecordId) : bool :=
    match start with Some a => a <=? k | None => true end
    && match stop with Some b => k <=? b | None => true end.

  (** [WT_SESSION::truncate] when it succeeds *)
Definition truncate (start stop : option RecordId) (t : Table) : Table :=
    filter (fun kv => negb (in_range start stop (fst kv))) t.

  (** A cursor is unpositioned ([None]) or sits on a key. *)
Definition Cursor := option RecordId.

  (** first row with a key above [k] *)
Definition above (k : RecordId) (t : Table) : option (RecordId * RecordData) :=
    find (fun kv => k <? fst kv) t.

  (** last row with a key below [k] *)
Definition below (k : RecordId) (t : Table) : option (RecordId * RecordData) :=
    find (fun kv => fst kv <? k) (rev t).

  (** [WT_CURSOR::next]: an unpositioned cursor moves to the first row.
      The result is the return code and the new position. *)
Definition next (c : Cursor) (t : Table) : Z * Cursor :=
    match (match c with None => hd_error t | Some k => above k t end) with
    | Some (k', _) => (0, Some k')
    | None => (WT_NOTFOUND, None)
    end.

  (** [WT_CURSOR::prev]: an unpositioned cursor moves to the last row. *)
Definition prev (c : Cursor) (t : Table) : Z * Cursor :=
    match (match c with None => hd_error (rev t) | Some k => below k t end) with
    | Some (k', _) => (0, Some k')
    | None => (WT_NOTFOUND, None)
    end.

  (** [WT_CURSOR::search_near]: the return code, the comparison [exact] and
      the new position.  On a miss the engine lands on a neighbouring row,
      on either side when both exist; [preferAbove] is the engine's pick. *)
Definition search_near (preferAbove : bool) (k : RecordId) (t : Table)
    : Z * Z * Cursor :=
    match search k t with
    | Some _ => (0, 0, Some k)
    | None =>
        match above k t, below k t with
        | Some (a, _), Some (b, _) =>
            if preferAbove then (0, 1, Some a) else (0, -1, Some b)
        | Some (a, _), None => (0, 1, Some a)
        | None, Some (b, _) => (0, -1, Some b)
        | None, None => (WT_NOTFOUND, 0, None)
        end
    end.

  (** [WT_CURSOR::get_value] of a positioned cursor *)
Definition get_value (c : Cursor) (t : Table) : option RecordData :=
    match c with Some k => search k t | None => None end.
End WT.

(** ** Statuses, exceptions and results *)

Inductive ErrorCodes :=
| BadValue
| IllegalOperation
| OtherError (code : Z).

Inductive Status :=
| OK
| Error (code : ErrorCodes).

Inductive StatusWith (A : Type) :=
| SW_OK (a : A)
| SW_Error (code : ErrorCodes).
Arguments SW_Error {A} code.

Inductive Exception :=
| WriteConflictException
| AssertionException (code : Z).

(** How a member function ends: it returns a value in a new state, throws
    (the state reached so far stays), or the process is terminated by a
    failed [invariant] or [fassert]. *)
Inductive Result (S A : Type) :=
| Returned (a : A) (s : S)
| Thrown (e : Exception) (s : S)
| Terminated.
Arguments Terminated {S A}.
Arguments Thrown {S A} e s.

Definition M (S A : Type) := S -> Result S A.

Definition ret {S A} (a : A) : M S A := fun s => Returned a s.

Definition bind {S A B} (m : M S A) (k : A -> M S B) : M S B :=
  fun s =>
    match m s with
    | Returned a s' => k a s'
    | Thrown e s' => Thrown e s'
    | Terminated => Terminated
    end.

Declare Scope monad_scope.
Delimit Scope monad_scope with monad.
Notation "x <- m ;; k" := (bind m (fun x => k))
  (at level 61, m at next level, right associativity) : monad_scope.
Notation "m ;;; k" := (bind m (fun _ => k))
  (at level 61, right associativity) : monad_scope.

Definition get {S} : M S S := fun s => Returned s s.
Definition put {S} (s : S) : M S unit := fun _ => Returned tt s.
Definition modify {S} (f : S -> S) : M S unit := fun s => Returned tt (f s).
Definition throw {S A} (e : Exception) : M S A := fun s => Thrown e s.

(** [invariant(b)] *)
Definition invariant {S} (b : bool) : M S unit :=
  fun s => if b then Returned tt s else Terminated.

(** [invariantWTOK(ret)]: [wtRCToStatus] throws on [WT_ROLLBACK], any other
    non-zero code fails the invariant. *)
Definition invariantWTOK {S} (rc : Z) : M S unit :=
  fun s =>
    if rc =? 0 then Returned tt s
    else if rc =? WT_ROLLBACK then Thrown WriteConflictException s
    else Terminated.

(** [try { m } catch (const WriteConflictException&) { h }] *)
Definition catchWCE {S A} (m : M S A) (h : M S A) : M S A :=
  fun s =>
    match m s with
    | Thrown WriteConflictException s' => h s'
    | r => r
    end.

(** ** Oplog stones *)

Module Stone.
  (** [OplogStones::Stone]: a closed segment of the oplog *)
Record t := mk {
    records : Z;            (* approximate number of records in the segment *)
    bytes : Z;              (* approximate size of the segment *)
    lastRecord : RecordId   (* id of the segment's last record *)
  }.
End Stone.

Record OplogStones := mkOplogStones {
  _stones : list Stone.t;        (* std::deque, oldest first *)
  _currentRecords : Z;           (* records in the stone being filled *)
  _currentBytes : Z;             (* bytes in the stone being filled *)
  _minBytesPerStone : Z;
  firstRecord : RecordId;        (* truncate point kept by reclaimOplog *)
  _isDead : bool
}.

Definition set_stones (l : list Stone.t) (o : OplogStones) : OplogStones :=
  mkOplogStones l (_currentRecords o) (_currentBytes o) (_minBytesPerStone o)
                (firstRecord o) (_isDead o).
Definition set_currentRecords (v : Z) (o : OplogStones) : OplogStones :=
  mkOplogStones (_stones o) v (_currentBytes o) (_minBytesPerStone o)
                (firstRecord o) (_isDead o).
Definition set_currentBytes (v : Z) (o : OplogStones) : OplogStones :=
  mkOplogStones (_stones o) (_currentRecords o) v (_minBytesPerStone o)
                (firstRecord o) (_isDead o).
Definition set_minBytesPerStone (v : Z) (o : OplogStones) : OplogStones :=
  mkOplogStones (_stones o) (_currentRecords o) (_currentBytes o) v
                (firstRecord o) (_isDead o).
Definition set_firstRecord (v : RecordId) (o : OplogStones) : OplogStones :=
  mkOplogStones (_stones o) (_currentRecords o) (_currentBytes o)
                (_minBytesPerStone o) v (_isDead o).

(** ** The record store *)

(** [CappedCallback::aboutToDeleteCapped] *)
Definition CappedCallback := RecordId -> RecordData -> Status.

Record WiredTigerRecordStore := mkStore {
  _isCapped : bool;
  _isOplog : bool;
  _cappedMaxSize : Z;
  _cappedMaxSizeSlack : Z;
  _cappedMaxDocs : Z;
  _cappedSleep : Z;
  _cappedSleepMS : Z;
  _cappedCallback : option CappedCallback;
  _shuttingDown : bool;
  _cappedFirstRecord : RecordId;
  _nextIdNum : Z;
  _numRecords : Z;
  _dataSize : Z;
  _oplogStones : option OplogStones;
  table : WT.Table               (* the engine's table at [_uri] *)
}.

Definition set_cappedMaxSize (v : Z) (r : WiredTigerRecordStore) :=
  mkStore (_isCapped r) (_isOplog r) v (_cappedMaxSizeSlack r)
          (_cappedMaxDocs r) (_cappedSleep r) (_cappedSleepMS r)
          (_cappedCallback r) (_shuttingDown r) (_cappedFirstRecord r)
          (_nextIdNum r) (_numRecords r) (_dataSize r) (_oplogStones r) (table r).
Definition set_cappedSleep (v : Z) (r : WiredTigerRecordStore) :=
  mkStore (_isCapped r) (_isOplog r) (_cappedMaxSize r) (_cappedMaxSizeSlack r)
          (_cappedMaxDocs r) v (_cappedSleepMS r)
          (_cappedCallback r) (_shuttingDown r) (_cappedFirstRecord r)
          (_nextIdNum r) (_numRecords r) (_dataSize r) (_oplogStones r) (table r).
Definition set_cappedSleepMS (v : Z) (r : WiredTigerRecordStore) :=
  mkStore (_isCapped r) (_isOplog r) (_cappedMaxSize r) (_cappedMaxSizeSlack r)
          (_cappedMaxDocs r) (_cappedSleep r) v
          (_cappedCallback r) (_shuttingDown r) (_cappedFirstRecord r)
          (_nextIdNum r) (_numRecords r) (_dataSize r) (_oplogStones r) (table r).
Definition set_cappedFirstRecord (v : RecordId) (r : WiredTigerRecordStore) :=
  mkStore (_isCapped r) (_isOplog r) (_cappedMaxSize r) (_cappedMaxSizeSlack r)
          (_cappedMaxDocs r) (_cappedSleep r) (_cappedSleepMS r)
          (_cappedCallback r) (_shuttingDown r) v
          (_nextIdNum r) (_numRecords r) (_dataSize r) (_oplogStones r) (table r).
Definition set_nextIdNum (v : Z) (r : WiredTigerRecordStore) :=
  mkStore (_isCapped r) (_isOplog r) (_cappedMaxSize r) (_cappedMaxSizeSlack r)
          (_cappedMaxDocs r) (_cappedSleep r) (_cappedSleepMS r)
          (_cappedCallback r) (_shuttingDown r) (_cappedFirstRecord r)
          v (_numRecords r) (_dataSize r) (_oplogStones r) (table r).
Definition set_numRecords (v : Z) (r : WiredTigerRecordStore) :=
  mkStore (_isCapped r) (_isOplog r) (_cappedMaxSize r) (_cappedMaxSizeSlack r)
          (_cappedMaxDocs r) (_cappedSleep r) (_cappedSleepMS r)
          (_cappedCallback r) (_shuttingDown r) (_cappedFirstRecord r)
          (_nextIdNum r) v (_dataSize r) (_oplogStones r) (table r).
Definition set_dataSize (v : Z) (r : WiredTigerRecordStore) :=
  mkStore (_isCapped r) (_isOplog r) (_cappedMaxSize r) (_cappedMaxSizeSlack r)
          (_cappedMaxDocs r) (_cappedSleep r) (_cappedSleepMS r)
          (_cappedCallback r) (_shuttingDown r) (_cappedFirstRecord r)
          (_nextIdNum r) (_numRecords r) v (_oplogStones r) (table r).
Definition set_oplogStones (v : option OplogStones) (r : WiredTigerRecordStore) :=
  mkStore (_isCapped r) (_isOplog r) (_cappedMaxSize r) (_cappedMaxSizeSlack r)
          (_cappedMaxDocs r) (_cappedSleep r) (_cappedSleepMS r)
          (_cappedCallback r) (_shuttingDown r) (_cappedFirstRecord r)
          (_nextIdNum r) (_numRecords r) (_dataSize r) v (table r).
Definition set_table (v : WT.Table) (r : WiredTigerRecordStore) :=
  mkStore (_isCapped r) (_isOplog r) (_cappedMaxSize r) (_cappedMaxSizeSlack r)
          (_cappedMaxDocs r) (_cappedSleep r) (_cappedSleepMS r)
          (_cappedCallback r) (_shuttingDown r) (_cappedFirstRecord r)
          (_nextIdNum r) (_numRecords r) (_dataSize r) (_oplogStones r) v.

(** [long long WiredTigerRecordStore::dataSize(opCtx) const] *)
Definition dataSize (r : WiredTigerRecordStore) : Z :=
  AtomicInt64.load (_dataSize r).

(** [long long WiredTigerRecordStore::numRecords(opCtx) const] *)
Definition numRecords (r : WiredTigerRecordStore) : Z :=
  AtomicInt64.load (_numRecords r).

(** ** Recovery units *)

(** The [RecoveryUnit::Change]s this file registers. *)
Inductive Change :=
| NumRecordsChange (diff : Z)
| DataSizeChange (amount : Z)
| InsertChange (bytesInserted : Z) (highestInserted : RecordId) (countInserted : Z)
| TruncateChange.

(** A recovery unit: the changes registered so far, in registration order,
    and the engine transaction's writes (key and previous value), most
    recent first. *)
Record RecoveryUnit := mkRU {
  changes : list Change;
  writes : list (RecordId * option RecordData)
}.

Definition emptyRU : RecoveryUnit := mkRU [] [].

(** What a member function runs on: the store and the operation context's
    recovery unit. *)
Record State := mkState {
  store : WiredTigerRecordStore;
  recoveryUnit : RecoveryUnit
}.

Definition on_store (f : WiredTigerRecordStore -> WiredTigerRecordStore)
  (s : State) : State :=
  mkState (f (store s)) (recoveryUnit s).

(** [opCtx->recoveryUnit()->registerChange(c)] *)
Definition registerChange (c : Change) (s : State) : State :=
  mkState (store s)
          (mkRU (changes (recoveryUnit s) ++ [c]) (writes (recoveryUnit s))).

(** a write of the engine transaction: the row is written and its previous
    value logged *)
Definition txnWrite (k : RecordId) (v : RecordData) (s : State) : State :=
  mkState (set_table (WT.insert k v (table (store s))) (store s))
          (mkRU (changes (recoveryUnit s))
                ((k, WT.search k (table (store s))) :: writes (recoveryUnit s))).

(** ** What the environment decides *)

Record Env := mkEnv {
  (** [_cappedDeleterMutex.try_lock()] *)
  cappedDeleterMutex_try_lock : bool;
  (** [_cappedDeleterMutex.try_lock_for(milliseconds(ms))] *)
  cappedDeleterMutex_try_lock_for : Z -> bool;
  (** the milliseconds measured around the timed wait *)
  cappedDeleter_delay : Z;
  (** [unique_lock lk(_mutex, try_to_lock)] on the stones' mutex *)
  stonesMutex_try_lock : bool;
  (** the code returned by [WT_SESSION::truncate] *)
  truncate_rc : Z;
  (** what successive [next()] calls of a random cursor return *)
  randomCursor : list RecordId
}.

(** ** Record cursors *)

(** [WiredTigerRecordStoreCursorBase] *)
Record RecordCursor := mkCursor {
  _forward : bool;
  _eof : bool;
  _skipNextAdvance : bool;
  _lastReturnedId : RecordId;
  _cursor : option WT.Cursor      (* [boost::none] when detached *)
}.

(** ** Declarations of headers that are not part of the sources *)

Class Headers := {
  (** [RecordId::isNormal] (record_id.h) *)
  isNormal : RecordId -> bool;
  isNormal_positive : forall r, isNormal r = true -> 0 < r;
  (** [BSONObjMaxInternalSize] (bson/util/builder.h) *)
  BSONObjMaxInternalSize : Z;
  BSONObjMaxInternalSize_positive : 0 < BSONObjMaxInternalSize;
  (** [OplogStones::kRandomSamplesPerStone]
      (wiredtiger_record_store_oplog_stones.h) *)
  kRandomSamplesPerStone : Z;
  kRandomSamplesPerStone_positive : 0 < kRandomSamplesPerStone;
  (** [OplogStones::hasExcessStones_inlock]
      (wiredtiger_record_store_oplog_stones.h) *)
  hasExcessStones_inlock : WiredTigerRecordStore -> OplogStones -> bool;
  (** [oploghack::extractKey] (oplog_hack.h) *)
  extractKey : RecordData -> StatusWith RecordId;
  (** the double-precision estimate of [_calculateStones]:
      from [_minBytesPerStone], [dataSize] and [numRecords] to
      [int64_t(estRecordsPerStone)] and [int64_t(estBytesPerStone)] *)
  estimateStone : Z -> Z -> Z -> Z * Z;
  (** [WiredTigerRecordStoreStandardCursor::initCursorToBeginning]
      (wiredtiger_record_store.h) *)
  initCursorToBeginning : WT.Table -> RecordCursor -> RecordCursor
}.

Section RecordStore.
Context {H : Headers}.
Local Open Scope monad_scope.

(** ** Counters and their compensating changes *)

(** The cell after [if (cell.fetchAndAdd(diff) < 0) cell.store(max(diff, 0))]. *)
Definition addClamped (cell diff : Z) : Z :=
  let '(old, new) := AtomicInt64.fetchAndAdd cell diff in
  if old <? 0 then Z.max diff 0 else new.

(** [void WiredTigerRecordStore::_changeNumRecords(opCtx, diff)] *)
Definition _changeNumRecords (diff : Z) : M State unit :=
  modify (registerChange (NumRecordsChange diff)) ;;;
  modify (on_store (fun r => set_numRecords (addClamped (_numRecords r) diff) r)).

(** [void WiredTigerRecordStore::_increaseDataSize(opCtx, amount)];
    [registered] is false where the source passes a null [opCtx].  The
    periodic write to the size storer's cache is outside the store. *)
Definition _increaseDataSize (registered : bool) (amount : Z) : M State unit :=
  (if registered then modify (registerChange (DataSizeChange amount)) else ret tt) ;;;
  modify (on_store (fun r => set_dataSize (addClamped (_dataSize r) amount) r)).

(** [RecordId WiredTigerRecordStore::_nextId()] *)
Definition _nextId : M State RecordId :=
  s <- get ;;
  invariant (negb (_isOplog (store s))) ;;;
  let '(out, cell) := AtomicInt64.fetchAndAdd (_nextIdNum (store s)) 1 in
  put (on_store (set_nextIdNum cell) s) ;;;
  invariant (isNormal out) ;;;
  ret out.

(** ** Stones: steady state *)

(** [bool OplogStones::hasExcessStones_inlock] is a header's; the deque's
    [front()] is taken when it holds. *)
Definition peekOldestStoneIfNeeded (r : WiredTigerRecordStore) (o : OplogStones)
  : option Stone.t :=
  if negb (hasExcessStones_inlock r o) then None else hd_error (_stones o).

(** [void OplogStones::popOldestStone()] *)
Definition popOldestStone (o : OplogStones) : OplogStones :=
  set_stones (tl (_stones o)) o.

(** [void OplogStones::createNewStoneIfNeeded(RecordId lastRecord)] *)
Definition createNewStoneIfNeeded (env : Env) (lastRecord : RecordId)
  (o : OplogStones) : OplogStones :=
  if negb (stonesMutex_try_lock env) then o
  else if AtomicInt64.load (_currentBytes o) <? _minBytesPerStone o then o
  else if match rev (_stones o) with
          | [] => false
          | back :: _ => lastRecord <? Stone.lastRecord back
          end
       then o
       else
         let '(r, cr) := AtomicInt64.swap (_currentRecords o) 0 in
         let '(b, cb) := AtomicInt64.swap (_currentBytes o) 0 in
         set_stones (_stones o ++ [Stone.mk r b lastRecord])
                    (set_currentRecords cr (set_currentBytes cb o)).

(** the stones of the store, which the caller knows to exist *)
Definition withStones {A} (k : OplogStones -> M State A) : M State A :=
  fun s =>
    match _oplogStones (store s) with
    | Some o => k o s
    | None => Terminated
    end.

Definition putStones (o : OplogStones) : M State unit :=
  modify (on_store (set_oplogStones (Some o))).

(** [void OplogStones::InsertChange::commit()] *)
Definition InsertChange_commit (env : Env)
  (bytesInserted : Z) (highestInserted : RecordId) (countInserted : Z)
  : M State unit :=
  invariant (bytesInserted >=? 0) ;;;
  invariant (isNormal highestInserted) ;;;
  withStones (fun o =>
    let '(_, cr) := AtomicInt64.addAndFetch (_currentRecords o) countInserted in
    let '(newCurrentBytes, cb) :=
      AtomicInt64.addAndFetch (_currentBytes o) bytesInserted in
    let o1 := set_currentBytes cb (set_currentRecords cr o) in
    putStones (if newCurrentBytes >=? _minBytesPerStone o1
               then createNewStoneIfNeeded env highestInserted o1
               else o1)).

(** [void OplogStones::TruncateChange::commit()] *)
Definition TruncateChange_commit : M State unit :=
  withStones (fun o =>
    putStones (set_stones [] (set_currentBytes 0 (set_currentRecords 0 o)))).

(** [Change::commit()] *)
Definition Change_commit (env : Env) (c : Change) : M State unit :=
  match c with
  | NumRecordsChange _ => ret tt
  | DataSizeChange _ => ret tt
  | InsertChange b h n => InsertChange_commit env b h n
  | TruncateChange => TruncateChange_commit
  end.

(** [Change::rollback()] *)
Definition Change_rollback (c : Change) : M State unit :=
  match c with
  | NumRecordsChange diff =>
      modify (on_store (fun r =>
        set_numRecords (snd (AtomicInt64.fetchAndAdd (_numRecords r) (- diff))) r))
  | DataSizeChange amount => _increaseDataSize false (- amount)
  | InsertChange _ _ _ => ret tt
  | TruncateChange => ret tt
  end.

Fixpoint forEach {A} (f : A -> M State unit) (l : list A) : M State unit :=
  match l with
  | [] => ret tt
  | a :: l' => f a ;;; forEach f l'
  end.

(** [WriteUnitOfWork::commit()] of the outermost unit: the engine
    transaction commits, then every change commits in registration order. *)
Definition commitUnitOfWork (env : Env) : M State unit :=
  s <- get ;;
  put (mkState (store s) emptyRU) ;;;
  forEach (Change_commit env) (changes (recoveryUnit s)).

(** the table with the transaction's writes taken back, most recent first *)
Fixpoint undoWrites (ws : list (RecordId * option RecordData)) (t : WT.Table)
  : WT.Table :=
  match ws with
  | [] => t
  | (k, Some v) :: ws' => undoWrites ws' (WT.insert k v t)
  | (k, None) :: ws' => undoWrites ws' (WT.remove k t)
  end.

(** The unit of work aborts: the engine transaction rolls back, then every
    change rolls back in reverse registration order. *)
Definition abortUnitOfWork : M State unit :=
  s <- get ;;
  put (mkState (set_table (undoWrites (writes (recoveryUnit s)) (table (store s)))
                          (store s))
               emptyRU) ;;;
  forEach Change_rollback (rev (changes (recoveryUnit s))).

(** [{ WriteUnitOfWork wuow(opCtx); body }]: an exception leaving the block
    aborts the unit. *)
Definition inWriteUnitOfWork {A} (body : M State A) : M State A :=
  fun s =>
    match body s with
    | Thrown e s' =>
        match abortUnitOfWork s' with
        | Returned _ s'' => Thrown e s''
        | Thrown e' s'' => Thrown e' s''
        | Terminated => Terminated
        end
    | r => r
    end.

(** ** The capped-collection reclaimer *)

(** [bool WiredTigerRecordStore::cappedAndNeedDelete() const] *)
Definition cappedAndNeedDelete (r : WiredTigerRecordStore) : bool :=
  if negb (_isCapped r) then false
  else if AtomicInt64.load (_dataSize r) >=? _cappedMaxSize r then true
  else if negb (_cappedMaxDocs r =? -1)
          && (AtomicInt64.load (_numRecords r) >? _cappedMaxDocs r) then true
  else false.

(** The locals of the walk of [cappedDeleteAsNeeded_inlock]. *)
Record Walk := mkWalk {
  ret_ : Z;                       (* ret *)
  truncateEnd : WT.Cursor;
  positioned : bool;
  newestIdToDelete : RecordId;
  docsRemoved : Z;
  sizeSaved : Z
}.

(** [getKey(cursor)] *)
Definition getKey (c : WT.Cursor) : RecordId :=
  match c with Some k => k | None => RecordId_null end.

(** how an iteration of the walk goes on *)
Inductive LoopStep :=
| Continue (w : Walk)
| Break (w : Walk)
| Raise (e : Exception)
| Die.

(** how the walk ends *)
Inductive WalkEnd :=
| Stopped (w : Walk)
| Raised (e : Exception)
| Died.

(** The loop's condition: evaluating it may advance the cursor. *)
Definition walkCondition (r : WiredTigerRecordStore)
  (sizeOverCap docsOverCap : Z) (w : Walk) : bool * Walk :=
  if ((sizeSaved w <? sizeOverCap) || (docsRemoved w <? docsOverCap))
     && (docsRemoved w <? 20000)
  then
    if positioned w then (true, w)
    else
      let '(rc, c) := WT.next (truncateEnd w) (table r) in
      (rc =? 0,
       mkWalk rc c (positioned w) (newestIdToDelete w) (docsRemoved w) (sizeSaved w))
  else (false, w).

(** The loop's body. *)
Definition walkBody (r : WiredTigerRecordStore) (justInserted : RecordId)
  (w : Walk) : LoopStep :=
  let newest := getKey (truncateEnd w) in
  let w1 := mkWalk (ret_ w) (truncateEnd w) false newest
                   (docsRemoved w) (sizeSaved w) in
  (* don't go past the record we just inserted *)
  if newest >=? justInserted then Break w1
  else
    match WT.get_value (truncateEnd w) (table r) with
    | None => Die                                     (* invariantWTOK *)
    | Some old_value =>
        let w2 := mkWalk (ret_ w) (truncateEnd w) false newest
                         (docsRemoved w + 1) (sizeSaved w + size old_value) in
        if _shuttingDown r then Break w2
        else
          match _cappedCallback r with
          | Some aboutToDeleteCapped =>
              match aboutToDeleteCapped newest old_value with
              | OK => Continue w2
              | Error _ => Raise (AssertionException 0)   (* uassertStatusOK *)
              end
          | None => Continue w2
          end
    end.

(** The [while] loop: "advance the cursor truncateEnd until we find a
    suitable end point for our truncate".  [None] when [fuel] iterations
    were not enough. *)
Fixpoint walk (fuel : nat) (r : WiredTigerRecordStore) (justInserted : RecordId)
  (sizeOverCap docsOverCap : Z) (w : Walk) : option WalkEnd :=
  match fuel with
  | O => None
  | S fuel' =>
      match walkCondition r sizeOverCap docsOverCap w with
      | (false, w') => Some (Stopped w')
      | (true, w') =>
          match walkBody r justInserted w' with
          | Continue w'' => walk fuel' r justInserted sizeOverCap docsOverCap w''
          | Break w'' => Some (Stopped w'')
          | Raise e => Some (Raised e)
          | Die => Some Died
          end
      end
  end.

(** the walk's starting point: "if we know where the first record is, go to
    it" *)
Definition walkStart (r : WiredTigerRecordStore) : Walk * RecordId :=
  if negb (_cappedFirstRecord r =? RecordId_null) then
    match WT.search (_cappedFirstRecord r) (table r) with
    | Some _ =>
        (mkWalk 0 (Some (_cappedFirstRecord r)) true RecordId_null 0 0,
         _cappedFirstRecord r)
    | None => (mkWalk WT_NOTFOUND None false RecordId_null 0 0, 0)
    end
  else (mkWalk 0 None false RecordId_null 0 0, 0).

(** The block of [cappedDeleteAsNeeded_inlock] under [try], run on the side
    recovery unit.  The walk is given one turn more than the table has
    rows, which is as many as it can take. *)
Definition cappedDelete_try (env : Env) (justInserted : RecordId) : M State Z :=
  s <- get ;;
  let r := store s in
  let dataSize := AtomicInt64.load (_dataSize r) in
  let numRecords := AtomicInt64.load (_numRecords r) in
  let sizeOverCap :=
    if dataSize >? _cappedMaxSize r then dataSize - _cappedMaxSize r else 0 in
  let docsOverCap :=
    if negb (_cappedMaxDocs r =? -1) && (numRecords >? _cappedMaxDocs r)
    then numRecords - _cappedMaxDocs r else 0 in
  inWriteUnitOfWork (
    let '(w0, savedFirstKey) := walkStart r in
    match walk (S (length (table r))) r justInserted sizeOverCap docsOverCap w0 with
    | None => fun _ => Terminated
    | Some Died => fun _ => Terminated
    | Some (Raised e) => throw e
    | Some (Stopped w) =>
        (if negb (ret_ w =? WT_NOTFOUND) then invariantWTOK (ret_ w) else ret tt) ;;;
        if docsRemoved w >? 0 then
          (* if we scanned to the end of the collection or past our insert,
             go back one *)
          let '(rc1, c1) :=
            if (ret_ w =? WT_NOTFOUND) || (newestIdToDelete w >=? justInserted)
            then WT.prev (truncateEnd w) (table r)
            else (ret_ w, truncateEnd w) in
          invariantWTOK rc1 ;;;
          let '(rc2, c2) := WT.next c1 (table r) in
          (if negb (rc2 =? WT_NOTFOUND) then invariantWTOK rc2 else ret tt) ;;;
          let firstRemainingId :=
            if negb (rc2 =? WT_NOTFOUND) then getKey c2 else RecordId_null in
          (* put the cursor back where it was *)
          let '(rc3, c3) := WT.prev c2 (table r) in
          invariantWTOK rc3 ;;;
          let truncateStart :=
            if negb (savedFirstKey =? 0) then Some savedFirstKey else None in
          let rc4 := truncate_rc env in
          if (rc4 =? ENOENT) || (rc4 =? WT_NOTFOUND) then
            (* soft failure truncating capped collection *)
            ret 0
          else
            invariantWTOK rc4 ;;;
            modify (on_store (fun r' =>
              set_table (WT.truncate truncateStart c3 (table r')) r')) ;;;
            _changeNumRecords (- docsRemoved w) ;;;
            _increaseDataSize true (- sizeSaved w) ;;;
            commitUnitOfWork env ;;;
            (* save the key for the next round *)
            modify (on_store (set_cappedFirstRecord firstRemainingId)) ;;;
            ret (docsRemoved w)
        else ret (docsRemoved w)
    end).

(** [int64_t WiredTigerRecordStore::cappedDeleteAsNeeded_inlock(opCtx,
    justInserted)]: the block runs in a side transaction, on a recovery unit
    of its own; the caller's recovery unit is put back on every way out, and
    a write conflict is swallowed. *)
Definition cappedDeleteAsNeeded_inlock (env : Env) (justInserted : RecordId)
  : M State Z :=
  fun s =>
    let realRecoveryUnit := recoveryUnit s in
    match cappedDelete_try env justInserted (mkState (store s) emptyRU) with
    | Returned n s' => Returned n (mkState (store s') realRecoveryUnit)
    | Thrown WriteConflictException s' =>
        Returned 0 (mkState (store s') realRecoveryUnit)
    | Thrown e s' => Thrown e (mkState (store s') realRecoveryUnit)
    | Terminated => Terminated
    end.

(** [int64_t WiredTigerRecordStore::cappedDeleteAsNeeded(opCtx, justInserted)] *)
Definition cappedDeleteAsNeeded (env : Env) (justInserted : RecordId)
  : M State Z :=
  s <- get ;;
  let r := store s in
  invariant (match _oplogStones r with None => true | Some _ => false end) ;;;
  if negb (cappedAndNeedDelete r) then ret 0
  else if negb (_cappedMaxDocs r =? -1) then
    (* lock.lock(): max docs has to be exact, so have to check every time *)
    cappedDeleteAsNeeded_inlock env justInserted
  else if cappedDeleterMutex_try_lock env then
    cappedDeleteAsNeeded_inlock env justInserted
  else
    (* someone else is deleting old records: apply back-pressure if too far
       behind, otherwise continue *)
    if AtomicInt64.load (_dataSize r) - _cappedMaxSize r <? _cappedMaxSizeSlack r
    then ret 0
    else
      (* don't wait forever *)
      let gotLock := cappedDeleterMutex_try_lock_for env 200 in
      modify (on_store (fun r' =>
        set_cappedSleep (snd (AtomicInt64.fetchAndAdd (_cappedSleep r') 1)) r')) ;;;
      modify (on_store (fun r' =>
        set_cappedSleepMS
          (snd (AtomicInt64.fetchAndAdd (_cappedSleepMS r') (cappedDeleter_delay env)))
          r')) ;;;
      if negb gotLock then ret 0
      else
        (* if we already waited, let someone else do cleanup unless we are
           significantly over the limit *)
        s' <- get ;;
        if AtomicInt64.load (_dataSize (store s')) - _cappedMaxSize (store s')
           <? 2 * _cappedMaxSizeSlack (store s')
        then ret 0
        else cappedDeleteAsNeeded_inlock env justInserted.

(** ** Inserting and updating *)

(** [totalLength]: the sum of the records' sizes *)
Definition totalLength (records : list Rec.t) : Z :=
  fold_left (fun acc rec => acc + size (Rec.data rec)) records 0.

(** The first loop of [_insertRecords]: every record gets its id, from the
    payload in the oplog and from the counter otherwise.  The records are
    the caller's array: ids written before a failure stay written. *)
Fixpoint assignIds (records : list Rec.t) (highestId : RecordId)
  : M State (Status * list Rec.t * RecordId) :=
  match records with
  | [] => ret (OK, [], highestId)
  | record :: rest =>
      s <- get ;;
      if _isOplog (store s) then
        match extractKey (Rec.data record) with
        | SW_Error code => ret (Error code, record :: rest, highestId)
        | SW_OK k =>
            r <- assignIds rest k ;;
            let '(st, rest', hi) := r in
            ret (st, Rec.mk k (Rec.data record) :: rest', hi)
        end
      else
        k <- _nextId ;;
        r <- assignIds rest k ;;
        let '(st, rest', hi) := r in
        ret (st, Rec.mk k (Rec.data record) :: rest', hi)
  end.

(** The second loop: every record is written under its id.  A non-zero code
    of [WT_CURSOR::insert] goes through [wtRCToStatus], which throws on
    [WT_ROLLBACK]. *)
Fixpoint writeRecords (insert_rc : RecordId -> Z) (records : list Rec.t)
  : M State Status :=
  match records with
  | [] => ret OK
  | record :: rest =>
      let rc := insert_rc (Rec.id record) in
      if rc =? 0 then
        modify (txnWrite (Rec.id record) (Rec.data record)) ;;;
        writeRecords insert_rc rest
      else if rc =? WT_ROLLBACK then throw WriteConflictException
      else ret (Error (OtherError rc))
  end.

(** [Status WiredTigerRecordStore::_insertRecords(opCtx, records, timestamps,
    nRecords)].  The result carries the caller's records with the ids
    written so far.  [insert_rc] is the engine's answer to each
    [WT_CURSOR::insert]; setting the transaction's timestamp is the recovery
    unit's business. *)
Definition _insertRecords (env : Env) (insert_rc : RecordId -> Z)
  (records : list Rec.t) : M State (Status * list Rec.t) :=
  s <- get ;;
  if _isCapped (store s) && (totalLength records >? _cappedMaxSize (store s))
  then ret (Error BadValue, records)
  else
    a <- assignIds records RecordId_null ;;
    let '(st, records', highestId) := a in
    match st with
    | Error code => ret (Error code, records')
    | OK =>
        st' <- writeRecords insert_rc records' ;;
        match st' with
        | Error code => ret (Error code, records')
        | OK =>
            _changeNumRecords (Z.of_nat (length records)) ;;;
            _increaseDataSize true (totalLength records) ;;;
            s' <- get ;;
            match _oplogStones (store s') with
            | Some _ =>
                (* updateCurrentStoneAfterInsertOnCommit *)
                modify (registerChange
                  (InsertChange (totalLength records) highestId
                                (Z.of_nat (length records))))
            | None =>
                _ <- cappedDeleteAsNeeded env highestId ;; ret tt
            end ;;;
            ret (OK, records')
        end
    end.

(** [Status WiredTigerRecordStore::insertRecords(opCtx, records, timestamps,
    enforceQuota)] *)
Definition insertRecords (env : Env) (insert_rc : RecordId -> Z)
  (records : list Rec.t) : M State (Status * list Rec.t) :=
  _insertRecords env insert_rc records.

(** [if (_oplogStones)] *)
Definition hasOplogStones (r : WiredTigerRecordStore) : bool :=
  match _oplogStones r with Some _ => true | None => false end.

(** [Status WiredTigerRecordStore::updateRecord(opCtx, id, data, len,
    enforceQuota, notifier)]; [len] is the length of [data]. *)
Definition updateRecord (env : Env) (insert_rc : RecordId -> Z)
  (id : RecordId) (data : RecordData) : M State Status :=
  s <- get ;;
  match WT.search id (table (store s)) with
  | None => fun _ => Terminated               (* invariantWTOK(WT_NOTFOUND) *)
  | Some old_value =>
      let len := size data in
      let old_length := size old_value in
      if hasOplogStones (store s) && negb (len =? old_length)
      then ret (Error IllegalOperation)
      else
        invariantWTOK (insert_rc id) ;;;
        modify (txnWrite id data) ;;;
        _increaseDataSize true (len - old_length) ;;;
        (if negb (hasOplogStones (store s))
         then _ <- cappedDeleteAsNeeded env id ;; ret tt
         else ret tt) ;;;
        ret OK
  end.

(** ** Reclaiming the oplog *)

(** One turn of the loop of [reclaimOplog], for the stone peeked. *)
Definition reclaimOplog_body (env : Env) (stone : Stone.t) : M State unit :=
  invariant (isNormal (Stone.lastRecord stone)) ;;;
  catchWCE
    (inWriteUnitOfWork (
       withStones (fun o =>
         invariantWTOK (truncate_rc env) ;;;
         modify (on_store (fun r =>
           set_table (WT.truncate (Some (firstRecord o))
                                  (Some (Stone.lastRecord stone)) (table r)) r)) ;;;
         _changeNumRecords (- Stone.records stone) ;;;
         _increaseDataSize true (- Stone.bytes stone) ;;;
         commitUnitOfWork env) ;;;
       (* remove the stone after a successful truncation *)
       withStones (fun o => putStones (popOldestStone o)) ;;;
       (* stash the truncate point for next time *)
       withStones (fun o =>
         putStones (set_firstRecord (Stone.lastRecord stone) o))))
    (* caught WriteConflictException while truncating oplog entries,
       retrying *)
    (ret tt).

(** [void WiredTigerRecordStore::reclaimOplog(opCtx)]: the [n]-th turn meets
    the environment [envs n].  [None] when [fuel] turns were not enough. *)
Fixpoint reclaimOplog (fuel : nat) (envs : nat -> Env) (n : nat) (s : State)
  : option (Result State unit) :=
  match fuel with
  | O => None
  | S fuel' =>
      match _oplogStones (store s) with
      | None => Some Terminated
      | Some o =>
          match peekOldestStoneIfNeeded (store s) o with
          | None => Some (Returned tt s)
          | Some stone =>
              match reclaimOplog_body (envs n) stone s with
              | Returned _ s' => reclaimOplog fuel' envs (S n) s'
              | r => Some r
              end
          end
      end
  end.

(** ** Stones: construction and reconfiguration *)

(** conversion of a 64-bit signed value to [unsigned long long] *)
Definition toUInt64 (z : Z) : Z := z mod 2 ^ 64.

Definition kMinStonesToKeep : Z := 10.
Definition kMaxStonesToKeep : Z := 100.

(** [numStonesToKeep], from [maxSize] as the unsigned value the source
    divides *)
Definition numStonesToKeep (maxSize : Z) : Z :=
  let numStones := maxSize / BSONObjMaxInternalSize in
  Z.min kMaxStonesToKeep (Z.max kMinStonesToKeep numStones).

(** [void OplogStones::adjust(int64_t maxSize)] *)
Definition adjust (maxSize : Z) : M State unit :=
  withStones (fun o =>
    let numStones := toUInt64 (Z.quot maxSize BSONObjMaxInternalSize) in
    let numStonesToKeep :=
      Z.min kMaxStonesToKeep (Z.max kMinStonesToKeep numStones) in
    let minBytesPerStone :=
      Int64.wrap (toUInt64 maxSize / numStonesToKeep) in
    putStones (set_minBytesPerStone minBytesPerStone o) ;;;
    invariant (minBytesPerStone >? 0)).

(** [Status WiredTigerRecordStore::updateCappedSize(opCtx, cappedSize)] *)
Definition updateCappedSize (cappedSize : Z) : M State Status :=
  s <- get ;;
  if _cappedMaxSize (store s) =? cappedSize then ret OK
  else
    modify (on_store (set_cappedMaxSize cappedSize)) ;;;
    (if hasOplogStones (store s) then adjust cappedSize else ret tt) ;;;
    ret OK.

(** [void WiredTigerRecordStore::updateStatsAfterRepair(opCtx, numRecords,
    dataSize)] *)
Definition updateStatsAfterRepair (numRecords dataSize : Z) : M State unit :=
  modify (on_store (fun r => set_dataSize dataSize (set_numRecords numRecords r))).










(** ** Construction of the store *)

(** [WiredTigerRecordStore::Params], as far as this file reads them *)
Record Params := mkParams {
  isOplogNs : bool;               (* NamespaceString::oplog(params.ns) *)
  isCapped : bool;
  cappedMaxSize : Z;
  cappedMaxDocs : Z;
  cappedCallback : option CappedCallback
}.

(** [WiredTigerRecordStore::WiredTigerRecordStore(kvEngine, ctx, params)]
    over the table at [params.uri]; [None] when an invariant fails. *)
Definition WiredTigerRecordStore_new (params : Params) (t : WT.Table)
  : option WiredTigerRecordStore :=
  let slack := Z.min (Z.quot (cappedMaxSize params) 10) (16 * 1024 * 1024) in
  let ok :=
    if isCapped params
    then (cappedMaxSize params >? 0)
         && ((cappedMaxDocs params =? -1) || (cappedMaxDocs params >? 0))
    else (cappedMaxSize params =? -1) && (cappedMaxDocs params =? -1) in
  if ok then
    Some (mkStore (isCapped params) (isOplogNs params) (cappedMaxSize params)
                  slack (cappedMaxDocs params) 0 0 (cappedCallback params)
                  false RecordId_null 0 0 0 None t)
  else None.



(** ** The record cursor *)

(** [boost::optional<Record> WiredTigerRecordStoreCursorBase::next()] over
    the table [t]; for the standard cursor [hasWrongPrefix] is false and
    reads the key. *)
Definition next (t : WT.Table) : M RecordCursor (option Rec.t) :=
  c <- get ;;
  if _eof c then ret None
  else
    match _cursor c with
    | None => fun _ => Terminated
    | Some wc =>
        let advance :=
          if negb (_skipNextAdvance c)
          then (if _forward c then WT.next wc t else WT.prev wc t)
          else (0, wc) in
        let '(advanceRet, wc') := advance in
        if advanceRet =? WT_NOTFOUND then
          put (mkCursor (_forward c) true (_skipNextAdvance c)
                        (_lastReturnedId c) (Some wc')) ;;;
          ret None
        else
          invariantWTOK advanceRet ;;;
          let id := getKey wc' in
          if _forward c && (_lastReturnedId c >=? id) then
            (* "which is a bug": force a retry of the operation *)
            put (mkCursor (_forward c) (_eof c) false
                          (_lastReturnedId c) (Some wc')) ;;;
            throw WriteConflictException
          else
            match WT.get_value wc' t with
            | None => fun _ => Terminated
            | Some value =>
                put (mkCursor (_forward c) (_eof c) false id (Some wc')) ;;;
                ret (Some (Rec.mk id value))
            end
    end.

(** [void WiredTigerRecordStoreCursorBase::save()] *)
Definition save (c : RecordCursor) : RecordCursor :=
  mkCursor (_forward c) (_eof c) (_skipNextAdvance c) (_lastReturnedId c)
           (match _cursor c with Some _ => Some None | None => None end).

(** [bool WiredTigerRecordStoreCursorBase::restore()] on the store [r];
    [preferAbove] is the engine's pick in [search_near]. *)
Definition restore (r : WiredTigerRecordStore) (preferAbove : bool)
  : M RecordCursor bool :=
  c0 <- get ;;
  (* if (!_cursor) _cursor.emplace(...) *)
  let wc0 := match _cursor c0 with Some wc => wc | None => None end in
  let c := mkCursor (_forward c0) (_eof c0) false (_lastReturnedId c0) (Some wc0) in
  put c ;;;
  (* if we've hit EOF, then this iterator is done and need not be restored *)
  if _eof c then ret true
  else if isNull (_lastReturnedId c) then
    modify (initCursorToBeginning (table r)) ;;;
    ret true
  else
    let '(rc, cmp, wc) := WT.search_near preferAbove (_lastReturnedId c) (table r) in
    if rc =? WT_NOTFOUND then
      put (mkCursor (_forward c) true (_skipNextAdvance c)
                    (_lastReturnedId c) (Some wc)) ;;;
      ret (negb (_isCapped r))
    else
      invariantWTOK rc ;;;
      put (mkCursor (_forward c) (_eof c) (_skipNextAdvance c)
                    (_lastReturnedId c) (Some wc)) ;;;
      if cmp =? 0 then ret true      (* landed right where we left off *)
      else if _isCapped r then
        (* doc was deleted either by cappedDeleteAsNeeded() or
           cappedTruncateAfter() *)
        put (mkCursor (_forward c) true (_skipNextAdvance c)
                      (_lastReturnedId c) (Some wc)) ;;;
        ret false
      else
        (if (_forward c && (cmp >? 0)) || (negb (_forward c) && (cmp <? 0))
         then
           (* we landed after where we were: return our new location on the
              next call to next() *)
           put (mkCursor (_forward c) (_eof c) true
                         (_lastReturnedId c) (Some wc))
         else ret tt) ;;;
        ret true.

End RecordStore.

(** ** The rest of the record store *)






Section RecordStoreRest.
Context {H : Headers}.
Local Open Scope monad_scope.

(** a removal by the engine transaction: the row goes and its value is
    logged *)
Definition txnRemove (k : RecordId) (s : State) : State :=
  mkState (set_table (WT.remove k (table (store s))) (store s))
          (mkRU (changes (recoveryUnit s))
                ((k, WT.search k (table (store s))) :: writes (recoveryUnit s))).

(** a range truncate by the engine transaction: the rows of the range go
    and are logged *)
Definition txnTruncate (start stop : option RecordId) (s : State) : State :=
  let t := table (store s) in
  let removed := filter (fun kv => WT.in_range start stop (fst kv)) t in
  mkState (set_table (WT.truncate start stop t) (store s))
          (mkRU (changes (recoveryUnit s))
                (map (fun kv => (fst kv, Some (snd kv))) removed
                 ++ writes (recoveryUnit s))).

(** *** Reading, inserting and deleting one record *)


(** [bool WiredTigerRecordStore::findRecord(opCtx, id, out) const]: the
    result and what [*out] holds afterwards *)
Definition findRecord (id : RecordId) (out : RecordData)
  : M State (bool * RecordData) :=
  s <- get ;;
  match WT.search id (table (store s)) with
  | None => ret (false, out)
  | Some value => ret (true, value)
  end.

(** [void WiredTigerRecordStore::deleteRecord(opCtx, id)]; [remove_rc] is
    the engine's answer to [WT_CURSOR::remove]. *)
Definition deleteRecord (remove_rc : RecordId -> Z) (id : RecordId)
  : M State unit :=
  s <- get ;;
  (* deletes should never occur on a capped collection *)
  invariant (negb (_isCapped (store s))) ;;;
  match WT.search id (table (store s)) with
  | None => fun _ => Terminated               (* invariantWTOK(WT_NOTFOUND) *)
  | Some old_value =>
      let old_length := size old_value in
      invariantWTOK (remove_rc id) ;;;
      modify (txnRemove id) ;;;
      _changeNumRecords (-1) ;;;
      _increaseDataSize true (- old_length)
  end.


(** [Status WiredTigerRecordStore::truncate(opCtx)] *)
Definition truncate (env : Env) : M State Status :=
  s <- get ;;
  match hd_error (table (store s)) with
  | None =>
      (* empty collections don't have anything to truncate *)
      ret OK
  | Some (start, _) =>
      invariantWTOK (truncate_rc env) ;;;
      modify (txnTruncate (Some start) None) ;;;
      s1 <- get ;;
      _changeNumRecords (- numRecords (store s1)) ;;;
      s2 <- get ;;
      _increaseDataSize true (- dataSize (store s2)) ;;;
      (if hasOplogStones (store s)
       then modify (registerChange TruncateChange)   (* clearStonesOnCommit *)
       else ret tt) ;;;
      ret OK
  end.

(** *** Stones after a truncation from the newest end *)

(** The loop of [updateStonesAfterCappedTruncateAfter] over the stones from
    the newest to the oldest. *)
Fixpoint stonesToRemove (rstones : list Stone.t) (firstRemovedId : RecordId)
  (numStonesToRemove recordsInStonesToRemove bytesInStonesToRemove : Z)
  : Z * Z * Z :=
  match rstones with
  | [] => (numStonesToRemove, recordsInStonesToRemove, bytesInStonesToRemove)
  | it :: rest =>
      if Stone.lastRecord it <? firstRemovedId
      then (numStonesToRemove, recordsInStonesToRemove, bytesInStonesToRemove)
      else stonesToRemove rest firstRemovedId
             (numStonesToRemove + 1)
             (recordsInStonesToRemove + Stone.records it)
             (bytesInStonesToRemove + Stone.bytes it)
  end.

(** [void OplogStones::updateStonesAfterCappedTruncateAfter(recordsRemoved,
    bytesRemoved, firstRemovedId)] *)
Definition updateStonesAfterCappedTruncateAfter
  (recordsRemoved bytesRemoved : Z) (firstRemovedId : RecordId)
  (o : OplogStones) : OplogStones :=
  let '(numStonesToRemove, recordsInStonesToRemove, bytesInStonesToRemove) :=
    stonesToRemove (rev (_stones o)) firstRemovedId 0 0 0 in
  let offset := Z.of_nat (length (_stones o)) - numStonesToRemove in
  let o1 := set_stones (firstn (Z.to_nat offset) (_stones o)) o in
  let '(_, cr) :=
    AtomicInt64.addAndFetch (_currentRecords o1)
                            (recordsInStonesToRemove - recordsRemoved) in
  let '(_, cb) :=
    AtomicInt64.addAndFetch (_currentBytes o1)
                            (bytesInStonesToRemove - bytesRemoved) in
  set_currentBytes cb (set_currentRecords cr o1).

(** [void OplogStones::setMinBytesPerStone(int64_t size)] *)
Definition setMinBytesPerStone (size : Z) : M State unit :=
  invariant (size >? 0) ;;;
  withStones (fun o =>
    (* only allow changing the minimum bytes per stone if no data has been
       inserted *)
    invariant ((Z.of_nat (length (_stones o)) =? 0)
               && (AtomicInt64.load (_currentRecords o) =? 0)) ;;;
    putStones (set_minBytesPerStone size o)).

(** *** Cursors *)

(** [WiredTigerRecordStoreCursorBase(opCtx, rs, forward)]: the members not
    named take the header's initial values. *)
Definition RecordCursor_new (forward : bool) : RecordCursor :=
  mkCursor forward false false RecordId_null (Some None).

(** [StandardWiredTigerRecordStore::getCursor(opCtx, forward) const];
    [snapshotOpen] is [wru->inActiveTxn() && !lockState()->isNoop() &&
    !lockState()->isCollectionLockedForMode(_ns, MODE_X)]. *)
Definition getCursor (snapshotOpen : bool) (forward : bool)
  : M State RecordCursor :=
  s <- get ;;
  if _isOplog (store s) && forward && snapshotOpen
  then throw WriteConflictException
  else ret (RecordCursor_new forward).

(** [boost::optional<Record> WiredTigerRecordStoreCursorBase::seekExact(id)]
    over the table [t] *)
Definition seekExact (t : WT.Table) (id : RecordId)
  : M RecordCursor (option Rec.t) :=
  c <- get ;;
  match _cursor c with
  | None => fun _ => Terminated
  | Some _ =>
      match WT.search id t with
      | None =>
          put (mkCursor (_forward c) true false (_lastReturnedId c) (Some None)) ;;;
          ret None
      | Some value =>
          put (mkCursor (_forward c) false false id (Some (Some id))) ;;;
          ret (Some (Rec.mk id value))
      end
  end.

(** [void WiredTigerRecordStoreCursorBase::saveUnpositioned()] *)
Definition saveUnpositioned (c : RecordCursor) : RecordCursor :=
  let c1 := save c in
  mkCursor (_forward c1) (_eof c1) (_skipNextAdvance c1) RecordId_null (_cursor c1).

(** [void WiredTigerRecordStoreCursorBase::detachFromOperationContext()] *)
Definition detachFromOperationContext (c : RecordCursor) : RecordCursor :=
  mkCursor (_forward c) (_eof c) (_skipNextAdvance c) (_lastReturnedId c) None.

(** [void WiredTigerRecordStoreCursorBase::reattachToOperationContext(opCtx)]:
    [_cursor] is recreated in [restore()]. *)
Definition reattachToOperationContext (c : RecordCursor) : RecordCursor := c.

(** a cursor's member function run from a member function of the store *)
Definition onCursor {A} (m : M RecordCursor A) (c : RecordCursor)
  : M State (A * RecordCursor) :=
  fun s =>
    match m c with
    | Returned a c' => Returned (a, c') s
    | Thrown e _ => Thrown e s
    | Terminated => Terminated
    end.

(** [boost::optional<RecordId> WiredTigerRecordStore::oplogStartHack(opCtx,
    startingPosition) const]; [preferAbove] is the engine's pick in
    [search_near]. *)
Definition oplogStartHack (preferAbove : bool) (startingPosition : RecordId)
  : M State (option RecordId) :=
  s <- get ;;
  if negb (_isOplog (store s)) then ret None
  else
    let t := table (store s) in
    let '(rc, cmp, c) := WT.search_near preferAbove startingPosition t in
    let '(rc1, c1) :=
      (* landed one higher than startingPosition *)
      if (rc =? 0) && (cmp >? 0) then WT.prev c t else (rc, c) in
    if rc1 =? WT_NOTFOUND then
      (* nothing <= startingPosition *)
      ret (Some RecordId_null)
    else
      invariantWTOK rc1 ;;;
      ret (Some (getKey c1)).

(** *** Truncating a capped collection from the newest end *)

(** The [do ... while ((record = cursor->next()))] loop of
    [cappedTruncateAfter]: the number and the sizes of the records to
    delete.  [None] when [fuel] turns were not enough. *)
Fixpoint countToRemove (fuel : nat) (r : WiredTigerRecordStore)
  (record : Rec.t) (cursor : RecordCursor) (recordsRemoved bytesRemoved : Z)
  : option (Result RecordCursor (Z * Z)) :=
  match fuel with
  | O => None
  | S fuel' =>
      match (match _cappedCallback r with
             | Some aboutToDeleteCapped =>
                 aboutToDeleteCapped (Rec.id record) (Rec.data record)
             | None => OK
             end) with
      | Error _ => Some (Thrown (AssertionException 0) cursor)  (* uassertStatusOK *)
      | OK =>
          let recordsRemoved := recordsRemoved + 1 in
          let bytesRemoved := bytesRemoved + size (Rec.data record) in
          match next (table r) cursor with
          | Returned (Some record') cursor' =>
              countToRemove fuel' r record' cursor' recordsRemoved bytesRemoved
          | Returned None cursor' =>
              Some (Returned (recordsRemoved, bytesRemoved) cursor')
          | Thrown e cursor' => Some (Thrown e cursor')
          | Terminated => Some Terminated
          end
      end
  end.

(** [void WiredTigerRecordStore::cappedTruncateAfter(opCtx, end, inclusive)],
    called outside a unit of work.  The count is given one turn more than
    the table has rows; moving the engine's oldest timestamp is the
    engine's business. *)
Definition cappedTruncateAfter (env : Env) (snapshotOpen : bool)
  (end_ : RecordId) (inclusive : bool) : M State unit :=
  s <- get ;;
  let t := table (store s) in
  cursor <- getCursor snapshotOpen true ;;
  sought <- onCursor (seekExact t end_) cursor ;;
  let '(record, cursor) := sought in
  match record with
  | None =>
      (* failed to seek to the record located at [end] *)
      throw (AssertionException 28807)
  | Some record =>
      first <-
        (if inclusive then
           reverseCursor <- getCursor snapshotOpen false ;;
           back <- onCursor (seekExact t end_) reverseCursor ;;
           invariant (match fst back with Some _ => true | None => false end) ;;;
           prev <- onCursor (next t) (snd back) ;;
           let lastKeptId :=
             match fst prev with
             | Some prev => Rec.id prev
             | None => RecordId_null
             end in
           ret (Some (record, cursor, lastKeptId, end_))
         else
           (* advance the cursor to the first record that is being deleted *)
           advanced <- onCursor (next t) cursor ;;
           match fst advanced with
           | None => ret None                 (* no records to delete *)
           | Some record => ret (Some (record, snd advanced, end_, Rec.id record))
           end) ;;
      match first with
      | None => ret tt
      | Some (record, cursor, lastKeptId, firstRemovedId) =>
          (* compute the number and associated sizes of the records to
             delete *)
          match countToRemove (S (length t)) (store s) record cursor 0 0 with
          | None => fun _ => Terminated
          | Some Terminated => fun _ => Terminated
          | Some (Thrown e _) => throw e
          | Some (Returned (recordsRemoved, bytesRemoved) _) =>
              (* truncate the collection starting from the record located
                 at [firstRemovedId] to the end of the collection *)
              inWriteUnitOfWork (
                invariantWTOK (truncate_rc env) ;;;
                modify (txnTruncate (Some firstRemovedId) None) ;;;
                _changeNumRecords (- recordsRemoved) ;;;
                _increaseDataSize true (- bytesRemoved) ;;;
                commitUnitOfWork env) ;;;
              s' <- get ;;
              match _oplogStones (store s') with
              | Some o =>
                  putStones (updateStonesAfterCappedTruncateAfter
                               recordsRemoved bytesRemoved firstRemovedId o)
              | None => ret tt
              end
          end
      end
  end.

(** *** Validation *)




End RecordStoreRest.

(** ** Callers and concrete stores *)

(** How the caller's unit of work around an insert ends. *)
Inductive Fate := Commits | Aborts.

(** [insertDocuments] of write_ops_exec.cpp, as far as the record store
    goes: the documents are inserted in a unit of work of their own,
    [uassertStatusOK] throws on a bad status, and the unit commits unless
    something else in it fails first ([Aborts]), which aborts it.  The
    result is the ids of the records inserted. *)
Definition insertDocuments {H : Headers} (env : Env) (insert_rc : RecordId -> Z)
  (fate : Fate) (docs : list RecordData) : M State (list RecordId) :=
  inWriteUnitOfWork (
    bind (insertRecords env insert_rc (map (Rec.mk RecordId_null) docs))
      (fun r =>
         match fst r with
         | Error _ => throw (AssertionException 0)
         | OK =>
             match fate with
             | Aborts => throw WriteConflictException
             | Commits =>
                 bind (commitUnitOfWork env)
                      (fun _ => ret (map Rec.id (snd r)))
             end
         end)).



(** An instance of the headers.  The constants, [isNormal] and
    [hasExcessStones_inlock] (the stones' bytes against the cap) are as
    MongoDB 3.6 declares them; the oplog key (the first payload byte), the
    stone estimate (in integer arithmetic) and the standard cursor's empty
    [initCursorToBeginning] stand in for code no statement below depends
    on. *)
Definition mongo36 : Headers := {|
  isNormal := fun r => (0 <? r) && (r <? Int64.max_value);
  isNormal_positive := fun r e => proj1 (Z.ltb_lt 0 r) (proj1 (andb_prop _ _ e));
  BSONObjMaxInternalSize := 16 * 1024 * 1024 + 16 * 1024;
  BSONObjMaxInternalSize_positive := eq_refl;
  kRandomSamplesPerStone := 10;
  kRandomSamplesPerStone_positive := eq_refl;
  hasExcessStones_inlock := fun r o =>
    fold_left (fun acc st => acc + Stone.bytes st) (_stones o) 0 >? _cappedMaxSize r;
  extractKey := fun d =>
    match d with
    | [] => SW_Error BadValue
    | b :: _ => SW_OK (Z.of_N (Byte.to_N b))
    end;
  estimateStone := fun minBytes dataSize numRecords =>
    (minBytes * numRecords / dataSize + 1,
     (minBytes * numRecords / dataSize + 1) * dataSize / numRecords);
  initCursorToBeginning := fun _ c => c
|}.

(** an environment without contention: every try-lock is won and the
    engine's truncate succeeds *)
Definition quietEnv : Env :=
  mkEnv true (fun _ => true) 0 true 0 [].

(** every [WT_CURSOR::insert] succeeds *)
Definition insert_ok : RecordId -> Z := fun _ => 0.

(** a payload of [n] bytes *)
Definition payload (n : nat) : RecordData := repeat Byte.x00 n.

(** ** Vocabulary of the statements *)

(** [keeps f m]: however [m] ends, [f] of the state is as before. *)
Definition keeps {S A X} (f : S -> X) (m : M S A) : Prop :=
  forall s,
    match m s with
    | Returned _ s' => f s' = f s
    | Thrown _ s' => f s' = f s
    | Terminated => True
    end.


(** the marker count the source keeps: [maxSize / BSONObjMaxInternalSize]
    clamped to between 10 and 100 *)
Definition clampedCount {H : Headers} (maxSize : Z) : Z :=
  Z.min 100 (Z.max 10 (maxSize / BSONObjMaxInternalSize)).

(** the stone last pushed, if any *)
Definition newestStone (o : OplogStones) : option Stone.t :=
  hd_error (rev (_stones o)).

(** a log store of three records of 10 bytes whose two stones are
    estimated at five records and 50 bytes each, with counters to match *)
Definition estimatedOplog : State :=
  mkState
    (mkStore true true 40 4 (-1) 0 0 None false RecordId_null 1 10 100
             (Some (mkOplogStones [Stone.mk 5 50 10; Stone.mk 5 50 20] 0 0 10
                                  RecordId_null false))
             [(5, payload 10); (10, payload 10); (20, payload 10)])
    emptyRU.

(** the same store with its counters at the records it holds, behind its
    stones' estimates: three records counted, two stones of five *)
Definition laggingOplog : State :=
  mkState
    (mkStore true true 40 4 (-1) 0 0 None false RecordId_null 1 3 30
             (Some (mkOplogStones [Stone.mk 5 50 10; Stone.mk 5 50 20] 0 0 10
                                  RecordId_null false))
             [(5, payload 10); (10, payload 10); (20, payload 10)])
    emptyRU.

(** a log store with an empty open segment and a threshold of 1000 bytes *)
Definition freshOplog : State :=
  mkState
    (mkStore true true 100000 10000 (-1) 0 0 None false RecordId_null 1 0 0
             (Some (mkOplogStones [] 0 0 1000 RecordId_null false))
             [])
    emptyRU.

(** the same store after a batch ending at id 20 has been closed into a
    stone *)
Definition racedOplog : State :=
  mkState
    (mkStore true true 100000 10000 (-1) 0 0 None false RecordId_null 1 0 0
             (Some (mkOplogStones [Stone.mk 3 1500 20] 0 0 1000 RecordId_null false))
             [])
    emptyRU.

(** an environment in which another thread holds the stones' mutex *)
Definition stonesBusyEnv : Env :=
  mkEnv true (fun _ => true) 0 false 0 [].

(** a capped, non-log store of 100 bytes holding two records of 40 bytes *)
Definition smallCapped : State :=
  mkState
    (mkStore true false 100 10 (-1) 0 0 None false RecordId_null 3 2 80 None
             [(1, payload 40); (2, payload 40)])
    emptyRU.


(** the table's rows are in strictly increasing key order *)
Definition ordered (t : WT.Table) : Prop := StronglySorted Z.lt (WT.keys t).

(** [res] is the row of [t] nearest to [k] in the direction of travel, or
    nothing when no row lies that way *)
Definition nearest (forward : bool) (k : RecordId) (t : WT.Table)
  (res : option Rec.t) : Prop :=
  match res with
  | Some rec =>
      In (Rec.id rec, Rec.data rec) t
      /\ (if forward then k < Rec.id rec else Rec.id rec < k)
      /\ forall k', In k' (WT.keys t) ->
                    if forward then k < k' -> Rec.id rec <= k'
                    else k' < k -> k' <= Rec.id rec
  | None =>
      forall k', In k' (WT.keys t) -> if forward then k' <= k else k <= k'
  end.

(** [ensures R m]: however [m] ends, the state it ends in is related by
    [R] to the state it started from. *)
Definition ensures {A} (R : State -> State -> Prop) (m : M State A) : Prop :=
  forall s,
    match m s with
    | Returned _ s' => R s s'
    | Thrown _ s' => R s s'
    | Terminated => True
    end.

(** every row of [t] with a key from [justInserted] on is a row of [t'] *)
Definition survives (justInserted : RecordId) (t t' : WT.Table) : Prop :=
  forall k v, In (k, v) t -> justInserted <= k -> In (k, v) t'.

(** a transaction without writes leaves the rows from [justInserted] on in
    place, and stays without writes *)
Definition sparing (justInserted : RecordId) (s s' : State) : Prop :=
  writes (recoveryUnit s) = [] ->
  writes (recoveryUnit s') = []
  /\ survives justInserted (table (store s)) (table (store s')).

(** what holds of the walk's locals between two turns of its loop *)
Definition walkInv (justInserted : RecordId) (t : WT.Table) (w : Walk) : Prop :=
  0 <= docsRemoved w
  /\ (positioned w = true ->
      docsRemoved w = 0 /\ ret_ w = 0
      /\ exists k, truncateEnd w = Some k /\ In k (WT.keys t))
  /\ (0 < docsRemoved w ->
      positioned w = false /\ ret_ w = 0
      /\ truncateEnd w = Some (newestIdToDelete w)
      /\ newestIdToDelete w < justInserted).

(** what holds of the walk's locals when the loop is left having counted
    a record: the cursor is on the last record counted; or it ran off the
    end of a table all below [justInserted]; or it is on the first row
    after a record below [justInserted] *)
Definition walkEnd (justInserted : RecordId) (t : WT.Table) (w : Walk) : Prop :=
  0 < docsRemoved w ->
  (ret_ w = 0 /\ truncateEnd w = Some (newestIdToDelete w)
   /\ newestIdToDelete w < justInserted)
  \/ (ret_ w = WT_NOTFOUND /\ truncateEnd w = None
      /\ forall k, In k (WT.keys t) -> k < justInserted)
  \/ (ret_ w = 0 /\ truncateEnd w = Some (newestIdToDelete w)
      /\ justInserted <= newestIdToDelete w
      /\ exists p, p < justInserted
                   /\ forall k, In k (WT.keys t) -> p < k ->
                                newestIdToDelete w <= k).

(** the rows the walk's cursor has still to pass, and one more while the
    row it is on has not been looked at *)
Definition walkMeasure (t : WT.Table) (w : Walk) : nat :=
  (if positioned w then 1 else 0)
  + length (filter (fun kv => match truncateEnd w with
                              | Some k => k <? fst kv
                              | None => true
                              end) t).

(** the table and the transaction's writes *)
Definition tableAndWrites (s : State)
  : WT.Table * list (RecordId * option RecordData) :=
  (table (store s), writes (recoveryUnit s)).


(** on a store that is not the oplog, every id the counter has still to
    give is above [m] *)
Definition idInv (m : Z) (s : State) : Prop :=
  _isOplog (store s) = false
  /\ Int64.in_range (_nextIdNum (store s))
  /\ (m < _nextIdNum (store s) \/ _nextIdNum (store s) <= 0).

(** [holds m s Q E]: from [s], [m] returns in a state and with a value
    satisfying [Q], or throws in a state satisfying [E] *)
Definition holds {A} (m : M State A) (s : State)
  (Q : A -> State -> Prop) (E : State -> Prop) : Prop :=
  match m s with
  | Returned a s' => Q a s'
  | Thrown _ s' => E s'
  | Terminated => True
  end.

(** an environment in which another thread holds the capped deleter's
    mutex and keeps it beyond the timed wait *)
Definition deleterBusyEnv : Env :=
  mkEnv false (fun _ => false) 200 true 0 [].





(** a store that is neither capped nor the oplog *)
Definition plainStore : WiredTigerRecordStore :=
  mkStore false false (-1) 0 (-1) 0 0 None false RecordId_null 8 2 80 None
          [(3, payload 40); (7, payload 40)].

(** the capped store after its second record has been grown to 70 bytes:
    110 bytes against a cap of 100 *)
Definition overCapped : State :=
  mkState
    (mkStore true false 100 10 (-1) 0 0 None false RecordId_null 3 2 110 None
             [(1, payload 40); (2, payload 70)])
    emptyRU.

(** a store that is neither capped nor the oplog, over an empty table *)
Definition emptyPlain : State :=
  mkState
    (mkStore false false (-1) 0 (-1) 0 0 None false RecordId_null 1 0 0 None [])
    emptyRU.

(** ** Vocabulary of the further statements *)

(** the bytes of the table's records *)
Definition totalBytes (t : WT.Table) : Z :=
  fold_right (fun kv acc => size (snd kv) + acc) 0 t.

(** the counters are the table's: as many records, as many bytes *)
Definition exact (r : WiredTigerRecordStore) : Prop :=
  numRecords r = Z.of_nat (length (table r))
  /\ dataSize r = totalBytes (table r).

(** the records with the ids from [m] on, one after the other *)
Fixpoint numbered (m : Z) (records : list Rec.t) : list Rec.t :=
  match records with
  | [] => []
  | record :: rest => Rec.mk m (Rec.data record) :: numbered (m + 1) rest
  end.


(** the records and the bytes of a list of stones *)
Definition recordsOf (stones : list Stone.t) : Z :=
  fold_right (fun st acc => Stone.records st + acc) 0 stones.

Definition bytesOf (stones : list Stone.t) : Z :=
  fold_right (fun st acc => Stone.bytes st + acc) 0 stones.

(** the records and bytes of the stones and of the segment being filled *)
Definition stonesRecords (o : OplogStones) : Z :=
  recordsOf (_stones o) + _currentRecords o.

Definition stonesBytes (o : OplogStones) : Z :=
  bytesOf (_stones o) + _currentBytes o.


(** taking back the writes logged gives the table [base], which the unit
    of work started from *)
Definition restorable (base : WT.Table) (s : State) : Prop :=
  ordered (table (store s))
  /\ undoWrites (writes (recoveryUnit s)) (table (store s)) = base.

(** what a unit of work has registered and counted, and the store's
    stones and cap *)
Definition accounts (s : State)
  : list Change * Z * Z * option OplogStones * bool :=
  (changes (recoveryUnit s), _numRecords (store s), _dataSize (store s),
   _oplogStones (store s), _isCapped (store s)).

(** [m] returns or ends the process; it does not throw *)
Definition neverThrows {S A} (m : M S A) : Prop :=
  forall s, match m s with Thrown _ _ => False | _ => True end.

(** a cursor on the row of key [k], which it has just returned *)
Definition onRow (forward : bool) (k : RecordId) : RecordCursor :=
  mkCursor forward false false k (Some (Some k)).

(** the capped callback, if there is one, lets every one of the rows go *)
Definition callbackAllows (r : WiredTigerRecordStore) (rows : WT.Table) : Prop :=
  forall k v, In (k, v) rows ->
    match _cappedCallback r with
    | Some aboutToDeleteCapped => aboutToDeleteCapped k v = OK
    | None => True
    end.




(** the key of the last of the rows, if there is one: where a cursor
    that has just passed them sits *)
Definition lastKey (rows : WT.Table) : WT.Cursor :=
  match hd_error (rev rows) with
  | Some (k, _) => Some k
  | None => None
  end.

(** the walk's locals when it has counted the rows [pre] and goes on *)
Definition counted (pre : WT.Table) (w : Walk) : Prop :=
  positioned w = false
  /\ (ret_ w = 0 \/ (ret_ w = WT_NOTFOUND /\ pre = []))
  /\ truncateEnd w = lastKey pre
  /\ docsRemoved w = Z.of_nat (length pre)
  /\ sizeSaved w = totalBytes pre
  /\ (pre <> [] -> Some (newestIdToDelete w) = lastKey pre).



(** the store that is neither capped nor the oplog, outside a unit of work *)
Definition plainState : State := mkState plainStore emptyRU.



(** * Properties *)

Ltac unfold_monad :=
  unfold bind, ret, get, put, modify, throw, invariant, invariantWTOK, catchWCE in *.

#[local] Arguments Z.mul : simpl never.
#[local] Arguments Z.add : simpl never.
#[local] Arguments Z.sub : simpl never.
#[local] Arguments Z.opp : simpl never.
#[local] Arguments Z.div : simpl never.
#[local] Arguments Z.quot : simpl never.
#[local] Arguments Z.modulo : simpl never.
#[local] Arguments Z.pow : simpl never.
#[local] Arguments Z.ltb : simpl never.
#[local] Arguments Z.leb : simpl never.
#[local] Arguments Z.gtb : simpl never.
#[local] Arguments Z.geb : simpl never.
#[local] Arguments Z.eqb : simpl never.
#[local] Arguments Z.max : simpl never.
#[local] Arguments Z.min : simpl never.
#[local] Arguments Z.of_nat : simpl never.
#[local] Arguments Int64.wrap : simpl never.

Section Properties.
Context {H : Headers}.
Local Open Scope monad_scope.

(** ** Machine integers *)

Lemma wrap_in_range (z : Z) : Int64.in_range z -> Int64.wrap z = z.
Proof.
  unfold Int64.in_range, Int64.wrap, Int64.min_value, Int64.max_value.
  intros Hz. rewrite Z.mod_small; lia.
Qed.


Lemma addClamped_nonneg (cell diff : Z) :
  0 <= cell -> Int64.in_range (cell + diff) -> addClamped cell diff = cell + diff.
Proof.
  intros Hc Hr. unfold addClamped, AtomicInt64.fetchAndAdd.
  destruct (Z.ltb_spec cell 0); [lia|]. now apply wrap_in_range.
Qed.

Lemma addClamped_negative (cell diff : Z) :
  cell < 0 -> addClamped cell diff = Z.max diff 0.
Proof.
  intros Hc. unfold addClamped, AtomicInt64.fetchAndAdd.
  destruct (Z.ltb_spec cell 0); [reflexivity|lia].
Qed.

(** ** What a computation leaves alone *)

Lemma keeps_ret {S A X} (f : S -> X) (a : A) : keeps f (ret a).
Proof. intros s. reflexivity. Qed.

Lemma keeps_get {S X} (f : S -> X) : keeps f get.
Proof. intros s. reflexivity. Qed.

Lemma keeps_throw {S A X} (f : S -> X) (e : Exception) : keeps f (@throw S A e).
Proof. intros s. reflexivity. Qed.

Lemma keeps_terminated {S A X} (f : S -> X) : keeps f (fun _ : S => @Terminated S A).
Proof. intros s. exact I. Qed.

Lemma keeps_invariant {S X} (f : S -> X) (b : bool) : keeps f (invariant b).
Proof. intros s. unfold invariant. destruct b; simpl; auto. Qed.

Lemma keeps_invariantWTOK {S X} (f : S -> X) (rc : Z) : keeps f (invariantWTOK rc).
Proof.
  intros s. unfold invariantWTOK.
  destruct (rc =? 0); simpl; auto. destruct (rc =? WT_ROLLBACK); simpl; auto.
Qed.

Lemma keeps_modify {S X} (f : S -> X) (g : S -> S) :
  (forall s, f (g s) = f s) -> keeps f (modify g).
Proof. intros Hg s. simpl. apply Hg. Qed.

Lemma keeps_put {S X} (f : S -> X) (s0 : S) :
  (forall s, f s0 = f s) -> keeps f (put s0).
Proof. intros Hg s. simpl. apply Hg. Qed.

Lemma keeps_bind {S A B X} (f : S -> X) (m : M S A) (k : A -> M S B) :
  keeps f m -> (forall a, keeps f (k a)) -> keeps f (bind m k).
Proof.
  intros Hm Hk s. unfold bind. specialize (Hm s).
  destruct (m s) as [a s'| e s'|]; auto.
  specialize (Hk a s'). destruct (k a s'); auto; congruence.
Qed.

Lemma keeps_catchWCE {S A X} (f : S -> X) (m h : M S A) :
  keeps f m -> keeps f h -> keeps f (catchWCE m h).
Proof.
  intros Hm Hh s. unfold catchWCE. specialize (Hm s).
  destruct (m s) as [a s'| e s'|]; auto.
  destruct e; auto. specialize (Hh s'). destruct (h s'); auto; congruence.
Qed.

Lemma keeps_withStones {A X} (f : State -> X) (k : OplogStones -> M State A) :
  (forall o, keeps f (k o)) -> keeps f (withStones k).
Proof.
  intros Hk s. unfold withStones.
  destruct (_oplogStones (store s)); [apply Hk|exact I].
Qed.

Lemma keeps_forEach {A X} (f : State -> X) (g : A -> M State unit) (l : list A) :
  (forall a, keeps f (g a)) -> keeps f (forEach g l).
Proof.
  intros Hg. induction l as [|a l IH]; simpl.
  - apply keeps_ret.
  - apply keeps_bind; auto.
Qed.

Ltac keeps_step :=
  lazymatch goal with
  | |- keeps _ (ret _) => apply keeps_ret
  | |- keeps _ get => apply keeps_get
  | |- keeps _ (throw _) => apply keeps_throw
  | |- keeps _ (fun _ => Terminated) => apply keeps_terminated
  | |- keeps _ (invariant _) => apply keeps_invariant
  | |- keeps _ (invariantWTOK _) => apply keeps_invariantWTOK
  | |- keeps _ (bind _ _) => apply keeps_bind; [|intros ?]
  | |- keeps _ (catchWCE _ _) => apply keeps_catchWCE
  | |- keeps _ (withStones _) => apply keeps_withStones; intros ?
  end.

(** ** What a computation ensures *)

Section Ensures.
Variable R : State -> State -> Prop.
Hypothesis R_refl : forall s, R s s.
Hypothesis R_trans : forall s1 s2 s3, R s1 s2 -> R s2 s3 -> R s1 s3.

Lemma ensures_ret {A} (a : A) : ensures R (ret a).
Proof. intros s. apply R_refl. Qed.

Lemma ensures_get : ensures R get.
Proof. intros s. apply R_refl. Qed.

Lemma ensures_throw {A} (e : Exception) : ensures R (@throw State A e).
Proof. intros s. apply R_refl. Qed.

Lemma ensures_terminated {A} : ensures R (fun _ : State => @Terminated State A).
Proof. intros s. exact I. Qed.

Lemma ensures_modify (g : State -> State) :
  (forall s, R s (g s)) -> ensures R (modify g).
Proof. intros Hg s. apply Hg. Qed.

Lemma ensures_bind {A B} (m : M State A) (k : A -> M State B) :
  ensures R m -> (forall a, ensures R (k a)) -> ensures R (bind m k).
Proof.
  intros Hm Hk s. unfold bind. specialize (Hm s).
  destruct (m s) as [a s'| e s'|]; auto.
  specialize (Hk a s'). destruct (k a s'); eauto.
Qed.

(** what follows an [invariantWTOK] runs only when the code was 0 *)
Lemma ensures_invariantWTOK {B} (rc : Z) (k : M State B) :
  (rc = 0 -> ensures R k) -> ensures R (invariantWTOK rc ;;; k).
Proof.
  intros Hk s. unfold bind, invariantWTOK.
  destruct (Z.eqb_spec rc 0) as [Hz|].
  - apply (Hk Hz).
  - destruct (rc =? WT_ROLLBACK); [apply R_refl|exact I].
Qed.

Lemma ensures_forEach {A} (g : A -> M State unit) (l : list A) :
  (forall a, ensures R (g a)) -> ensures R (forEach g l).
Proof.
  intros Hg. induction l as [|a l IH]; simpl.
  - apply ensures_ret.
  - apply ensures_bind; auto.
Qed.

Lemma ensures_withStones {A} (k : OplogStones -> M State A) :
  (forall o, ensures R (k o)) -> ensures R (withStones k).
Proof.
  intros Hk s. unfold withStones.
  destruct (_oplogStones (store s)); [apply Hk|exact I].
Qed.

End Ensures.

(** ** C10 *)

(** C10. On a capped store, a batch whose records' total length exceeds
    [_cappedMaxSize] makes [insertRecords] return [BadValue] at once: no
    record has been given an id, nothing has been written or registered, and
    the store with its counters is as it was. *)
Theorem insertRecords_exceeds_cappedMaxSize
  (env : Env) (insert_rc : RecordId -> Z) (records : list Rec.t) (s : State) :
  _isCapped (store s) = true ->
  totalLength records > _cappedMaxSize (store s) ->
  insertRecords env insert_rc records s = Returned (Error BadValue, records) s.
Proof.
  intros Hcap Hlen.
  unfold insertRecords, _insertRecords. unfold_monad.
  rewrite Hcap. simpl.
  destruct (Z.gtb_spec (totalLength records) (_cappedMaxSize (store s))); [reflexivity|lia].
Qed.

(** ** C4 *)

Lemma WiredTigerRecordStore_new_slack (params : Params) (t : WT.Table)
  (r : WiredTigerRecordStore) :
  WiredTigerRecordStore_new params t = Some r ->
  isCapped params = true ->
  _cappedMaxSizeSlack r = Z.min (cappedMaxSize params / 10) (16 * 1024 * 1024)
  /\ _cappedMaxSize r = cappedMaxSize params.
Proof.
  unfold WiredTigerRecordStore_new. intros Hnew Hcap. rewrite Hcap in Hnew.
  destruct (Z.gtb_spec (cappedMaxSize params) 0) as [Hpos|]; simpl in Hnew;
    [|discriminate].
  destruct ((cappedMaxDocs params =? -1) || (cappedMaxDocs params >? 0));
    [|discriminate].
  injection Hnew as <-. simpl. split; [|reflexivity].
  rewrite Z.quot_div_nonneg by lia. reflexivity.
Qed.

(** C4. In [cappedDeleteAsNeeded] on a store without a document cap
    ([_cappedMaxDocs == -1]), a thread that loses the [try_lock]
    - returns 0 and leaves everything as it was when
      [dataSize() - _cappedMaxSize] is below the slack, which the
      constructor sets to [min(cappedMaxSize / 10, 16MB)];
    - otherwise asks for the lock with a timeout of 200 ms, and returns 0
      without deleting when it does not get it;
    - and when it gets it, still returns 0 without deleting unless the
      overage is at least twice the slack, in which case it goes on to
      [cappedDeleteAsNeeded_inlock]. *)
Theorem cappedDeleteAsNeeded_backpressure
  (env : Env) (justInserted : RecordId) (s : State) :
  _oplogStones (store s) = None ->
  _cappedMaxDocs (store s) = -1 ->
  cappedDeleterMutex_try_lock env = false ->
  let overage := dataSize (store s) - _cappedMaxSize (store s) in
  let slack := _cappedMaxSizeSlack (store s) in
  let waited (s' : State) :=
    table (store s') = table (store s)
    /\ numRecords (store s') = numRecords (store s)
    /\ dataSize (store s') = dataSize (store s)
    /\ recoveryUnit s' = recoveryUnit s in
  (forall params t r,
      WiredTigerRecordStore_new params t = Some r -> isCapped params = true ->
      _cappedMaxSizeSlack r = Z.min (cappedMaxSize params / 10) (16 * 1024 * 1024))
  /\ (overage < slack ->
      cappedDeleteAsNeeded env justInserted s = Returned 0 s)
  /\ (slack <= overage ->
      cappedDeleterMutex_try_lock_for env 200 = false ->
      exists s', cappedDeleteAsNeeded env justInserted s = Returned 0 s'
                 /\ waited s')
  /\ (slack <= overage ->
      cappedDeleterMutex_try_lock_for env 200 = true ->
      overage < 2 * slack ->
      exists s', cappedDeleteAsNeeded env justInserted s = Returned 0 s'
                 /\ waited s')
  /\ (cappedAndNeedDelete (store s) = true ->
      slack <= overage ->
      cappedDeleterMutex_try_lock_for env 200 = true ->
      2 * slack <= overage ->
      cappedDeleteAsNeeded env justInserted s
      = cappedDeleteAsNeeded_inlock env justInserted
          (on_store (fun r =>
             set_cappedSleepMS
               (snd (AtomicInt64.fetchAndAdd (_cappedSleepMS r)
                                             (cappedDeleter_delay env))) r)
             (on_store (fun r =>
                set_cappedSleep (snd (AtomicInt64.fetchAndAdd (_cappedSleep r) 1)) r)
                s))).
Proof.
  intros Hst Hdocs Hlock overage slack waited.
  split; [|split; [|split; [|split]]].
  - intros params t r Hnew Hcap.
    now destruct (WiredTigerRecordStore_new_slack _ _ Hnew Hcap).
  - intros Hlt. unfold cappedDeleteAsNeeded. unfold_monad.
    rewrite Hst, Hdocs, Hlock. simpl.
    destruct (cappedAndNeedDelete (store s)); simpl; [|reflexivity].
    unfold overage, slack, dataSize in Hlt.
    destruct (Z.ltb_spec (AtomicInt64.load (_dataSize (store s)) - _cappedMaxSize (store s))
                (_cappedMaxSizeSlack (store s))); [reflexivity|lia].
  - intros Hge Hfor. unfold cappedDeleteAsNeeded. unfold_monad.
    rewrite Hst, Hdocs, Hlock. simpl.
    destruct (cappedAndNeedDelete (store s)); simpl.
    + unfold overage, slack, dataSize in Hge.
      destruct (Z.ltb_spec (AtomicInt64.load (_dataSize (store s)) - _cappedMaxSize (store s))
                  (_cappedMaxSizeSlack (store s))); [lia|].
      rewrite Hfor. simpl. eexists. split; [reflexivity|].
      unfold waited. simpl. auto.
    + eexists. split; [reflexivity|]. unfold waited. auto.
  - intros Hge Hfor Hlt. unfold cappedDeleteAsNeeded. unfold_monad.
    rewrite Hst, Hdocs, Hlock. simpl.
    destruct (cappedAndNeedDelete (store s)); simpl.
    + unfold overage, slack, dataSize in Hge, Hlt.
      destruct (Z.ltb_spec (AtomicInt64.load (_dataSize (store s)) - _cappedMaxSize (store s))
                  (_cappedMaxSizeSlack (store s))); [lia|].
      rewrite Hfor. simpl.
      destruct (Z.ltb_spec (AtomicInt64.load (_dataSize (store s)) - _cappedMaxSize (store s))
                  (2 * _cappedMaxSizeSlack (store s))); [|lia].
      eexists. split; [reflexivity|]. unfold waited. simpl. auto.
    + eexists. split; [reflexivity|]. unfold waited. auto.
  - intros Hneed Hge Hfor Hge2. unfold cappedDeleteAsNeeded. unfold_monad.
    rewrite Hst, Hdocs, Hlock, Hneed. simpl.
    unfold overage, slack, dataSize in Hge, Hge2.
    destruct (Z.ltb_spec (AtomicInt64.load (_dataSize (store s)) - _cappedMaxSize (store s))
                (_cappedMaxSizeSlack (store s))); [lia|].
    rewrite Hfor. simpl.
    destruct (Z.ltb_spec (AtomicInt64.load (_dataSize (store s)) - _cappedMaxSize (store s))
                (2 * _cappedMaxSizeSlack (store s))); [lia|].
    reflexivity.
Qed.

(** ** C7 *)





Lemma toUInt64_nonneg (z : Z) : 0 <= z -> Int64.in_range z -> toUInt64 z = z.
Proof.
  unfold toUInt64, Int64.in_range, Int64.min_value, Int64.max_value.
  intros. apply Z.mod_small. lia.
Qed.

Lemma clampedCount_range (maxSize : Z) : 10 <= clampedCount maxSize <= 100.
Proof. unfold clampedCount. lia. Qed.



(** ** C6 *)

(** C6, as the code has it.  When the commit hook of an insert batch runs
    on a log store, the open segment's record and byte totals grow by the
    batch's counts.  If the byte total then reaches [_minBytesPerStone], the
    open segment is closed into a new stone, whose last record is the
    highest id of the batch and whose counts are the grown totals, provided
    the try-lock on the stones' mutex is won and that id is not below the
    newest stone's last record; when the lock is lost or the id is below,
    the grown open segment stays as it is, for a later insert to close. *)
Theorem insertCommit_open_segment
  (env : Env) (bytesInserted : Z) (highestInserted : RecordId)
  (countInserted : Z) (s : State) (o : OplogStones) :
  _oplogStones (store s) = Some o ->
  0 <= bytesInserted ->
  isNormal highestInserted = true ->
  Int64.in_range (_currentRecords o + countInserted) ->
  Int64.in_range (_currentBytes o + bytesInserted) ->
  let records' := _currentRecords o + countInserted in
  let bytes' := _currentBytes o + bytesInserted in
  let grown := set_currentBytes bytes' (set_currentRecords records' o) in
  let closed :=
    set_stones (_stones o ++ [Stone.mk records' bytes' highestInserted])
               (set_currentRecords 0 (set_currentBytes 0 grown)) in
  exists o',
    InsertChange_commit env bytesInserted highestInserted countInserted s
    = Returned tt (on_store (set_oplogStones (Some o')) s)
    /\ (bytes' < _minBytesPerStone o -> o' = grown)
    /\ (_minBytesPerStone o <= bytes' ->
        stonesMutex_try_lock env = true ->
        (forall back, newestStone o = Some back ->
                      Stone.lastRecord back <= highestInserted) ->
        o' = closed)
    /\ (_minBytesPerStone o <= bytes' ->
        stonesMutex_try_lock env = false -> o' = grown)
    /\ (_minBytesPerStone o <= bytes' ->
        forall back, newestStone o = Some back ->
                     highestInserted < Stone.lastRecord back -> o' = grown).
Proof.
  intros Ho Hb Hn Hr1 Hr2 records' bytes' grown closed.
  unfold InsertChange_commit, withStones, putStones. unfold_monad.
  destruct (Z.geb_spec bytesInserted 0); [|lia]. rewrite Hn, Ho.
  unfold AtomicInt64.addAndFetch.
  rewrite (wrap_in_range Hr1), (wrap_in_range Hr2).
  fold records' bytes'. fold grown.
  change (_minBytesPerStone grown) with (_minBytesPerStone o).
  destruct (Z.geb_spec bytes' (_minBytesPerStone o)) as [Hge|Hlt].
  - unfold createNewStoneIfNeeded.
    change (AtomicInt64.load (_currentBytes grown)) with bytes'.
    change (_minBytesPerStone grown) with (_minBytesPerStone o).
    change (_stones grown) with (_stones o).
    destruct (stonesMutex_try_lock env) eqn:Hlock; simpl.
    + destruct (Z.ltb_spec bytes' (_minBytesPerStone o)); [lia|].
      unfold newestStone.
      destruct (rev (_stones o)) as [|back l] eqn:Hrev; simpl.
      * eexists. split; [reflexivity|].
        split; [intros; lia|]. split; [reflexivity|].
        split; [discriminate|]. intros _ back Hback. discriminate.
      * destruct (Z.ltb_spec highestInserted (Stone.lastRecord back)) as [Hlt|Hle].
        -- eexists. split; [reflexivity|].
           split; [intros; lia|]. split.
           { intros _ _ Hback. specialize (Hback back eq_refl). lia. }
           split; [discriminate|]. reflexivity.
        -- eexists. split; [reflexivity|].
           split; [intros; lia|]. split; [reflexivity|].
           split; [discriminate|].
           intros _ back' Hback Hlt. injection Hback as <-. lia.
    + eexists. split; [reflexivity|].
      split; [intros; lia|]. split; [discriminate|].
      split; reflexivity.
  - eexists. split; [reflexivity|].
    split; [reflexivity|]. split; [intros; lia|].
    split; intros; lia.
Qed.

(** ** C1 *)

(** C1, as the code has it.  On a log store whose counters are not
    negative, with no unit of work in progress, a turn of [reclaimOplog]
    whose truncate succeeds removes the rows from [firstRecord] through the
    stone's last record, lowers [numRecords()] by exactly the stone's record
    count and [dataSize()] by exactly its byte count (64-bit overflow
    apart), pops the stone off the front of the deque, so that it is not
    there to be reclaimed again, and moves [firstRecord] to the stone's last
    record. *)
Theorem reclaimOplog_body_counters
  (env : Env) (stone : Stone.t) (s : State) (o : OplogStones) :
  _oplogStones (store s) = Some o ->
  peekOldestStoneIfNeeded (store s) o = Some stone ->
  recoveryUnit s = emptyRU ->
  isNormal (Stone.lastRecord stone) = true ->
  truncate_rc env = 0 ->
  0 <= numRecords (store s) ->
  0 <= dataSize (store s) ->
  Int64.in_range (numRecords (store s) - Stone.records stone) ->
  Int64.in_range (dataSize (store s) - Stone.bytes stone) ->
  exists s' o',
    reclaimOplog_body env stone s = Returned tt s'
    /\ _oplogStones (store s') = Some o'
    /\ numRecords (store s') = numRecords (store s) - Stone.records stone
    /\ dataSize (store s') = dataSize (store s) - Stone.bytes stone
    /\ stone :: _stones o' = _stones o
    /\ firstRecord o' = Stone.lastRecord stone
    /\ table (store s')
       = WT.truncate (Some (firstRecord o)) (Some (Stone.lastRecord stone))
                     (table (store s)).
Proof.
  intros Ho Hpeek Hru Hn Hrc Hnr Hds Hr1 Hr2.
  unfold numRecords, dataSize, AtomicInt64.load in *.
  destruct s as [r ru]. simpl in *. subst ru.
  unfold reclaimOplog_body, inWriteUnitOfWork, withStones, putStones,
    commitUnitOfWork, _changeNumRecords, _increaseDataSize.
  unfold_monad. rewrite Hn. simpl. rewrite Ho, Hrc. simpl.
  rewrite <- !Z.add_opp_r in *.
  rewrite !addClamped_nonneg by assumption.
  rewrite Ho. simpl.
  do 2 eexists. split; [reflexivity|]. simpl.
  split; [reflexivity|]. simpl.
  repeat split; try reflexivity.
  unfold peekOldestStoneIfNeeded in Hpeek.
  destruct (hasExcessStones_inlock r o); simpl in Hpeek; [|discriminate].
  destruct (_stones o); simpl in *; [discriminate|]. now injection Hpeek as ->.
Qed.

(** ** C3 *)


(** ** C8 *)









(** ** The ordered table *)

Lemma find_app {A} (p : A -> bool) (l1 l2 : list A) :
  find p (l1 ++ l2)
  = match find p l1 with Some x => Some x | None => find p l2 end.
Proof.
  induction l1 as [|x l1 IH]; simpl; [reflexivity|].
  destruct (p x); auto.
Qed.

Lemma find_ext_in {A} (p q : A -> bool) (l : list A) :
  (forall x, In x l -> p x = q x) -> find p l = find q l.
Proof.
  induction l as [|x l IH]; intros Hpq; simpl; [reflexivity|].
  rewrite (Hpq x) by (left; reflexivity).
  destruct (q x); [reflexivity|]. apply IH. intros y Hy. apply Hpq. now right.
Qed.

Lemma ordered_inv (row : RecordId * RecordData) (t : WT.Table) :
  ordered (row :: t) ->
  ordered t /\ forall k, In k (WT.keys t) -> fst row < k.
Proof.
  unfold ordered. simpl. intros Hs. apply StronglySorted_inv in Hs.
  destruct Hs as [Hs Hall]. split; [assumption|].
  now apply Forall_forall.
Qed.

Lemma in_keys (k : RecordId) (v : RecordData) (t : WT.Table) :
  In (k, v) t -> In k (WT.keys t).
Proof. intros Hin. unfold WT.keys. now apply (in_map fst t (k, v)). Qed.

Lemma search_none (k : RecordId) (t : WT.Table) :
  WT.search k t = None -> ~ In k (WT.keys t).
Proof.
  induction t as [|[k' v] t IH]; simpl; [auto|].
  destruct (Z.eqb_spec k' k); [discriminate|].
  intros Hs [Heq|Hin]; [contradiction|]. now apply IH.
Qed.

Lemma search_in (k : RecordId) (v : RecordData) (t : WT.Table) :
  ordered t -> In (k, v) t -> WT.search k t = Some v.
Proof.
  induction t as [|[k' v'] t IH]; intros Ho Hin; simpl; [contradiction|].
  apply ordered_inv in Ho. destruct Ho as [Ho Hlt]. simpl in Hlt.
  destruct Hin as [Heq|Hin].
  - injection Heq as -> ->. now rewrite Z.eqb_refl.
  - destruct (Z.eqb_spec k' k) as [->|].
    + specialize (Hlt k (in_keys _ _ _ Hin)). lia.
    + now apply IH.
Qed.

Lemma above_least (k a : RecordId) (v : RecordData) (t : WT.Table) :
  ordered t -> WT.above k t = Some (a, v) ->
  In (a, v) t /\ k < a /\ forall k', In k' (WT.keys t) -> k < k' -> a <= k'.
Proof.
  unfold WT.above.
  induction t as [|[k0 v0] t IH]; intros Ho Hf; simpl in *; [discriminate|].
  apply ordered_inv in Ho. destruct Ho as [Ho Hlt]. simpl in Hlt.
  destruct (k <? k0) eqn:E.
  - apply Z.ltb_lt in E.
    injection Hf as -> ->. split; [left; reflexivity|]. split; [assumption|].
    intros k' [<-|Hin] _; [lia|]. specialize (Hlt k' Hin). lia.
  - apply Z.ltb_ge in E.
    destruct (IH Ho Hf) as (Hin & Hka & Hleast).
    split; [right; assumption|]. split; [assumption|].
    intros k' [<-|Hin'] Hk'; [lia|]. now apply Hleast.
Qed.

Lemma above_none (k : RecordId) (t : WT.Table) :
  WT.above k t = None -> forall k', In k' (WT.keys t) -> k' <= k.
Proof.
  unfold WT.above, WT.keys. intros Hf k' Hin.
  apply in_map_iff in Hin. destruct Hin as (row & <- & Hin).
  pose proof (find_none _ _ Hf row Hin) as Hp. simpl in Hp.
  now apply Z.ltb_ge in Hp.
Qed.

Lemma below_cons (k : RecordId) (row : RecordId * RecordData) (t : WT.Table) :
  WT.below k (row :: t)
  = match WT.below k t with
    | Some x => Some x
    | None => if fst row <? k then Some row else None
    end.
Proof. unfold WT.below. simpl. rewrite find_app. reflexivity. Qed.

Lemma below_none (k : RecordId) (t : WT.Table) :
  WT.below k t = None -> forall k', In k' (WT.keys t) -> k <= k'.
Proof.
  unfold WT.below, WT.keys. intros Hf k' Hin.
  apply in_map_iff in Hin. destruct Hin as (row & <- & Hin).
  apply in_rev in Hin.
  pose proof (find_none _ _ Hf row Hin) as Hp. simpl in Hp.
  now apply Z.ltb_ge in Hp.
Qed.

Lemma below_greatest (k b : RecordId) (v : RecordData) (t : WT.Table) :
  ordered t -> WT.below k t = Some (b, v) ->
  In (b, v) t /\ b < k /\ forall k', In k' (WT.keys t) -> k' < k -> k' <= b.
Proof.
  induction t as [|[k0 v0] t IH]; intros Ho Hf; [discriminate|].
  rewrite below_cons in Hf.
  apply ordered_inv in Ho. destruct Ho as [Ho Hlt]. simpl in Hlt.
  destruct (WT.below k t) as [x|] eqn:Hb.
  - injection Hf as ->. destruct (IH Ho eq_refl) as (Hin & Hbk & Hgreatest).
    split; [right; assumption|]. split; [assumption|].
    intros k' [<-|Hin'] Hk'.
    + specialize (Hlt b (in_keys _ _ _ Hin)). simpl. lia.
    + now apply Hgreatest.
  - simpl in Hf. destruct (k0 <? k) eqn:E; [|discriminate].
    apply Z.ltb_lt in E.
    injection Hf as -> ->. split; [left; reflexivity|]. split; [assumption|].
    intros k' [<-|Hin'] Hk'; [simpl; lia|].
    pose proof (below_none _ _ Hb k' Hin'). lia.
Qed.


Lemma below_skips_gap (k a : RecordId) (t : WT.Table) :
  ~ In k (WT.keys t) -> k < a ->
  (forall k', In k' (WT.keys t) -> k < k' -> a <= k') ->
  WT.below a t = WT.below k t.
Proof.
  intros Hnotin Hka Hleast. unfold WT.below. apply find_ext_in.
  intros [k' v'] Hin. simpl. apply in_rev in Hin.
  pose proof (in_keys _ _ _ Hin) as Hk'.
  destruct (Z.ltb_spec k' a), (Z.ltb_spec k' k); try reflexivity; try lia.
  destruct (Z.eq_dec k' k) as [->|]; [contradiction|].
  specialize (Hleast k' Hk'). lia.
Qed.

(** ** C9 *)



(** [next()] of a cursor that has to advance from the row it is on *)
Lemma next_from_row (t : WT.Table) (c : RecordCursor) (b : RecordId) :
  _eof c = false -> _cursor c = Some (Some b) -> _skipNextAdvance c = false ->
  match (if _forward c then WT.above b t else WT.below b t) with
  | Some (a, v) =>
      WT.search a t = Some v ->
      (_forward c = true -> _lastReturnedId c < a) ->
      next t c
      = Returned (Some (Rec.mk a v))
                 (mkCursor (_forward c) false false a (Some (Some a)))
  | None =>
      next t c
      = Returned None (mkCursor (_forward c) true false (_lastReturnedId c) (Some None))
  end.
Proof.
  intros He Hc Hs. unfold next. unfold_monad.
  rewrite He, Hc, Hs. simpl. unfold WT.next, WT.prev.
  destruct (_forward c) eqn:Hf.
  - destruct (WT.above b t) as [[a v]|].
    + intros Hv Hlt.
      change (0 =? WT_NOTFOUND) with false. cbv iota.
      change (0 =? 0) with true. cbv iota. simpl.
      destruct (Z.geb_spec (_lastReturnedId c) a); [specialize (Hlt eq_refl); lia|].
      now rewrite Hv.
    + reflexivity.
  - destruct (WT.below b t) as [[a v]|].
    + intros Hv Hlt.
      change (0 =? WT_NOTFOUND) with false. cbv iota.
      change (0 =? 0) with true. cbv iota. simpl.
      now rewrite Hv.
    + reflexivity.
Qed.


(** ** C5 *)

Lemma filter_length_mono {A} (p q : A -> bool) (l : list A) :
  (forall x, In x l -> p x = true -> q x = true) ->
  (length (filter p l) <= length (filter q l))%nat.
Proof.
  induction l as [|x l IH]; intros Hpq; simpl; [auto|].
  assert (IH' : (length (filter p l) <= length (filter q l))%nat).
  { apply IH. intros y Hy. apply Hpq. right; assumption. }
  destruct (p x) eqn:Hp.
  - rewrite (Hpq x (or_introl eq_refl) Hp). simpl. lia.
  - destruct (q x); simpl; lia.
Qed.

Lemma filter_length_lt {A} (p q : A -> bool) (l : list A) (x : A) :
  In x l -> p x = false -> q x = true ->
  (forall y, In y l -> p y = true -> q y = true) ->
  (length (filter p l) < length (filter q l))%nat.
Proof.
  induction l as [|y l IH]; intros Hin Hp Hq Hpq; simpl; [contradiction|].
  assert (Hle : (length (filter p l) <= length (filter q l))%nat).
  { apply filter_length_mono. intros z Hz. apply Hpq. right; assumption. }
  destruct Hin as [->|Hin].
  - rewrite Hp, Hq. simpl. lia.
  - assert (IH' : (length (filter p l) < length (filter q l))%nat).
    { apply IH; auto. intros z Hz. apply Hpq. right; assumption. }
    destruct (p y) eqn:Hpy.
    + rewrite (Hpq y (or_introl eq_refl) Hpy). simpl. lia.
    + destruct (q y); simpl; lia.
Qed.

(** where [WT.next] takes a cursor *)
Lemma next_cases (c : WT.Cursor) (t : WT.Table) :
  (exists k v, WT.next c t = (0, Some k) /\ In (k, v) t
               /\ match c with
                  | Some k0 => WT.above k0 t = Some (k, v)
                  | None => hd_error t = Some (k, v)
                  end)
  \/ (WT.next c t = (WT_NOTFOUND, None)
      /\ match c with
         | Some k0 => WT.above k0 t = None
         | None => t = []
         end).
Proof.
  unfold WT.next. destruct c as [k0|].
  - destruct (WT.above k0 t) as [[k v]|] eqn:Ha.
    + left. exists k, v. split; [reflexivity|]. split; [|reflexivity].
      unfold WT.above in Ha. now apply find_some in Ha.
    + right. auto.
  - destruct t as [|[k v] t]; simpl.
    + right. auto.
    + left. exists k, v. split; [reflexivity|]. split; [left|]; reflexivity.
Qed.

Section Walk.
Variable r : WiredTigerRecordStore.
Variables justInserted sizeOverCap docsOverCap : Z.

(** the loop's condition, spelled out *)
Lemma walkCondition_cases (w : Walk) :
  let target :=
    ((sizeSaved w <? sizeOverCap) || (docsRemoved w <? docsOverCap))
    && (docsRemoved w <? 20000) in
  (target = false /\ walkCondition r sizeOverCap docsOverCap w = (false, w))
  \/ (target = true /\ positioned w = true
      /\ walkCondition r sizeOverCap docsOverCap w = (true, w))
  \/ (target = true /\ positioned w = false
      /\ walkCondition r sizeOverCap docsOverCap w
         = (fst (WT.next (truncateEnd w) (table r)) =? 0,
            mkWalk (fst (WT.next (truncateEnd w) (table r)))
                   (snd (WT.next (truncateEnd w) (table r)))
                   false (newestIdToDelete w) (docsRemoved w) (sizeSaved w))).
Proof.
  intros target. unfold walkCondition. fold target.
  destruct target; [|left; auto]. right.
  destruct (positioned w) eqn:Hp; [left; auto|right].
  split; [reflexivity|]. split; [reflexivity|].
  destruct (WT.next (truncateEnd w) (table r)). reflexivity.
Qed.

Lemma walk_stops_target (fuel : nat) (w : Walk) :
  sizeOverCap <= sizeSaved w -> docsOverCap <= docsRemoved w ->
  walk (S fuel) r justInserted sizeOverCap docsOverCap w = Some (Stopped w).
Proof.
  intros Hs Hd. simpl. unfold walkCondition.
  destruct (Z.ltb_spec (sizeSaved w) sizeOverCap); [lia|].
  destruct (Z.ltb_spec (docsRemoved w) docsOverCap); [lia|]. reflexivity.
Qed.

Lemma walk_stops_cap (fuel : nat) (w : Walk) :
  20000 <= docsRemoved w ->
  walk (S fuel) r justInserted sizeOverCap docsOverCap w = Some (Stopped w).
Proof.
  intros Hd. simpl. unfold walkCondition.
  destruct (Z.ltb_spec (docsRemoved w) 20000); [lia|].
  rewrite andb_false_r. reflexivity.
Qed.

Lemma walk_stops_justInserted (fuel : nat) (w w' : Walk) :
  walkCondition r sizeOverCap docsOverCap w = (true, w') ->
  justInserted <= getKey (truncateEnd w') ->
  exists w'',
    walk (S fuel) r justInserted sizeOverCap docsOverCap w = Some (Stopped w'')
    /\ docsRemoved w'' = docsRemoved w /\ sizeSaved w'' = sizeSaved w.
Proof.
  intros Hc Hk. simpl. rewrite Hc. unfold walkBody.
  destruct (Z.geb_spec (getKey (truncateEnd w')) justInserted); [|lia].
  eexists. split; [reflexivity|]. simpl.
  destruct (walkCondition_cases w) as [(_ & Hw)|[(_ & _ & Hw)|(_ & _ & Hw)]];
    rewrite Hw in Hc; inversion Hc; subst; simpl; auto.
Qed.

(** the walk needs no more turns than its measure *)
Lemma walk_fuel (fuel : nat) (w : Walk) :
  (walkMeasure (table r) w < fuel)%nat ->
  walk fuel r justInserted sizeOverCap docsOverCap w <> None.
Proof.
  revert w. induction fuel as [|fuel IH]; intros w Hm; [lia|].
  simpl.
  destruct (walkCondition_cases w) as [(_ & Hw)|[(_ & Hp & Hw)|(_ & Hp & Hw)]];
    rewrite Hw; clear Hw.
  - discriminate.
  - unfold walkBody.
    destruct (getKey (truncateEnd w) >=? justInserted); [discriminate|].
    destruct (truncateEnd w) as [k|] eqn:Hc; simpl; [|discriminate].
    destruct (WT.search k (table r)); [|discriminate].
    destruct (_shuttingDown r); [discriminate|].
    assert (Hgo : forall ds ss,
               walk fuel r justInserted sizeOverCap docsOverCap
                    (mkWalk (ret_ w) (Some k) false k ds ss) <> None).
    { intros ds ss. apply IH. unfold walkMeasure in *. rewrite Hp, Hc in Hm.
      simpl in *. lia. }
    destruct (_cappedCallback r) as [f|]; [|apply Hgo].
    destruct (f k _); [apply Hgo|discriminate].
  - destruct (next_cases (truncateEnd w) (table r))
      as [(k & v & Hn & Hin & Hfrom)|(Hn & _)]; rewrite Hn; simpl.
    2:{ change (WT_NOTFOUND =? 0) with false. discriminate. }
    change (0 =? 0) with true. cbv iota. unfold walkBody. simpl.
    destruct (k >=? justInserted); [discriminate|].
    destruct (WT.search k (table r)); [|discriminate].
    destruct (_shuttingDown r); [discriminate|].
    assert (Hgo : forall ds ss,
               walk fuel r justInserted sizeOverCap docsOverCap
                    (mkWalk 0 (Some k) false k ds ss) <> None).
    { intros ds ss. apply IH. unfold walkMeasure in *. rewrite Hp in Hm.
      simpl in *.
      assert (lt (length (filter (fun kv => k <? fst kv) (table r)))
                 (length (filter (fun kv => match truncateEnd w with
                                            | Some k0 => k0 <? fst kv
                                            | None => true
                                            end) (table r)))); [|lia].
      apply filter_length_lt with (x := (k, v)); auto.
      - simpl. apply Z.ltb_irrefl.
      - destruct (truncateEnd w) as [k0|]; [|reflexivity].
        unfold WT.above in Hfrom. apply find_some in Hfrom. apply Hfrom.
      - intros [k' v'] _ Hk'. simpl in *.
        destruct (truncateEnd w) as [k0|]; [|reflexivity].
        unfold WT.above in Hfrom. apply find_some in Hfrom.
        destruct Hfrom as [_ Hfrom]. simpl in Hfrom.
        apply Z.ltb_lt in Hfrom, Hk'. apply Z.ltb_lt. lia. }
    destruct (_cappedCallback r) as [f|]; [|apply Hgo].
    destruct (f k _); [apply Hgo|discriminate].
Qed.

(** what the walk's locals are like when the loop is left *)
Lemma walk_end (fuel : nat) (w w' : Walk) :
  ordered (table r) ->
  walkInv justInserted (table r) w ->
  walk fuel r justInserted sizeOverCap docsOverCap w = Some (Stopped w') ->
  walkEnd justInserted (table r) w'.
Proof.
  intros Hord. revert w.
  induction fuel as [|fuel IH]; intros w (Hnn & Hpos & Hcnt) Hw; [discriminate|].
  simpl in Hw.
  assert (Hcounted : forall k v rc,
             (rc = 0) -> k < justInserted ->
             match (if _shuttingDown r
                    then Break (mkWalk rc (Some k) false k (docsRemoved w + 1)
                                       (sizeSaved w + size v))
                    else match _cappedCallback r with
                         | Some f =>
                             match f k v with
                             | OK => Continue (mkWalk rc (Some k) false k
                                                 (docsRemoved w + 1) (sizeSaved w + size v))
                             | Error _ => Raise (AssertionException 0)
                             end
                         | None => Continue (mkWalk rc (Some k) false k
                                               (docsRemoved w + 1) (sizeSaved w + size v))
                         end)
             with
             | Continue w'' => walk fuel r justInserted sizeOverCap docsOverCap w''
             | Break w'' => Some (Stopped w'')
             | Raise e => Some (Raised e)
             | Die => Some Died
             end = Some (Stopped w') ->
             walkEnd justInserted (table r) w').
  { intros k v rc Hrc Hk Hstep.
    assert (Hinv2 : walkInv justInserted (table r)
                      (mkWalk rc (Some k) false k (docsRemoved w + 1)
                              (sizeSaved w + size v))).
    { split; [simpl; lia|]. split; [discriminate|]. simpl. auto. }
    destruct (_shuttingDown r).
    - injection Hstep as <-. intros _. left. simpl. auto.
    - destruct (_cappedCallback r) as [f|].
      + destruct (f k v); [|discriminate]. eapply IH; eassumption.
      + eapply IH; eassumption. }
  destruct (walkCondition_cases w) as [(_ & Hc)|[(_ & Hp & Hc)|(_ & Hp & Hc)]];
    rewrite Hc in Hw; clear Hc.
  - injection Hw as <-. intros Hd. left. destruct (Hcnt Hd) as (_ & ? & ? & ?). auto.
  - destruct (Hpos Hp) as (Hd0 & Hr0 & k & Hk & _).
    unfold walkBody in Hw. rewrite Hk in Hw. simpl in Hw.
    destruct (Z.geb_spec k justInserted).
    + injection Hw as <-. intros Hd. simpl in Hd. lia.
    + destruct (WT.search k (table r)) as [v|]; [|discriminate].
      apply (Hcounted k v (ret_ w) Hr0); [lia|exact Hw].
  - destruct (next_cases (truncateEnd w) (table r))
      as [(k & v & Hn & Hin & Hfrom)|(Hn & Hfrom)]; rewrite Hn in Hw; simpl in Hw.
    + change (0 =? 0) with true in Hw. cbv iota in Hw.
      unfold walkBody in Hw. simpl in Hw.
      destruct (Z.geb_spec k justInserted).
      * injection Hw as <-. intros Hd. simpl in Hd.
        destruct (Hcnt Hd) as (_ & _ & Hte & Hlt).
        right. right. simpl. split; [reflexivity|]. split; [reflexivity|].
        split; [lia|]. exists (newestIdToDelete w). split; [assumption|].
        rewrite Hte in Hfrom.
        apply (@above_least _ _ _ _ Hord Hfrom).
      * destruct (WT.search k (table r)) as [v'|]; [|discriminate].
        apply (Hcounted k v' 0 eq_refl); [lia|exact Hw].
    + change (WT_NOTFOUND =? 0) with false in Hw. cbv iota in Hw.
      injection Hw as <-. intros Hd. simpl in Hd.
      destruct (Hcnt Hd) as (_ & _ & Hte & Hlt).
      right. left. simpl. split; [reflexivity|]. split; [reflexivity|].
      rewrite Hte in Hfrom. intros k Hk.
      pose proof (@above_none _ _ Hfrom k Hk). lia.
Qed.

End Walk.

Lemma prev_cases (c : WT.Cursor) (t : WT.Table) :
  (exists k v, WT.prev c t = (0, Some k) /\ In (k, v) t
               /\ match c with
                  | Some k0 => WT.below k0 t = Some (k, v)
                  | None => True
                  end)
  \/ WT.prev c t = (WT_NOTFOUND, None).
Proof.
  unfold WT.prev. destruct c as [k0|].
  - destruct (WT.below k0 t) as [[k v]|] eqn:Hb.
    + left. exists k, v. split; [reflexivity|]. split; [|reflexivity].
      unfold WT.below in Hb. apply find_some in Hb. apply in_rev. apply Hb.
    + right. reflexivity.
  - destruct (rev t) as [|[k v] l] eqn:Hr; simpl.
    + right. reflexivity.
    + left. exists k, v. split; [reflexivity|]. split; [|exact I].
      apply in_rev. rewrite Hr. left. reflexivity.
Qed.

(** the row before the first row after a key below [justInserted] is
    below [justInserted] *)
Lemma below_first_above (justInserted p k b : RecordId) (v : RecordData)
  (t : WT.Table) :
  p < justInserted ->
  (forall k', In k' (WT.keys t) -> p < k' -> k <= k') ->
  WT.below k t = Some (b, v) ->
  b < justInserted.
Proof.
  intros Hp Hleast Hb. unfold WT.below in Hb. apply find_some in Hb.
  destruct Hb as [Hin Hlt]. simpl in Hlt. apply Z.ltb_lt in Hlt.
  apply in_rev in Hin. apply in_keys in Hin.
  destruct (Z.lt_ge_cases b justInserted) as [|Hge]; [assumption|].
  specialize (Hleast b Hin). lia.
Qed.

(** "go back one": the cursor ends on a key below [justInserted] *)
Lemma truncateEnd_goes_back (justInserted : RecordId) (t : WT.Table) (w : Walk)
  (rc1 : Z) (c1 : WT.Cursor) :
  walkEnd justInserted t w -> 0 < docsRemoved w ->
  (if (ret_ w =? WT_NOTFOUND) || (newestIdToDelete w >=? justInserted)
   then WT.prev (truncateEnd w) t
   else (ret_ w, truncateEnd w)) = (rc1, c1) ->
  rc1 = 0 ->
  exists e, c1 = Some e /\ e < justInserted.
Proof.
  intros Hend Hd Hgo Hrc. destruct (Hend Hd) as [(Hr & Hte & Hlt)|[(Hr & Hte & Hall)|(Hr & Hte & Hge & p & Hp & Hleast)]].
  - rewrite Hr in Hgo. change (0 =? WT_NOTFOUND) with false in Hgo.
    destruct (Z.geb_spec (newestIdToDelete w) justInserted); [lia|].
    simpl in Hgo. injection Hgo as _ <-. eauto.
  - rewrite Hr, Hte in Hgo. change (WT_NOTFOUND =? WT_NOTFOUND) with true in Hgo.
    simpl in Hgo.
    destruct (prev_cases None t) as [(k & v & Hpv & Hin & _)|Hpv];
      rewrite Hpv in Hgo; injection Hgo as <- <-.
    + exists k. split; [reflexivity|]. apply Hall. eapply in_keys; eassumption.
    + discriminate.
  - rewrite Hr, Hte in Hgo. change (0 =? WT_NOTFOUND) with false in Hgo.
    destruct (Z.geb_spec (newestIdToDelete w) justInserted); [|lia].
    simpl in Hgo.
    destruct (prev_cases (Some (newestIdToDelete w)) t)
      as [(k & v & Hpv & Hin & Hb)|Hpv];
      rewrite Hpv in Hgo; injection Hgo as <- <-.
    + exists k. split; [reflexivity|].
      eapply below_first_above; eassumption.
    + discriminate.
Qed.

(** "put the cursor back where it was": after a step forward and a step
    back the cursor is again on a key below [justInserted] *)
Lemma truncateEnd_put_back (justInserted e : RecordId) (t : WT.Table)
  (rc3 : Z) (c3 : WT.Cursor) :
  ordered t -> e < justInserted ->
  WT.prev (snd (WT.next (Some e) t)) t = (rc3, c3) -> rc3 = 0 ->
  exists b, c3 = Some b /\ b < justInserted.
Proof.
  intros Hord He Hpv Hrc.
  destruct (next_cases (Some e) t) as [(k & v & Hn & Hin & Hfrom)|(Hn & Hfrom)];
    rewrite Hn in Hpv; simpl in Hpv.
  - destruct (prev_cases (Some k) t) as [(b & vb & Hp & Hinb & Hb)|Hp];
      rewrite Hp in Hpv; injection Hpv as <- <-; [|discriminate].
    exists b. split; [reflexivity|].
    apply (@below_first_above justInserted e k b vb t); auto.
    apply (@above_least _ _ _ _ Hord Hfrom).
  - destruct (prev_cases None t) as [(b & vb & Hp & Hinb & _)|Hp];
      rewrite Hp in Hpv; injection Hpv as <- <-; [|discriminate].
    exists b. split; [reflexivity|].
    pose proof (@above_none _ _ Hfrom b (in_keys _ _ _ Hinb)). lia.
Qed.

Lemma sparing_refl (j : RecordId) (s : State) : sparing j s s.
Proof. intros Hw. split; [assumption|]. intros k v Hin _. assumption. Qed.

Lemma sparing_trans (j : RecordId) (s1 s2 s3 : State) :
  sparing j s1 s2 -> sparing j s2 s3 -> sparing j s1 s3.
Proof.
  intros H12 H23 Hw. destruct (H12 Hw) as [Hw2 Hs12].
  destruct (H23 Hw2) as [Hw3 Hs23]. split; [assumption|].
  intros k v Hin Hk. apply Hs23; auto.
Qed.

Lemma sparing_ret {A} (j : RecordId) (a : A) : ensures (sparing j) (ret a).
Proof. intros s. apply sparing_refl. Qed.

Lemma sparing_throw {A} (j : RecordId) (e : Exception) :
  ensures (sparing j) (@throw State A e).
Proof. intros s. apply sparing_refl. Qed.

Lemma sparing_bind {A B} (j : RecordId) (m : M State A) (k : A -> M State B) :
  ensures (sparing j) m -> (forall a, ensures (sparing j) (k a)) ->
  ensures (sparing j) (bind m k).
Proof. apply ensures_bind. apply sparing_trans. Qed.

Lemma sparing_invariantWTOK {B} (j : RecordId) (rc : Z) (k : M State B) :
  (rc = 0 -> ensures (sparing j) k) ->
  ensures (sparing j) (invariantWTOK rc ;;; k).
Proof. apply ensures_invariantWTOK. apply sparing_refl. Qed.

Lemma keeps_sparing {A} (j : RecordId) (m : M State A) :
  keeps tableAndWrites m -> ensures (sparing j) m.
Proof.
  intros Hk s. specialize (Hk s). unfold tableAndWrites in Hk.
  destruct (m s) as [a s'|e s'|]; auto.
  all: injection Hk as Ht Hw; intros Hws; rewrite Hw, Ht;
    split; [assumption|]; intros k v Hin _; assumption.
Qed.

Lemma keeps_changeNumRecords {X} (f : State -> X) (diff : Z) :
  (forall s c, f (registerChange c s) = f s) ->
  (forall s v, f (on_store (set_numRecords v) s) = f s) ->
  keeps f (_changeNumRecords diff).
Proof.
  intros Hreg Hset. unfold _changeNumRecords.
  apply keeps_bind; [apply keeps_modify; intros; apply Hreg|intros _].
  apply keeps_modify. intros s. apply (Hset s).
Qed.

Lemma keeps_increaseDataSize {X} (f : State -> X) (registered : bool) (amount : Z) :
  (forall s c, f (registerChange c s) = f s) ->
  (forall s v, f (on_store (set_dataSize v) s) = f s) ->
  keeps f (_increaseDataSize registered amount).
Proof.
  intros Hreg Hset. unfold _increaseDataSize.
  apply keeps_bind; [|intros _].
  - destruct registered; [apply keeps_modify; intros; apply Hreg|apply keeps_ret].
  - apply keeps_modify. intros s. apply (Hset s).
Qed.

Lemma keeps_Change_commit {X} (f : State -> X) (env : Env) (c : Change) :
  (forall s o, f (on_store (set_oplogStones o) s) = f s) ->
  keeps f (Change_commit env c).
Proof.
  intros Hst. destruct c; simpl; try apply keeps_ret.
  - unfold InsertChange_commit.
    apply keeps_bind; [apply keeps_invariant|intros _].
    apply keeps_bind; [apply keeps_invariant|intros _].
    apply keeps_withStones. intros o. unfold putStones.
    apply keeps_modify. intros s. apply Hst.
  - unfold TruncateChange_commit.
    apply keeps_withStones. intros o. unfold putStones.
    apply keeps_modify. intros s. apply Hst.
Qed.

Lemma keeps_Change_rollback {X} (f : State -> X) (c : Change) :
  (forall s c, f (registerChange c s) = f s) ->
  (forall s v, f (on_store (set_numRecords v) s) = f s) ->
  (forall s v, f (on_store (set_dataSize v) s) = f s) ->
  keeps f (Change_rollback c).
Proof.
  intros Hreg Hn Hd. destruct c; simpl; try apply keeps_ret.
  - apply keeps_modify. intros s. apply (Hn s).
  - now apply keeps_increaseDataSize.
Qed.

Lemma commitUnitOfWork_sparing (j : RecordId) (env : Env) :
  ensures (sparing j) (commitUnitOfWork env).
Proof.
  intros s. unfold commitUnitOfWork. unfold bind at 1. unfold get.
  unfold bind, put.
  pose proof (@keeps_forEach _ _ tableAndWrites (Change_commit env)
                (changes (recoveryUnit s))
                (fun c => @keeps_Change_commit _ tableAndWrites env c
                            (fun _ _ => eq_refl))
                (mkState (store s) emptyRU)) as Hk.
  unfold tableAndWrites in Hk. simpl in Hk.
  destruct (forEach _ _ _) as [a s'|e s'|]; auto.
  all: injection Hk as Ht Hw; intros _; rewrite Hw, Ht;
    split; [reflexivity|]; intros k v Hin _; assumption.
Qed.

Lemma abortUnitOfWork_sparing (j : RecordId) :
  ensures (sparing j) abortUnitOfWork.
Proof.
  intros s. unfold abortUnitOfWork. unfold bind at 1. unfold get.
  unfold bind, put.
  pose proof (@keeps_forEach _ _ tableAndWrites Change_rollback
                (rev (changes (recoveryUnit s)))
                (fun c => @keeps_Change_rollback _ tableAndWrites c
                            (fun _ _ => eq_refl) (fun _ _ => eq_refl)
                            (fun _ _ => eq_refl))
                (mkState (set_table (undoWrites (writes (recoveryUnit s))
                                                (table (store s))) (store s))
                         emptyRU)) as Hk.
  unfold tableAndWrites in Hk. simpl in Hk.
  destruct (forEach _ _ _) as [a s'|e s'|]; auto.
  all: injection Hk as Ht Hw; intros Hws; rewrite Hw, Ht, Hws;
    split; [reflexivity|]; intros k v Hin _; assumption.
Qed.

Lemma inWriteUnitOfWork_sparing {A} (j : RecordId) (body : M State A) :
  ensures (sparing j) body -> ensures (sparing j) (inWriteUnitOfWork body).
Proof.
  intros Hb s. unfold inWriteUnitOfWork. specialize (Hb s).
  destruct (body s) as [a s'|e s'|]; auto.
  pose proof (abortUnitOfWork_sparing j s') as Ha.
  destruct (abortUnitOfWork s') as [a s''|e' s''|]; auto;
    eapply sparing_trans; eassumption.
Qed.

Lemma truncate_survives (j b : RecordId) (start : option RecordId) (t : WT.Table) :
  b < j -> survives j t (WT.truncate start (Some b) t).
Proof.
  intros Hb k v Hin Hk. unfold WT.truncate. apply filter_In.
  split; [assumption|]. simpl. unfold WT.in_range.
  destruct (Z.leb_spec k b); [lia|]. now rewrite andb_false_r.
Qed.

Lemma filter_above_lt (k : RecordId) (t : WT.Table) :
  WT.search k t <> None ->
  lt (length (filter (fun kv => k <? fst kv) t)) (length t).
Proof.
  induction t as [|[k0 v0] t IH]; simpl; intros Hs; [contradiction|].
  destruct (Z.eqb_spec k0 k) as [->|].
  - rewrite Z.ltb_irrefl.
    pose proof (List.filter_length_le (fun kv => k <? fst kv) t) as Hle.
    apply Nat.lt_succ_r. exact Hle.
  - specialize (IH Hs). destruct (k <? k0); simpl; lia.
Qed.

(** the side transaction of [cappedDeleteAsNeeded_inlock] spares the rows
    from [justInserted] on *)
Lemma cappedDelete_try_sparing (env : Env) (justInserted : RecordId) (s : State) :
  ordered (table (store s)) ->
  match cappedDelete_try env justInserted s with
  | Returned _ s' => sparing justInserted s s'
  | Thrown _ s' => sparing justInserted s s'
  | Terminated => True
  end.
Proof.
  intros Hord. unfold cappedDelete_try. unfold bind at 1. unfold get.
  set (r := store s).
  set (sizeOverCap := if _ >? _ then _ else 0).
  set (docsOverCap := if _ && _ then _ else 0).
  apply inWriteUnitOfWork_sparing.
  assert (Hstart : walkInv justInserted (table r) (fst (walkStart r))).
  { unfold walkStart.
    destruct (negb (_cappedFirstRecord r =? RecordId_null)).
    - destruct (WT.search (_cappedFirstRecord r) (table r)) eqn:Hs; simpl.
      + split; [simpl; lia|]. split; [|simpl; lia]. intros _. simpl.
        split; [reflexivity|]. split; [reflexivity|].
        eexists. split; [reflexivity|].
        clear -Hs. induction (table r) as [|[k v] t IH]; simpl in *; [discriminate|].
        destruct (Z.eqb_spec k (_cappedFirstRecord r)); auto.
      + split; [simpl; lia|]. split; [discriminate|simpl; lia].
    - split; [simpl; lia|]. split; [discriminate|simpl; lia]. }
  destruct (walkStart r) as [w0 savedFirstKey]. simpl in Hstart.
  destruct (walk _ r justInserted sizeOverCap docsOverCap w0) as [[w|e|]|] eqn:Hwalk.
  2: apply sparing_throw.
  2, 3: apply ensures_terminated.
  pose proof (@walk_end r justInserted sizeOverCap docsOverCap _ _ _ Hord Hstart Hwalk) as Hend.
  apply sparing_bind; [|intros _].
  { apply keeps_sparing. destruct (negb (ret_ w =? WT_NOTFOUND)); keeps_step. }
  destruct (Z.gtb_spec (docsRemoved w) 0) as [Hd|];
    [|apply sparing_ret].
  destruct (if (ret_ w =? WT_NOTFOUND) || (newestIdToDelete w >=? justInserted)
            then WT.prev (truncateEnd w) (table r)
            else (ret_ w, truncateEnd w)) as [rc1 c1] eqn:Hback.
  apply sparing_invariantWTOK. intros Hrc1.
  destruct (@truncateEnd_goes_back justInserted (table r) w rc1 c1 Hend ltac:(lia) Hback Hrc1) as (e & -> & He).
  pose proof (@truncateEnd_put_back justInserted e (table r)) as Hput.
  destruct (WT.next (Some e) (table r)) as [rc2 c2]. simpl in Hput.
  apply sparing_bind; [|intros _].
  { apply keeps_sparing. destruct (negb (rc2 =? WT_NOTFOUND)); keeps_step. }
  destruct (WT.prev c2 (table r)) as [rc3 c3].
  apply sparing_invariantWTOK. intros Hrc3.
  destruct (Hput rc3 c3 Hord He eq_refl Hrc3) as (b & -> & Hb).
  destruct ((truncate_rc env =? ENOENT) || (truncate_rc env =? WT_NOTFOUND));
    [apply sparing_ret|].
  apply sparing_invariantWTOK. intros _.
  apply sparing_bind; [|intros _].
  { apply ensures_modify. intros s0 Hw. split; [assumption|].
    simpl. now apply truncate_survives. }
  apply sparing_bind; [|intros _].
  { apply keeps_sparing. apply keeps_changeNumRecords; reflexivity. }
  apply sparing_bind; [|intros _].
  { apply keeps_sparing. apply keeps_increaseDataSize; reflexivity. }
  apply sparing_bind; [|intros _].
  { apply commitUnitOfWork_sparing. }
  apply sparing_bind; [|intros _].
  { apply keeps_sparing. apply keeps_modify. reflexivity. }
  apply sparing_ret.
Qed.

(** C5.  In the walk of [cappedDeleteAsNeeded_inlock], whatever it has
    counted so far, the loop is left at once
    - when the bytes counted cover the size overage and the documents
      counted cover the document overage,
    - when 20000 documents have been counted,
    - when the row the cursor comes to has an id at or above the id just
      inserted, which is then not counted;
    the walk, started from the remembered first record, comes to an end
    within one turn more than the table has rows; and whichever way
    [cappedDeleteAsNeeded_inlock] ends, every row with an id from the one
    just inserted on is still in the table, the record just inserted among
    them. *)
Theorem cappedDelete_walk_stops
  (r : WiredTigerRecordStore) (justInserted sizeOverCap docsOverCap : Z) :
  (forall fuel w,
      sizeOverCap <= sizeSaved w -> docsOverCap <= docsRemoved w ->
      walk (S fuel) r justInserted sizeOverCap docsOverCap w = Some (Stopped w))
  /\ (forall fuel w,
        20000 <= docsRemoved w ->
        walk (S fuel) r justInserted sizeOverCap docsOverCap w = Some (Stopped w))
  /\ (forall fuel w w',
        walkCondition r sizeOverCap docsOverCap w = (true, w') ->
        justInserted <= getKey (truncateEnd w') ->
        exists w'',
          walk (S fuel) r justInserted sizeOverCap docsOverCap w
          = Some (Stopped w'')
          /\ docsRemoved w'' = docsRemoved w /\ sizeSaved w'' = sizeSaved w)
  /\ (exists e,
        walk (S (length (table r))) r justInserted sizeOverCap docsOverCap
             (fst (walkStart r)) = Some e)
  /\ (forall env s,
        store s = r -> ordered (table r) ->
        match cappedDeleteAsNeeded_inlock env justInserted s with
        | Returned _ s' => survives justInserted (table r) (table (store s'))
        | Thrown _ s' => survives justInserted (table r) (table (store s'))
        | Terminated => True
        end).
Proof.
  split; [intros; now apply walk_stops_target|].
  split; [intros; now apply walk_stops_cap|].
  split; [intros fuel w w' Hc Hk; eapply walk_stops_justInserted; eassumption|].
  split.
  - destruct (walk (S (length (table r))) r justInserted sizeOverCap docsOverCap
                   (fst (walkStart r))) as [e|] eqn:Hw; [eauto|].
    exfalso. revert Hw. apply walk_fuel.
    unfold walkStart, walkMeasure.
    destruct (negb (_cappedFirstRecord r =? RecordId_null)).
    + destruct (WT.search (_cappedFirstRecord r) (table r)) eqn:Hs; simpl.
      * assert (Hs' : WT.search (_cappedFirstRecord r) (table r) <> None) by congruence.
        pose proof (@filter_above_lt _ _ Hs'). unfold WT.Table, RecordId in *. lia.
      * pose proof (List.filter_length_le (fun _ => true) (table r)) as Hle.
        apply Nat.lt_succ_r. exact Hle.
    + simpl. pose proof (List.filter_length_le (fun _ => true) (table r)) as Hle.
      apply Nat.lt_succ_r. exact Hle.
  - intros env s <- Hord. unfold cappedDeleteAsNeeded_inlock.
    pose proof (@cappedDelete_try_sparing env justInserted
                  (mkState (store s) emptyRU) Hord) as Hsp.
    destruct (cappedDelete_try env justInserted (mkState (store s) emptyRU))
      as [n s'|e s'|]; [| |exact I].
    + apply (Hsp eq_refl).
    + destruct e; apply (Hsp eq_refl).
Qed.

(** ** C2 *)














Lemma idInv_mono (m m' : Z) (s : State) : m' <= m -> idInv m s -> idInv m' s.
Proof.
  unfold idInv. intros Hle (Ho & Hr & Hn).
  split; [assumption|]. split; [assumption|]. lia.
Qed.











End Properties.

(** * The statements at concrete stores *)

Section Concrete.
#[local] Existing Instance mongo36.

(** a closed equation or comparison, by evaluation *)
Ltac evaluate :=
  first [ reflexivity
        | vm_compute; reflexivity
        | vm_compute; discriminate
        | vm_compute; split; discriminate ].

(** Two turns of [reclaimOplog] on a store whose counters lag behind its
    stones' estimates, as they do once [updateStatsAfterRepair] has put the
    counted totals in place of the estimated ones.  The first turn takes
    [numRecords()] from 3 to -2; the second, finding it negative, resets it
    to 0 instead of lowering it by the 5 records of its stone; likewise
    [dataSize()]. *)
Lemma reclaimOplog_resets_negative_counters :
  exists s1 o1 s2,
    updateStatsAfterRepair 3 30 estimatedOplog = Returned tt laggingOplog
    /\ reclaimOplog_body quietEnv (Stone.mk 5 50 10) laggingOplog = Returned tt s1
    /\ _oplogStones (store s1) = Some o1
    /\ peekOldestStoneIfNeeded (store s1) o1 = Some (Stone.mk 5 50 20)
    /\ truncate_rc quietEnv = 0
    /\ reclaimOplog_body quietEnv (Stone.mk 5 50 20) s1 = Returned tt s2
    /\ numRecords (store s1) = -2 /\ numRecords (store s2) = 0
    /\ numRecords (store s2) <> numRecords (store s1) - 5
    /\ dataSize (store s1) = -20 /\ dataSize (store s2) = 0
    /\ dataSize (store s2) <> dataSize (store s1) - 50.
Proof.
  do 3 eexists.
  split; [reflexivity|].
  split; [vm_compute; reflexivity|].
  split; [reflexivity|].
  repeat split; try (vm_compute; reflexivity); vm_compute; discriminate.
Qed.

Lemma reclaimOplog_body_counters_witness :
  exists s' o',
    reclaimOplog_body quietEnv (Stone.mk 5 50 10) laggingOplog = Returned tt s'
    /\ _oplogStones (store s') = Some o'
    /\ numRecords (store s') = 3 - 5
    /\ dataSize (store s') = 30 - 50
    /\ Stone.mk 5 50 10 :: _stones o' = [Stone.mk 5 50 10; Stone.mk 5 50 20]
    /\ firstRecord o' = 10
    /\ table (store s')
       = WT.truncate (Some 0) (Some 10)
           [(5, payload 10); (10, payload 10); (20, payload 10)].
Proof.
  apply (@reclaimOplog_body_counters mongo36 quietEnv (Stone.mk 5 50 10)
           laggingOplog
           (mkOplogStones [Stone.mk 5 50 10; Stone.mk 5 50 20] 0 0 10
                          RecordId_null false));
    evaluate.
Defined.



(** The commit hook of a batch of 1500 bytes while another thread holds
    the stones' mutex: the open segment is at 1500 bytes, past the
    threshold of 1000, and no stone has been made.  The same happens, with
    the mutex free, to a batch ending at id 7 when the newest stone ends at
    id 20. *)
Lemma insertCommit_lock_lost :
  (exists o',
      InsertChange_commit stonesBusyEnv 1500 7 3 freshOplog
      = Returned tt (on_store (set_oplogStones (Some o')) freshOplog)
      /\ _minBytesPerStone o' = 1000
      /\ _currentBytes o' = 1500
      /\ _currentRecords o' = 3
      /\ _stones o' = [])
  /\ (exists o',
        InsertChange_commit quietEnv 1500 7 3 racedOplog
        = Returned tt (on_store (set_oplogStones (Some o')) racedOplog)
        /\ _minBytesPerStone o' = 1000
        /\ _currentBytes o' = 1500
        /\ _currentRecords o' = 3
        /\ _stones o' = [Stone.mk 3 1500 20]).
Proof.
  split; eexists; (split; [vm_compute; reflexivity|]); repeat split.
Qed.

Lemma insertCommit_open_segment_witness :
  exists o',
    InsertChange_commit quietEnv 1500 7 3 freshOplog
    = Returned tt (on_store (set_oplogStones (Some o')) freshOplog)
    /\ _stones o' = [Stone.mk 3 1500 7]
    /\ _currentBytes o' = 0 /\ _currentRecords o' = 0.
Proof.
  destruct (@insertCommit_open_segment mongo36 quietEnv 1500 7 3 freshOplog
              (mkOplogStones [] 0 0 1000 RecordId_null false))
    as (o' & Hrun & _ & Hclosed & _); try evaluate.
  exists o'. split; [exact Hrun|].
  rewrite Hclosed; [repeat split|evaluate|reflexivity|discriminate].
Defined.



Lemma insertRecords_exceeds_cappedMaxSize_witness :
  insertRecords quietEnv insert_ok [Rec.mk RecordId_null (payload 101)] smallCapped
  = Returned (Error BadValue, [Rec.mk RecordId_null (payload 101)]) smallCapped.
Proof.
  apply (@insertRecords_exceeds_cappedMaxSize mongo36); [reflexivity|].
  vm_compute. reflexivity.
Defined.

Lemma cappedDeleteAsNeeded_backpressure_witness :
  exists s',
    cappedDeleteAsNeeded deleterBusyEnv 2 overCapped = Returned 0 s'
    /\ table (store s') = table (store overCapped)
    /\ numRecords (store s') = numRecords (store overCapped)
    /\ dataSize (store s') = dataSize (store overCapped)
    /\ recoveryUnit s' = recoveryUnit overCapped.
Proof.
  destruct (@cappedDeleteAsNeeded_backpressure mongo36 deleterBusyEnv 2 overCapped
              eq_refl eq_refl eq_refl) as (_ & _ & Hwait & _).
  apply Hwait; [vm_compute; discriminate|reflexivity].
Defined.



Lemma cappedDelete_walk_stops_witness :
  exists s',
    cappedDeleteAsNeeded_inlock quietEnv 2 overCapped = Returned 1 s'
    /\ survives 2 (table (store overCapped)) (table (store s'))
    /\ table (store s') = [(2, payload 70)].
Proof.
  destruct (@cappedDelete_walk_stops mongo36 (store overCapped) 2 10 0)
    as (_ & _ & _ & _ & Hsafe).
  assert (Hord : ordered (table (store overCapped)))
    by (unfold ordered; simpl; repeat constructor).
  specialize (Hsafe quietEnv overCapped eq_refl Hord).
  destruct (cappedDeleteAsNeeded_inlock quietEnv 2 overCapped)
    as [n s'|e s'|] eqn:E; vm_compute in E; try discriminate.
  injection E as <- <-.
  eexists. split; [reflexivity|]. split; [exact Hsafe|reflexivity].
Defined.


End Concrete.

(** * The rest of the record store: properties *)

Section Further.
Context {H : Headers}.
Local Open Scope monad_scope.

(** ** Tables *)

Lemma search_insert_same (k : RecordId) (v : RecordData) (t : WT.Table) :
  WT.search k (WT.insert k v t) = Some v.
Proof.
  induction t as [|[k0 v0] t IH]; simpl.
  - now rewrite Z.eqb_refl.
  - destruct (Z.ltb_spec k k0); simpl; [now rewrite Z.eqb_refl|].
    destruct (Z.eqb_spec k k0) as [->|Hne]; simpl; [now rewrite Z.eqb_refl|].
    destruct (Z.eqb_spec k0 k); [congruence|]. exact IH.
Qed.

Lemma search_insert_other (k k' : RecordId) (v : RecordData) (t : WT.Table) :
  k' <> k -> WT.search k' (WT.insert k v t) = WT.search k' t.
Proof.
  intros Hne. induction t as [|[k0 v0] t IH]; simpl.
  - destruct (Z.eqb_spec k k'); [congruence|reflexivity].
  - destruct (Z.ltb_spec k k0); simpl.
    + destruct (Z.eqb_spec k k'); [congruence|reflexivity].
    + destruct (Z.eqb_spec k k0) as [->|Hne0]; simpl.
      * destruct (Z.eqb_spec k0 k'); [congruence|reflexivity].
      * destruct (Z.eqb_spec k0 k'); [reflexivity|exact IH].
Qed.

Lemma search_remove_same (k : RecordId) (t : WT.Table) :
  WT.search k (WT.remove k t) = None.
Proof.
  unfold WT.remove. induction t as [|[k0 v0] t IH]; simpl; [reflexivity|].
  destruct (Z.eqb_spec k0 k); simpl; [exact IH|].
  destruct (Z.eqb_spec k0 k); [contradiction|exact IH].
Qed.

Lemma search_remove_other (k k' : RecordId) (t : WT.Table) :
  k' <> k -> WT.search k' (WT.remove k t) = WT.search k' t.
Proof.
  intros Hne. unfold WT.remove. induction t as [|[k0 v0] t IH]; simpl; [reflexivity|].
  destruct (Z.eqb_spec k0 k) as [->|]; simpl.
  - destruct (Z.eqb_spec k k'); [congruence|exact IH].
  - destruct (Z.eqb_spec k0 k'); [reflexivity|exact IH].
Qed.

Lemma search_some_in (k : RecordId) (v : RecordData) (t : WT.Table) :
  WT.search k t = Some v -> In (k, v) t.
Proof.
  induction t as [|[k0 v0] t IH]; simpl; [discriminate|].
  destruct (Z.eqb_spec k0 k) as [->|].
  - intros [= ->]. now left.
  - intros Hs. right. now apply IH.
Qed.

Lemma not_in_search (k : RecordId) (t : WT.Table) :
  ~ In k (WT.keys t) -> WT.search k t = None.
Proof.
  intros Hn. destruct (WT.search k t) as [v|] eqn:Hs; [|reflexivity].
  exfalso. apply Hn. eapply in_keys. eapply search_some_in. eassumption.
Qed.

Lemma keys_insert (k : RecordId) (v : RecordData) (t : WT.Table) (k' : RecordId) :
  In k' (WT.keys (WT.insert k v t)) <-> k' = k \/ In k' (WT.keys t).
Proof.
  induction t as [|[k0 v0] t IH]; simpl.
  - intuition.
  - destruct (Z.ltb_spec k k0); simpl; [intuition|].
    destruct (Z.eqb_spec k k0) as [->|]; simpl; [intuition|].
    rewrite IH. intuition.
Qed.

Lemma ordered_cons (k : RecordId) (v : RecordData) (t : WT.Table) :
  ordered t -> (forall k', In k' (WT.keys t) -> k < k') -> ordered ((k, v) :: t).
Proof.
  unfold ordered. simpl. intros Ho Hlt. constructor; [assumption|].
  now apply Forall_forall.
Qed.

Lemma ordered_insert (k : RecordId) (v : RecordData) (t : WT.Table) :
  ordered t -> ordered (WT.insert k v t).
Proof.
  induction t as [|[k0 v0] t IH]; intros Ho; simpl.
  - apply ordered_cons; [assumption|]. intros k' [].
  - pose proof (ordered_inv Ho) as [Ho' Hlt]. simpl in Hlt.
    destruct (Z.ltb_spec k k0).
    + apply ordered_cons; [assumption|].
      intros k' [<-|Hin]; [assumption|]. specialize (Hlt k' Hin). lia.
    + destruct (Z.eqb_spec k k0) as [->|].
      * apply ordered_cons; assumption.
      * apply ordered_cons; [now apply IH|].
        intros k' Hin. apply keys_insert in Hin.
        destruct Hin as [->|Hin]; [lia|now apply Hlt].
Qed.

Lemma ordered_filter (p : RecordId * RecordData -> bool) (t : WT.Table) :
  ordered t -> ordered (filter p t).
Proof.
  induction t as [|[k0 v0] t IH]; intros Ho; simpl; [assumption|].
  pose proof (ordered_inv Ho) as [Ho' Hlt]. simpl in Hlt.
  destruct (p (k0, v0)); [|now apply IH].
  apply ordered_cons; [now apply IH|].
  intros k' Hin. apply Hlt. unfold WT.keys in *.
  apply in_map_iff in Hin. destruct Hin as (row & <- & Hin).
  apply filter_In in Hin. apply in_map. apply Hin.
Qed.

(** two ordered tables that answer every search alike are the same *)
Lemma ordered_ext (t1 t2 : WT.Table) :
  ordered t1 -> ordered t2 ->
  (forall k, WT.search k t1 = WT.search k t2) -> t1 = t2.
Proof.
  revert t2. induction t1 as [|[k1 v1] t1 IH]; intros t2 Ho1 Ho2 Hs.
  - destruct t2 as [|[k2 v2] t2]; [reflexivity|].
    specialize (Hs k2). simpl in Hs. rewrite Z.eqb_refl in Hs. discriminate.
  - destruct t2 as [|[k2 v2] t2].
    + specialize (Hs k1). simpl in Hs. rewrite Z.eqb_refl in Hs. discriminate.
    + pose proof (ordered_inv Ho1) as [Ho1' Hlt1].
      pose proof (ordered_inv Ho2) as [Ho2' Hlt2]. simpl in Hlt1, Hlt2.
      assert (Hk : k1 = k2).
      { pose proof (Hs k1) as H1. pose proof (Hs k2) as H2. simpl in H1, H2.
        rewrite Z.eqb_refl in H1, H2.
        destruct (Z.eqb_spec k2 k1); [congruence|].
        destruct (Z.eqb_spec k1 k2); [congruence|].
        symmetry in H1. apply search_some_in, in_keys, Hlt2 in H1.
        apply search_some_in, in_keys, Hlt1 in H2. lia. }
      subst k2.
      assert (Hv : v1 = v2).
      { specialize (Hs k1). simpl in Hs. rewrite Z.eqb_refl in Hs. congruence. }
      subst v2. f_equal. apply IH; auto.
      intros k. specialize (Hs k). simpl in Hs.
      destruct (Z.eqb_spec k1 k) as [Heq|]; [|assumption]. subst k.
      rewrite !not_in_search; auto.
      * intros Hin. specialize (Hlt2 _ Hin). lia.
      * intros Hin. specialize (Hlt1 _ Hin). lia.
Qed.




Lemma totalLength_from (records : list Rec.t) (a : Z) :
  fold_left (fun acc rec => acc + size (Rec.data rec)) records a
  = a + totalLength records.
Proof.
  unfold totalLength. revert a.
  induction records as [|r rs IH]; intros a; simpl; [lia|].
  rewrite IH. rewrite (IH (0 + _)). lia.
Qed.

Lemma totalLength_cons (record : Rec.t) (records : list Rec.t) :
  totalLength (record :: records) = size (Rec.data record) + totalLength records.
Proof.
  unfold totalLength at 1. simpl. rewrite totalLength_from. lia.
Qed.

Lemma totalLength_numbered (m : Z) (records : list Rec.t) :
  totalLength (numbered m records) = totalLength records.
Proof.
  revert m. induction records as [|r rs IH]; intros m; simpl; [reflexivity|].
  rewrite !totalLength_cons. simpl. now rewrite IH.
Qed.

Lemma length_numbered (m : Z) (records : list Rec.t) :
  length (numbered m records) = length records.
Proof.
  revert m. induction records as [|r rs IH]; intros m; simpl; [reflexivity|].
  now rewrite IH.
Qed.




(** ** Inserting into a store that is neither capped nor the oplog *)


Lemma undo_write (k : RecordId) (v : RecordData) (t : WT.Table) :
  ordered t ->
  undoWrites [(k, WT.search k t)] (WT.insert k v t) = t.
Proof.
  intros Ho. simpl. destruct (WT.search k t) as [v0|] eqn:Hs.
  - apply ordered_ext; [now do 2 apply ordered_insert|assumption|].
    intros k'. destruct (Z.eq_dec k' k) as [->|Hne].
    + now rewrite search_insert_same.
    + now rewrite !search_insert_other.
  - apply ordered_ext; [now apply ordered_filter, ordered_insert|assumption|].
    intros k'. destruct (Z.eq_dec k' k) as [->|Hne].
    + now rewrite search_remove_same.
    + now rewrite search_remove_other, search_insert_other.
Qed.

Lemma restorable_txnWrite (base : WT.Table) (k : RecordId) (v : RecordData)
  (s : State) :
  restorable base s -> restorable base (txnWrite k v s).
Proof.
  intros [Ho Hu]. split; simpl.
  - now apply ordered_insert.
  - pose proof (undo_write k v Ho) as Hw. simpl in Hw.
    destruct (WT.search k (table (store s))); now rewrite Hw.
Qed.




Lemma cappedDeleteAsNeeded_uncapped (env : Env) (justInserted : RecordId) (s : State) :
  _isCapped (store s) = false -> _oplogStones (store s) = None ->
  cappedDeleteAsNeeded env justInserted s = Returned 0 s.
Proof.
  intros Hcap Hst. unfold cappedDeleteAsNeeded, cappedAndNeedDelete. unfold_monad.
  rewrite Hst, Hcap. reflexivity.
Qed.





(** ** Deleting and updating one record *)

Lemma remove_absent (k : RecordId) (t : WT.Table) :
  ~ In k (WT.keys t) -> WT.remove k t = t.
Proof.
  unfold WT.remove. induction t as [|[k0 v0] t IH]; intros Hn; simpl; [reflexivity|].
  destruct (Z.eqb_spec k0 k) as [->|]; simpl.
  - exfalso. apply Hn. now left.
  - f_equal. apply IH. intros Hin. apply Hn. now right.
Qed.

Lemma remove_present (k : RecordId) (old : RecordData) (t : WT.Table) :
  ordered t -> WT.search k t = Some old ->
  S (length (WT.remove k t)) = length t
  /\ totalBytes (WT.remove k t) + size old = totalBytes t.
Proof.
  induction t as [|[k0 v0] t IH]; intros Ho Hs; [discriminate|].
  pose proof (ordered_inv Ho) as [Ho' Hlt]. simpl in Hlt, Hs.
  unfold WT.remove in *. simpl.
  destruct (Z.eqb_spec k0 k) as [->|Hne]; simpl.
  - injection Hs as ->.
    fold (WT.remove k t). rewrite remove_absent; [split; [reflexivity|lia]|].
    intros Hin. specialize (Hlt _ Hin). lia.
  - destruct (IH Ho' Hs) as [Hlen Hbytes]. split; [now rewrite Hlen|lia].
Qed.

Lemma insert_present (k : RecordId) (v old : RecordData) (t : WT.Table) :
  ordered t -> WT.search k t = Some old ->
  length (WT.insert k v t) = length t
  /\ totalBytes (WT.insert k v t) + size old = totalBytes t + size v.
Proof.
  induction t as [|[k0 v0] t IH]; intros Ho Hs; [discriminate|].
  pose proof (ordered_inv Ho) as [Ho' Hlt]. simpl in Hlt, Hs. simpl.
  destruct (Z.eqb_spec k0 k) as [->|Hne].
  - injection Hs as ->. rewrite Z.ltb_irrefl, Z.eqb_refl. simpl. split; [reflexivity|lia].
  - assert (Hk : k0 < k).
    { apply search_some_in, in_keys, Hlt in Hs. exact Hs. }
    destruct (Z.ltb_spec k k0); [lia|].
    destruct (Z.eqb_spec k k0); [congruence|]. simpl.
    destruct (IH Ho' Hs) as [Hlen Hbytes]. split; [now rewrite Hlen|lia].
Qed.

(** X2.  [deleteRecord] ends the process on a capped store and on an id
    that is not in the table.  On a store that is not capped it removes the
    record of a present id: [findRecord] no longer finds it, every other
    id's record is as before, [numRecords()] is one less and [dataSize()]
    less by the record's length; a table in key order whose totals the
    counters were stays so. *)
Theorem deleteRecord_removes
  (remove_rc : RecordId -> Z) (id : RecordId) (out : RecordData) (s : State) :
  (_isCapped (store s) = true -> deleteRecord remove_rc id s = Terminated)
  /\ (WT.search id (table (store s)) = None ->
      deleteRecord remove_rc id s = Terminated)
  /\ (forall old,
        _isCapped (store s) = false ->
        WT.search id (table (store s)) = Some old ->
        remove_rc id = 0 ->
        0 <= numRecords (store s) -> 0 <= dataSize (store s) ->
        Int64.in_range (numRecords (store s) - 1) ->
        Int64.in_range (dataSize (store s) - size old) ->
        exists s',
          deleteRecord remove_rc id s = Returned tt s'
          /\ findRecord id out s' = Returned (false, out) s'
          /\ (forall k, k <> id ->
                WT.search k (table (store s')) = WT.search k (table (store s)))
          /\ numRecords (store s') = numRecords (store s) - 1
          /\ dataSize (store s') = dataSize (store s) - size old
          /\ (ordered (table (store s)) -> exact (store s) ->
              ordered (table (store s')) /\ exact (store s'))).
Proof.
  split; [|split].
  - intros Hcap. unfold deleteRecord. unfold_monad. now rewrite Hcap.
  - intros Hs. unfold deleteRecord. unfold_monad. rewrite Hs.
    destruct (negb (_isCapped (store s))); reflexivity.
  - intros old Hcap Hs Hrc Hn Hd Hrn Hrd.
    unfold deleteRecord, _changeNumRecords, _increaseDataSize. unfold_monad.
    rewrite Hcap, Hs, Hrc. simpl.
    unfold numRecords, dataSize, AtomicInt64.load in *.
    eexists. split; [reflexivity|]. simpl.
    rewrite !addClamped_nonneg by (try assumption; lia).
    split; [|split; [|split; [|split]]].
    + unfold findRecord. unfold_monad. simpl. now rewrite search_remove_same.
    + intros k Hk. now apply search_remove_other.
    + lia.
    + lia.
    + intros Ho [Hen Hed]. split; [now apply ordered_filter|].
      destruct (@remove_present _ _ _ Ho Hs) as [Hlen Hbytes].
      unfold exact, numRecords, dataSize, AtomicInt64.load in *. simpl. split; lia.
Qed.

(** X3.  On a store that is not capped and has no oplog stones,
    [updateRecord] ends the process on an id that is not in the table; on a
    present id it returns OK, [findRecord] then finds the new bytes under
    the id, every other id's record is as before, and [numRecords()] is
    unchanged; a table in key order whose totals the counters were stays
    so. *)
Theorem updateRecord_findRecord
  (env : Env) (insert_rc : RecordId -> Z) (id : RecordId)
  (data out : RecordData) (s : State) :
  _isCapped (store s) = false -> _oplogStones (store s) = None ->
  (WT.search id (table (store s)) = None ->
   updateRecord env insert_rc id data s = Terminated)
  /\ (forall old,
        WT.search id (table (store s)) = Some old ->
        insert_rc id = 0 ->
        0 <= dataSize (store s) ->
        Int64.in_range (dataSize (store s) + (size data - size old)) ->
        exists s',
          updateRecord env insert_rc id data s = Returned OK s'
          /\ findRecord id out s' = Returned (true, data) s'
          /\ (forall k, k <> id ->
                WT.search k (table (store s')) = WT.search k (table (store s)))
          /\ numRecords (store s') = numRecords (store s)
          /\ (ordered (table (store s)) -> exact (store s) ->
              ordered (table (store s')) /\ exact (store s'))).
Proof.
  intros Hcap Hst. split.
  - intros Hs. unfold updateRecord. unfold_monad. now rewrite Hs.
  - intros old Hs Hrc Hd Hrd.
    unfold updateRecord, hasOplogStones, _increaseDataSize. unfold_monad.
    rewrite Hs, Hst, Hrc. simpl.
    rewrite cappedDeleteAsNeeded_uncapped by (simpl; assumption).
    unfold numRecords, dataSize, AtomicInt64.load in *.
    eexists. split; [reflexivity|]. simpl.
    rewrite addClamped_nonneg by assumption.
    split; [|split; [|split]].
    + unfold findRecord. unfold_monad. simpl. now rewrite search_insert_same.
    + intros k Hk. now apply search_insert_other.
    + reflexivity.
    + intros Ho [Hen Hed]. split; [now apply ordered_insert|].
      destruct (@insert_present _ data _ _ Ho Hs) as [Hlen Hbytes].
      unfold exact, numRecords, dataSize, AtomicInt64.load in *. simpl.
      rewrite Hlen. split; lia.
Qed.


(** ** A unit of work that aborts *)

Lemma keeps_nextId {X} (f : State -> X) :
  (forall s v, f (on_store (set_nextIdNum v) s) = f s) -> keeps f _nextId.
Proof.
  intros Hf s. unfold _nextId. unfold_monad.
  destruct (negb (_isOplog (store s))); [|exact I]. simpl.
  destruct (isNormal _); [apply Hf|exact I].
Qed.

Lemma keeps_assignIds {X} (f : State -> X) (records : list Rec.t)
  (highestId : RecordId) :
  (forall s v, f (on_store (set_nextIdNum v) s) = f s) ->
  keeps f (assignIds records highestId).
Proof.
  intros Hf. revert highestId.
  induction records as [|r rs IH]; intros hi; simpl; [apply keeps_ret|].
  apply keeps_bind; [apply keeps_get|intros s0].
  destruct (_isOplog (store s0)).
  - destruct (extractKey (Rec.data r)); [|apply keeps_ret].
    apply keeps_bind; [apply IH|intros [[st rest'] hi']; apply keeps_ret].
  - apply keeps_bind; [now apply keeps_nextId|intros k].
    apply keeps_bind; [apply IH|intros [[st rest'] hi']; apply keeps_ret].
Qed.

Lemma keeps_writeRecords {X} (f : State -> X) (insert_rc : RecordId -> Z)
  (records : list Rec.t) :
  (forall s k v, f (txnWrite k v s) = f s) ->
  keeps f (writeRecords insert_rc records).
Proof.
  intros Hf. induction records as [|record rest IH]; simpl; [apply keeps_ret|].
  destruct (insert_rc (Rec.id record) =? 0).
  - apply keeps_bind; [apply keeps_modify; intros; apply Hf|intros _; exact IH].
  - destruct (_ =? _); [apply keeps_throw|apply keeps_ret].
Qed.

Lemma restorable_writeRecords (base : WT.Table) (insert_rc : RecordId -> Z)
  (records : list Rec.t) (s : State) :
  restorable base s ->
  holds (writeRecords insert_rc records) s
        (fun _ s' => restorable base s') (fun s' => restorable base s').
Proof.
  revert s. induction records as [|record rest IH]; intros s Hb; simpl; [exact Hb|].
  unfold holds in *.
  destruct (insert_rc (Rec.id record) =? 0).
  - unfold bind, modify. apply IH. now apply restorable_txnWrite.
  - destruct (_ =? _); exact Hb.
Qed.

Lemma totalLength_nonneg (records : list Rec.t) : 0 <= totalLength records.
Proof.
  induction records as [|r rs IH]; [unfold totalLength; simpl; lia|].
  rewrite totalLength_cons. unfold size. lia.
Qed.

(** how [_insertRecords] leaves the unit of work, on a store that has
    oplog stones or is not capped *)
Lemma insertRecords_outcome (env : Env) (insert_rc : RecordId -> Z)
  (records : list Rec.t) (base : WT.Table) (s : State) :
  restorable base s ->
  (_oplogStones (store s) = None -> _isCapped (store s) = false) ->
  let n := Z.of_nat (length records) in
  let counted (s' : State) :=
    restorable base s'
    /\ _oplogStones (store s') = _oplogStones (store s)
    /\ _numRecords (store s') = addClamped (_numRecords (store s)) n
    /\ _dataSize (store s')
       = addClamped (_dataSize (store s)) (totalLength records)
    /\ exists ic,
         changes (recoveryUnit s')
         = changes (recoveryUnit s)
           ++ [NumRecordsChange n; DataSizeChange (totalLength records)] ++ ic
         /\ forEach Change_rollback (rev ic) = ret tt in
  let untouched (s' : State) :=
    restorable base s' /\ accounts s' = accounts s in
  match _insertRecords env insert_rc records s with
  | Returned (OK, _) s' => counted s'
  | Returned (Error _, _) s' => untouched s'
  | Thrown _ s' => untouched s'
  | Terminated => True
  end.
Proof.
  intros Hb Hcap n counted untouched.
  unfold _insertRecords. unfold bind at 1. unfold get.
  destruct (_isCapped (store s) && _); [split; [assumption|reflexivity]|].
  unfold bind at 1.
  pose proof (@keeps_assignIds _ accounts records RecordId_null
                (fun _ _ => eq_refl) s) as Ha1.
  pose proof (@keeps_assignIds _ tableAndWrites records RecordId_null
                (fun _ _ => eq_refl) s) as Ht1.
  destruct (assignIds records RecordId_null s) as [[[st records'] hi] s1|e s1|];
    [| |exact I].
  2:{ split; [|assumption]. unfold tableAndWrites in Ht1.
      injection Ht1 as Ht Hw. destruct Hb as [Ho Hu]. split; congruence. }
  assert (Hb1 : restorable base s1).
  { unfold tableAndWrites in Ht1. injection Ht1 as Ht Hw.
    destruct Hb as [Ho Hu]. split; congruence. }
  destruct st; [|split; assumption].
  unfold bind at 1.
  pose proof (@keeps_writeRecords _ accounts insert_rc records'
                (fun _ _ _ => eq_refl) s1) as Ha2.
  pose proof (restorable_writeRecords insert_rc records' Hb1) as Hb2.
  unfold holds in Hb2.
  destruct (writeRecords insert_rc records' s1) as [st' s2|e s2|]; [| |exact I].
  2:{ split; [assumption|congruence]. }
  destruct st'; [|split; [assumption|congruence]].
  rewrite Ha1 in Ha2. unfold accounts in Ha2.
  injection Ha2 as Hch Hnr Hds Hst Hcp.
  unfold _changeNumRecords, _increaseDataSize. unfold_monad. simpl.
  rewrite Hst. destruct (_oplogStones (store s)) as [o|] eqn:Hso.
  - unfold registerChange, on_store; simpl. rewrite Hnr, Hds, Hch.
    split; [exact Hb2|]. split; [exact Hst|]. split; [reflexivity|].
    split; [reflexivity|].
    eexists [InsertChange _ _ _]. split; [|reflexivity].
    rewrite <- !app_assoc. reflexivity.
  - rewrite cappedDeleteAsNeeded_uncapped.
    2:{ simpl. rewrite Hcp. now apply Hcap. }
    2:{ simpl. exact Hst. }
    unfold registerChange, on_store; simpl. rewrite Hnr, Hds, Hch.
    split; [exact Hb2|]. split; [exact Hst|]. split; [reflexivity|].
    split; [reflexivity|].
    exists []. split; [|reflexivity].
    rewrite <- !app_assoc. reflexivity.
Qed.


Lemma neverThrows_bind {S A B} (m : M S A) (k : A -> M S B) :
  neverThrows m -> (forall a, neverThrows (k a)) -> neverThrows (bind m k).
Proof.
  intros Hm Hk s. unfold bind. specialize (Hm s).
  destruct (m s) as [a s1|e s1|]; [apply Hk|contradiction|exact I].
Qed.

Lemma neverThrows_invariant {S} (b : bool) : neverThrows (@invariant S b).
Proof. intros s. unfold invariant. destruct b; exact I. Qed.

Lemma neverThrows_commitUnitOfWork (env : Env) : neverThrows (commitUnitOfWork env).
Proof.
  assert (Hc : forall c, neverThrows (Change_commit env c)).
  { intros [d|a|b h n|]; simpl; try (intros s; exact I).
    - unfold InsertChange_commit.
      apply neverThrows_bind; [apply neverThrows_invariant|intros _].
      apply neverThrows_bind; [apply neverThrows_invariant|intros _].
      intros s. unfold withStones. destruct (_oplogStones (store s)); exact I.
    - intros s. unfold TruncateChange_commit, withStones.
      destruct (_oplogStones (store s)); exact I. }
  assert (Hf : forall l, neverThrows (forEach (Change_commit env) l)).
  { induction l as [|c l IH]; simpl; [intros s; exact I|].
    apply neverThrows_bind; [apply Hc|intros _; exact IH]. }
  unfold commitUnitOfWork.
  apply neverThrows_bind; [intros s; exact I|intros s0].
  apply neverThrows_bind; [intros s; exact I|intros _]. apply Hf.
Qed.

Lemma forEach_app {A} (f : A -> M State unit) (l1 l2 : list A) (s : State) :
  forEach f (l1 ++ l2) s = (forEach f l1 ;;; forEach f l2) s.
Proof.
  revert s. induction l1 as [|a l1 IH]; intros s; simpl; [reflexivity|].
  unfold bind in *. destruct (f a s) as [[] s1|e s1|]; [|reflexivity|reflexivity].
  apply IH.
Qed.

(** the abort of a unit of work that has written but not counted *)
Lemma abort_untouched (base : WT.Table) (s : State) :
  restorable base s -> changes (recoveryUnit s) = [] ->
  abortUnitOfWork s = Returned tt (mkState (set_table base (store s)) emptyRU).
Proof.
  intros [_ Hu] Hch. unfold abortUnitOfWork. unfold_monad.
  rewrite Hch, Hu. reflexivity.
Qed.

(** the abort of a unit of work that has counted an insert *)
Lemma abort_counted (base : WT.Table) (n total : Z) (ic : list Change) (s : State) :
  restorable base s ->
  changes (recoveryUnit s) = [NumRecordsChange n; DataSizeChange total] ++ ic ->
  forEach Change_rollback (rev ic) = ret tt ->
  abortUnitOfWork s
  = Returned tt
      (mkState
         (set_numRecords (Int64.wrap (_numRecords (store s) + - n))
            (set_dataSize (addClamped (_dataSize (store s)) (- total))
               (set_table base (store s))))
         emptyRU).
Proof.
  intros [_ Hu] Hch Hic. unfold abortUnitOfWork. unfold bind at 1. unfold get.
  unfold bind at 1. unfold put. rewrite Hch, Hu.
  rewrite rev_app_distr, forEach_app. rewrite Hic. reflexivity.
Qed.

(** X4.  On a store that has oplog stones or is not capped, with counters
    that are not negative, an [insertDocuments] that throws, whether the
    engine reported a write conflict, a record was refused or the unit of
    work was aborted after the insert, leaves the table, [numRecords()],
    [dataSize()] and the stones as they were before the call, and no
    change registered; the unit of work that is to abort does throw. *)
Theorem insertDocuments_abort_restores
  (env : Env) (insert_rc : RecordId -> Z) (fate : Fate)
  (docs : list RecordData) (s : State) :
  recoveryUnit s = emptyRU ->
  ordered (table (store s)) ->
  (_oplogStones (store s) = None -> _isCapped (store s) = false) ->
  0 <= numRecords (store s) -> 0 <= dataSize (store s) ->
  Int64.in_range (numRecords (store s) + Z.of_nat (length docs)) ->
  Int64.in_range (dataSize (store s)
                  + totalLength (map (Rec.mk RecordId_null) docs)) ->
  (forall e s',
      insertDocuments env insert_rc fate docs s = Thrown e s' ->
      table (store s') = table (store s)
      /\ numRecords (store s') = numRecords (store s)
      /\ dataSize (store s') = dataSize (store s)
      /\ _oplogStones (store s') = _oplogStones (store s)
      /\ recoveryUnit s' = emptyRU)
  /\ (fate = Aborts ->
      forall ids s', insertDocuments env insert_rc fate docs s <> Returned ids s').
Proof.
  intros Hru Ho Hcap Hn Hd Hrn Hrd.
  set (records := map (Rec.mk RecordId_null) docs) in *.
  assert (Hlen : length records = length docs) by apply length_map.
  assert (Hb : restorable (table (store s)) s).
  { split; [assumption|]. rewrite Hru. reflexivity. }
  pose proof (@insertRecords_outcome env insert_rc records _ s Hb Hcap) as Hout.
  cbv zeta in Hout. rewrite Hlen in Hout.
  pose proof (totalLength_nonneg records) as Htot.
  unfold numRecords, dataSize, AtomicInt64.load in *.
  rewrite !addClamped_nonneg in Hout by assumption.
  assert (Hab1 : forall e0 e s1 s',
             restorable (table (store s)) s1 -> accounts s1 = accounts s ->
             match abortUnitOfWork s1 with
             | Returned _ s'' => Thrown e0 s''
             | Thrown e' s'' => Thrown e' s''
             | Terminated => Terminated
             end = (Thrown e s' : Result State (list RecordId)) ->
             table (store s') = table (store s)
             /\ _numRecords (store s') = _numRecords (store s)
             /\ _dataSize (store s') = _dataSize (store s)
             /\ _oplogStones (store s') = _oplogStones (store s)
             /\ recoveryUnit s' = emptyRU).
  { intros e0 e s1 s' Hb1 Hacc Hab. unfold accounts in Hacc.
    injection Hacc as Hch Hnr Hds Hst Hcp. rewrite Hru in Hch.
    rewrite (abort_untouched Hb1 Hch) in Hab. injection Hab as _ <-. simpl. auto. }
  assert (Hab2 : forall e0 e s1 s',
             (restorable (table (store s)) s1
              /\ _oplogStones (store s1) = _oplogStones (store s)
              /\ _numRecords (store s1)
                 = _numRecords (store s) + Z.of_nat (length docs)
              /\ _dataSize (store s1) = _dataSize (store s) + totalLength records
              /\ exists ic,
                   changes (recoveryUnit s1)
                   = changes (recoveryUnit s)
                     ++ [NumRecordsChange (Z.of_nat (length docs));
                         DataSizeChange (totalLength records)] ++ ic
                   /\ forEach Change_rollback (rev ic) = ret tt) ->
             match abortUnitOfWork s1 with
             | Returned _ s'' => Thrown e0 s''
             | Thrown e' s'' => Thrown e' s''
             | Terminated => Terminated
             end = (Thrown e s' : Result State (list RecordId)) ->
             table (store s') = table (store s)
             /\ _numRecords (store s') = _numRecords (store s)
             /\ _dataSize (store s') = _dataSize (store s)
             /\ _oplogStones (store s') = _oplogStones (store s)
             /\ recoveryUnit s' = emptyRU).
  { intros e0 e s1 s' (Hb1 & Hst & Hnr & Hds & ic & Hch & Hic) Hab.
    rewrite Hru in Hch. simpl in Hch.
    rewrite (abort_counted Hb1 Hch Hic) in Hab. injection Hab as _ <-. simpl.
    rewrite Hnr, Hds.
    rewrite addClamped_nonneg.
    2: lia.
    2:{ replace (_dataSize (store s) + totalLength records + - totalLength records)
          with (_dataSize (store s)) by lia.
        unfold Int64.in_range, Int64.min_value, Int64.max_value in *. lia. }
    rewrite wrap_in_range.
    2:{ unfold Int64.in_range, Int64.min_value, Int64.max_value in *. lia. }
    repeat split; auto; lia. }
  split.
  - intros e s'. unfold insertDocuments, inWriteUnitOfWork, insertRecords.
    fold records. unfold bind at 1.
    destruct (_insertRecords env insert_rc records s) as [[st recs] s1|e1 s1|].
    + destruct st; cbn [fst snd].
      * destruct fate.
        -- unfold bind at 1.
           pose proof (neverThrows_commitUnitOfWork env s1) as Hnt.
           destruct (commitUnitOfWork env s1) as [[] s2|e2 s2|]; [|contradiction|].
           ++ intros Hx. discriminate Hx.
           ++ intros Hx. discriminate Hx.
        -- unfold throw. intros Hx. exact (Hab2 _ _ _ _ Hout Hx).
      * unfold throw. destruct Hout as [Hb1 Hacc]. intros Hx.
        exact (Hab1 _ _ _ _ Hb1 Hacc Hx).
    + destruct Hout as [Hb1 Hacc]. intros Hx. exact (Hab1 _ _ _ _ Hb1 Hacc Hx).
    + intros Hx; discriminate Hx.
  - intros -> ids s'. unfold insertDocuments, inWriteUnitOfWork, insertRecords.
    fold records. unfold bind at 1.
    destruct (_insertRecords env insert_rc records s) as [[st recs] s1|e1 s1|].
    + destruct st; cbn [fst snd]; unfold throw;
        destruct (abortUnitOfWork s1); intros Hx; discriminate Hx.
    + destruct (abortUnitOfWork s1); intros Hx; discriminate Hx.
    + intros Hx; discriminate Hx.
Qed.


(** ** Truncating the whole store *)

Lemma search_filter (p : RecordId * RecordData -> bool) (k : RecordId) (t : WT.Table) :
  ordered t ->
  WT.search k (filter p t)
  = match WT.search k t with
    | Some v => if p (k, v) then Some v else None
    | None => None
    end.
Proof.
  induction t as [|[k0 v0] t IH]; intros Ho; simpl; [reflexivity|].
  pose proof (ordered_inv Ho) as [Ho' Hlt]. simpl in Hlt.
  destruct (Z.eqb_spec k0 k) as [->|Hne].
  - destruct (p (k, v0)) eqn:Hp; simpl.
    + now rewrite Z.eqb_refl.
    + apply not_in_search. intros Hin. unfold WT.keys in Hin.
      apply in_map_iff in Hin. destruct Hin as (row & Hk & Hin).
      apply filter_In in Hin. destruct Hin as [Hin _].
      apply (in_map fst) in Hin. rewrite Hk in Hin. specialize (Hlt _ Hin). lia.
  - destruct (p (k0, v0)); simpl.
    + destruct (Z.eqb_spec k0 k); [contradiction|]. now apply IH.
    + now apply IH.
Qed.

Lemma undoWrites_app (l1 l2 : list (RecordId * option RecordData)) (t : WT.Table) :
  undoWrites (l1 ++ l2) t = undoWrites l2 (undoWrites l1 t).
Proof.
  revert t. induction l1 as [|[k [v|]] l1 IH]; intros t; simpl; auto.
Qed.

Lemma reinsert_spec (rows : WT.Table) (t : WT.Table) :
  ordered rows -> ordered t ->
  ordered (undoWrites (map (fun kv => (fst kv, Some (snd kv))) rows) t)
  /\ forall k,
       WT.search k (undoWrites (map (fun kv => (fst kv, Some (snd kv))) rows) t)
       = match WT.search k rows with
         | Some v => Some v
         | None => WT.search k t
         end.
Proof.
  revert t. induction rows as [|[k0 v0] rows IH]; intros t Hor Ho; simpl.
  - split; [assumption|reflexivity].
  - pose proof (ordered_inv Hor) as [Hor' Hlt]. simpl in Hlt.
    destruct (IH (WT.insert k0 v0 t) Hor' (ordered_insert k0 v0 Ho)) as [Hord Hs].
    split; [assumption|]. intros k. rewrite Hs.
    destruct (Z.eqb_spec k0 k) as [->|Hne].
    + rewrite not_in_search; [apply search_insert_same|].
      intros Hin. specialize (Hlt _ Hin). lia.
    + destruct (WT.search k rows); [reflexivity|].
      apply search_insert_other. congruence.
Qed.

Lemma undo_truncate (start stop : option RecordId) (t : WT.Table) :
  ordered t ->
  undoWrites (map (fun kv => (fst kv, Some (snd kv)))
                  (filter (fun kv => WT.in_range start stop (fst kv)) t))
             (WT.truncate start stop t)
  = t.
Proof.
  intros Ho. unfold WT.truncate.
  destruct (@reinsert_spec
              (filter (fun kv => WT.in_range start stop (fst kv)) t)
              (filter (fun kv => negb (WT.in_range start stop (fst kv))) t))
    as [Hord Hs]; try now apply ordered_filter.
  apply ordered_ext; [assumption|assumption|].
  intros k. rewrite Hs. rewrite !search_filter by assumption. simpl.
  destruct (WT.search k t); [|reflexivity].
  destruct (WT.in_range start stop k); reflexivity.
Qed.

Lemma restorable_txnTruncate (base : WT.Table) (start stop : option RecordId)
  (s : State) :
  restorable base s -> restorable base (txnTruncate start stop s).
Proof.
  intros [Ho Hu]. split; simpl.
  - unfold WT.truncate. now apply ordered_filter.
  - rewrite undoWrites_app, undo_truncate by assumption. exact Hu.
Qed.

Lemma truncate_from_first (k : RecordId) (v : RecordData) (t : WT.Table) :
  ordered ((k, v) :: t) -> WT.truncate (Some k) None ((k, v) :: t) = [].
Proof.
  intros Ho. pose proof (ordered_inv Ho) as [_ Hlt]. simpl in Hlt.
  unfold WT.truncate, WT.in_range. simpl. rewrite Z.leb_refl. simpl.
  induction t as [|[k1 v1] t IH]; simpl; [reflexivity|].
  destruct (Z.leb_spec k k1); simpl.
  - apply IH.
    + apply ordered_inv in Ho. destruct Ho as [Ho _].
      apply ordered_inv in Ho. destruct Ho as [Ho Hlt1].
      apply ordered_cons; [assumption|]. intros k' Hk'. apply Hlt. now right.
    + intros k' Hk'. apply Hlt. now right.
  - specialize (Hlt k1 (or_introl eq_refl)). simpl in Hlt. lia.
Qed.

(** X5.  [truncate] does nothing at all to a store whose table is empty.
    Otherwise, the engine's truncate succeeding, it empties a table in key
    order and, the counters not being negative, takes [numRecords()] and
    [dataSize()] to 0; the stones are emptied only when the unit of work
    commits, and a unit of work that aborts instead has the table and the
    counters back as they were. *)
Theorem truncate_empties (env : Env) (s : State) :
  (table (store s) = [] -> truncate env s = Returned OK s)
  /\ (table (store s) <> [] -> ordered (table (store s)) ->
      truncate_rc env = 0 -> recoveryUnit s = emptyRU ->
      0 <= numRecords (store s) -> 0 <= dataSize (store s) ->
      Int64.in_range (numRecords (store s)) ->
      Int64.in_range (dataSize (store s)) ->
      exists s1,
        truncate env s = Returned OK s1
        /\ table (store s1) = []
        /\ numRecords (store s1) = 0 /\ dataSize (store s1) = 0
        /\ _oplogStones (store s1) = _oplogStones (store s)
        /\ (exists s2,
              commitUnitOfWork env s1 = Returned tt s2
              /\ table (store s2) = []
              /\ numRecords (store s2) = 0 /\ dataSize (store s2) = 0
              /\ recoveryUnit s2 = emptyRU
              /\ match _oplogStones (store s) with
                 | Some o =>
                     _oplogStones (store s2)
                     = Some (set_stones []
                               (set_currentBytes 0 (set_currentRecords 0 o)))
                 | None => _oplogStones (store s2) = None
                 end)
        /\ (exists s3,
              abortUnitOfWork s1 = Returned tt s3
              /\ table (store s3) = table (store s)
              /\ numRecords (store s3) = numRecords (store s)
              /\ dataSize (store s3) = dataSize (store s)
              /\ _oplogStones (store s3) = _oplogStones (store s)
              /\ recoveryUnit s3 = emptyRU)).
Proof.
  split.
  - intros Ht. unfold truncate. unfold_monad. now rewrite Ht.
  - intros Hne Ho Hrc Hru Hn Hd Hrn Hrd.
    destruct (table (store s)) as [|[k v] t] eqn:Ht; [contradiction|].
    assert (Hb : restorable ((k, v) :: t) (txnTruncate (Some k) None s)).
    { apply restorable_txnTruncate. split; [now rewrite Ht|].
      now rewrite Hru, Ht. }
    pose proof (truncate_from_first Ho) as Hall.
    unfold numRecords, dataSize, AtomicInt64.load in *.
    assert (Hz : forall c, 0 <= c -> addClamped c (- c) = 0).
    { intros c Hc. rewrite addClamped_nonneg;
        [lia|assumption|replace (c + - c) with 0 by lia; vm_compute; split; discriminate]. }
    assert (Hback : forall c, 0 <= c -> Int64.in_range c -> addClamped 0 (- - c) = c).
    { intros c Hc Hr. rewrite addClamped_nonneg;
        [lia|lia|replace (0 + - - c) with c by lia; assumption]. }
    assert (Hwrap : forall c, Int64.in_range c -> Int64.wrap (0 + - - c) = c).
    { intros c Hr. replace (0 + - - c) with c by lia. now apply wrap_in_range. }
    unfold truncate, _changeNumRecords, _increaseDataSize. unfold_monad.
    rewrite Ht. simpl hd_error. cbv iota beta. rewrite Hrc. simpl.
    unfold numRecords, dataSize, AtomicInt64.load. simpl.
    remember (txnTruncate (Some k) None s) as s0 eqn:Hs0.
    assert (Ht0 : table (store s0) = []) by (rewrite Hs0; simpl; now rewrite Ht).
    assert (Hn0 : _numRecords (store s0) = _numRecords (store s)) by now rewrite Hs0.
    assert (Hd0 : _dataSize (store s0) = _dataSize (store s)) by now rewrite Hs0.
    assert (Hst0 : _oplogStones (store s0) = _oplogStones (store s)) by now rewrite Hs0.
    assert (Hch0 : changes (recoveryUnit s0) = []) by (rewrite Hs0; simpl; now rewrite Hru).
    destruct Hb as [_ Hu]. rewrite Ht0 in Hu.
    clear Hs0. destruct s0 as [r0 [c0 w0]]. destruct r0. simpl in *. subst.
    unfold hasOplogStones.
    destruct (_oplogStones (store s)) as [o|] eqn:Hst.
    + eexists. split; [reflexivity|]. simpl.
      rewrite !Hz by assumption.
      repeat (split; [reflexivity|]). split.
      * unfold commitUnitOfWork, TruncateChange_commit, withStones, putStones.
        unfold_monad. simpl.
        eexists. split; [reflexivity|]. simpl. auto.
      * unfold abortUnitOfWork. unfold_monad. simpl.
        rewrite Hu. unfold _increaseDataSize. unfold_monad. simpl.
        eexists. split; [reflexivity|]. simpl.
        unfold AtomicInt64.fetchAndAdd. simpl.
        rewrite !Hz, Hback, Hwrap by assumption. auto.
    + eexists. split; [reflexivity|]. simpl.
      rewrite !Hz by assumption.
      repeat (split; [reflexivity|]). split.
      * unfold commitUnitOfWork. unfold_monad. simpl.
        eexists. split; [reflexivity|]. simpl. auto.
      * unfold abortUnitOfWork. unfold_monad. simpl.
        rewrite Hu. unfold _increaseDataSize. unfold_monad. simpl.
        eexists. split; [reflexivity|]. simpl.
        unfold AtomicInt64.fetchAndAdd. simpl.
        rewrite !Hz, Hback, Hwrap by assumption. auto.
Qed.


(** ** Stones after a truncation from the newest end *)

Lemma recordsOf_app (l1 l2 : list Stone.t) :
  recordsOf (l1 ++ l2) = recordsOf l1 + recordsOf l2.
Proof. unfold recordsOf. induction l1 as [|st l1 IH]; simpl; lia. Qed.

Lemma bytesOf_app (l1 l2 : list Stone.t) :
  bytesOf (l1 ++ l2) = bytesOf l1 + bytesOf l2.
Proof. unfold bytesOf. induction l1 as [|st l1 IH]; simpl; lia. Qed.

Lemma recordsOf_rev (l : list Stone.t) : recordsOf (rev l) = recordsOf l.
Proof.
  induction l as [|st l IH]; simpl; [reflexivity|].
  rewrite recordsOf_app, IH. unfold recordsOf. simpl. lia.
Qed.

Lemma bytesOf_rev (l : list Stone.t) : bytesOf (rev l) = bytesOf l.
Proof.
  induction l as [|st l IH]; simpl; [reflexivity|].
  rewrite bytesOf_app, IH. unfold bytesOf. simpl. lia.
Qed.

Lemma stonesToRemove_spec (rstones : list Stone.t) (firstRemovedId : RecordId)
  (n r b : Z) :
  exists gone rest,
    rstones = gone ++ rest
    /\ stonesToRemove rstones firstRemovedId n r b
       = (n + Z.of_nat (length gone), r + recordsOf gone, b + bytesOf gone)
    /\ Forall (fun st => firstRemovedId <= Stone.lastRecord st) gone
    /\ (forall st, hd_error rest = Some st -> Stone.lastRecord st < firstRemovedId).
Proof.
  revert n r b. induction rstones as [|st rstones IH]; intros n r b; simpl.
  - exists [], []. split; [reflexivity|]. split.
    + unfold recordsOf, bytesOf. simpl.
      apply f_equal2; [apply f_equal2|]; lia.
    + split; [constructor|discriminate].
  - destruct (Z.ltb_spec (Stone.lastRecord st) firstRemovedId).
    + exists [], (st :: rstones). split; [reflexivity|]. split.
      * unfold recordsOf, bytesOf. simpl.
        apply f_equal2; [apply f_equal2|]; lia.
      * split; [constructor|]. simpl. intros st' [= <-]. assumption.
    + destruct (IH (n + 1) (r + Stone.records st) (b + Stone.bytes st))
        as (gone & rest & -> & Hrun & Hall & Hhd).
      exists (st :: gone), rest. split; [reflexivity|]. split.
      * rewrite Hrun. unfold recordsOf, bytesOf. simpl length.
        simpl fold_right. apply f_equal2; [apply f_equal2|]; lia.
      * split; [constructor; assumption|assumption].
Qed.

(** X6.  [updateStonesAfterCappedTruncateAfter] drops the newest stones,
    exactly those from the newest back to the first whose last record is
    below [firstRemovedId]: the stones kept are the older ones, in place,
    the newest of them ending below [firstRemovedId], and every stone
    dropped ends at or after it.  What the dropped stones held beyond the
    records and bytes removed is added to the segment being filled, so that
    stones and segment together hold [recordsRemoved] records and
    [bytesRemoved] bytes less than before (64-bit overflow apart). *)
Theorem updateStones_conserves
  (recordsRemoved bytesRemoved : Z) (firstRemovedId : RecordId) (o : OplogStones) :
  let o' := updateStonesAfterCappedTruncateAfter
              recordsRemoved bytesRemoved firstRemovedId o in
  exists dropped,
    _stones o = _stones o' ++ dropped
    /\ Forall (fun st => firstRemovedId <= Stone.lastRecord st) dropped
    /\ (forall st, newestStone o' = Some st -> Stone.lastRecord st < firstRemovedId)
    /\ _currentRecords o'
       = Int64.wrap (_currentRecords o + (recordsOf dropped - recordsRemoved))
    /\ _currentBytes o'
       = Int64.wrap (_currentBytes o + (bytesOf dropped - bytesRemoved))
    /\ (Int64.in_range (_currentRecords o + (recordsOf dropped - recordsRemoved)) ->
        stonesRecords o' = stonesRecords o - recordsRemoved)
    /\ (Int64.in_range (_currentBytes o + (bytesOf dropped - bytesRemoved)) ->
        stonesBytes o' = stonesBytes o - bytesRemoved)
    /\ _minBytesPerStone o' = _minBytesPerStone o
    /\ firstRecord o' = firstRecord o.
Proof.
  intros o'. subst o'. unfold updateStonesAfterCappedTruncateAfter.
  destruct (stonesToRemove_spec (rev (_stones o)) firstRemovedId 0 0 0)
    as (gone & rest & Hrev & Hrun & Hall & Hhd).
  rewrite Hrun. unfold AtomicInt64.addAndFetch.
  assert (Hst : _stones o = rev rest ++ rev gone).
  { rewrite <- rev_app_distr, <- Hrev. now rewrite rev_involutive. }
  assert (Hkeep : firstn (Z.to_nat (Z.of_nat (length (_stones o))
                                    - (0 + Z.of_nat (length gone)))) (_stones o)
                  = rev rest).
  { rewrite Hst, length_app, !length_rev.
    replace (Z.to_nat _) with (length (rev rest) + 0)%nat
      by (rewrite length_rev; lia).
    rewrite firstn_app_2. simpl. now rewrite app_nil_r. }
  rewrite Hkeep. simpl.
  exists (rev gone). rewrite recordsOf_rev, bytesOf_rev.
  split; [exact Hst|]. split.
  { apply Forall_forall. intros st Hin. apply in_rev in Hin.
    rewrite Forall_forall in Hall. now apply Hall. }
  split.
  { unfold newestStone. simpl. rewrite rev_involutive. exact Hhd. }
  split; [f_equal; lia|]. split; [f_equal; lia|].
  unfold stonesRecords, stonesBytes. simpl.
  rewrite Hst, recordsOf_app, bytesOf_app, recordsOf_rev, bytesOf_rev.
  split; [|split; [|split; reflexivity]].
  - intros Hr. replace (0 + recordsOf gone - recordsRemoved)
      with (recordsOf gone - recordsRemoved) by lia.
    rewrite (wrap_in_range Hr). rewrite recordsOf_rev. lia.
  - intros Hr. replace (0 + bytesOf gone - bytesRemoved)
      with (bytesOf gone - bytesRemoved) by lia.
    rewrite (wrap_in_range Hr). rewrite bytesOf_rev. lia.
Qed.


(** ** Cursors *)

(** X7.  A record that [next()] returns is a row of the table, and becomes
    the cursor's last returned id; for a forward cursor its id is above
    the id returned before, whatever the table has become in between.
    Once [next()] has returned nothing the cursor is at its end: every
    later [next()] returns nothing, on any table. *)
Theorem next_returns_rows_in_order (t : WT.Table) (c : RecordCursor) :
  (forall record c',
      next t c = Returned (Some record) c' ->
      In (Rec.id record, Rec.data record) t
      /\ _lastReturnedId c' = Rec.id record
      /\ _eof c' = false
      /\ (_forward c = true -> _lastReturnedId c < Rec.id record))
  /\ (forall c',
        next t c = Returned None c' ->
        _eof c' = true /\ forall t', next t' c' = Returned None c').
Proof.
  unfold next. unfold_monad.
  destruct (_eof c) eqn:He.
  { split; [discriminate|]. intros c' [= <-]. split; [assumption|].
    intros t'. now rewrite He. }
  destruct (_cursor c) as [wc|]; [|split; discriminate].
  destruct (if negb (_skipNextAdvance c)
            then if _forward c then WT.next wc t else WT.prev wc t
            else (0, wc)) as [advanceRet wc'].
  destruct (Z.eqb_spec advanceRet WT_NOTFOUND) as [->|Hnf].
  { split; [discriminate|]. intros c' [= <-]. simpl. split; [reflexivity|].
    intros t'. reflexivity. }
  destruct (Z.eqb_spec advanceRet 0) as [->|Hnz].
  2:{ destruct (advanceRet =? WT_ROLLBACK); split; discriminate. }
  destruct (_forward c) eqn:Hf; simpl.
  - destruct (Z.geb_spec (_lastReturnedId c) (getKey wc')); [split; discriminate|].
    destruct wc' as [k|]; simpl; [|split; discriminate].
    destruct (WT.search k t) as [v|] eqn:Hs; [|split; discriminate].
    split; [|discriminate].
    intros record c' [= <- <-]. simpl. simpl in *.
    split; [now apply search_some_in|]. split; [reflexivity|].
    split; [reflexivity|]. intros _. lia.
  - destruct wc' as [k|]; simpl; [|split; discriminate].
    destruct (WT.search k t) as [v|] eqn:Hs; [|split; discriminate].
    split; [|discriminate].
    intros record c' [= <- <-]. simpl.
    split; [now apply search_some_in|]. split; [reflexivity|].
    split; [reflexivity|]. discriminate.
Qed.

(** X8.  [seekExact] of an id that is not in the table returns nothing and
    leaves the cursor at its end; of an id that is in the table it returns
    the record, and the [next()] that follows returns the row nearest to
    that id in the cursor's direction, or nothing when there is none. *)
Theorem seekExact_positions (t : WT.Table) (id : RecordId) (c : RecordCursor) :
  _cursor c <> None ->
  (WT.search id t = None ->
   exists c',
     seekExact t id c = Returned None c'
     /\ _eof c' = true /\ forall t', next t' c' = Returned None c')
  /\ (forall v,
        WT.search id t = Some v ->
        exists c',
          seekExact t id c = Returned (Some (Rec.mk id v)) c'
          /\ _lastReturnedId c' = id /\ _eof c' = false
          /\ (ordered t ->
              exists res c'',
                next t c' = Returned res c''
                /\ nearest (_forward c) id t res)).
Proof.
  intros Hc. destruct (_cursor c) as [wc|] eqn:Hwc; [|contradiction].
  split.
  - intros Hs. unfold seekExact. unfold_monad. rewrite Hwc, Hs.
    eexists. split; [reflexivity|]. split; reflexivity.
  - intros v Hs. unfold seekExact. unfold_monad. rewrite Hwc, Hs.
    eexists. split; [reflexivity|]. split; [reflexivity|]. split; [reflexivity|].
    intros Ho.
    pose proof (@next_from_row t (mkCursor (_forward c) false false id (Some (Some id)))
                  id eq_refl eq_refl eq_refl) as Hnext.
    simpl in Hnext. destruct (_forward c) eqn:Hf.
    + destruct (WT.above id t) as [[a va]|] eqn:Ha.
      * destruct (@above_least _ _ _ _ Ho Ha) as (Hin & Hlt & Hleast).
        eexists. eexists. split.
        -- apply Hnext; [now apply search_in|intros _; assumption].
        -- simpl. repeat split; auto.
      * eexists. eexists. split; [exact Hnext|].
        simpl. now apply above_none.
    + destruct (WT.below id t) as [[b vb]|] eqn:Hb.
      * destruct (@below_greatest _ _ _ _ Ho Hb) as (Hin & Hlt & Hgreatest).
        eexists. eexists. split.
        -- apply Hnext; [now apply search_in|discriminate].
        -- simpl. repeat split; auto.
      * eexists. eexists. split; [exact Hnext|].
        simpl. now apply below_none.
Qed.

(** X9.  A cursor that is on the record it last returned, saved (and
    detached or not) and then restored while that record is still in the
    table, is the cursor it was: [restore()] returns true, on a capped
    store as on any other, and the scan goes on from the same record,
    neither skipping a row nor returning one again. *)
Theorem save_restore_resumes
  (r : WiredTigerRecordStore) (preferAbove : bool) (c : RecordCursor)
  (v : RecordData) :
  _eof c = false -> _skipNextAdvance c = false ->
  _cursor c = Some (Some (_lastReturnedId c)) ->
  isNull (_lastReturnedId c) = false ->
  WT.search (_lastReturnedId c) (table r) = Some v ->
  restore r preferAbove (save c) = Returned true c
  /\ restore r preferAbove
       (reattachToOperationContext (detachFromOperationContext (save c)))
     = Returned true c.
Proof.
  intros He Hsk Hc Hnull Hs.
  destruct c as [fwd eof skip lastId wc]. simpl in *. subst.
  unfold restore, save, reattachToOperationContext, detachFromOperationContext.
  unfold_monad. simpl. rewrite Hnull. unfold WT.search_near. rewrite Hs.
  change (0 =? WT_NOTFOUND) with false. cbv iota.
  change (0 =? 0) with true. cbv iota. split; reflexivity.
Qed.

(** X10.  [oplogStartHack] answers nothing on a store that is not the
    oplog.  On the oplog, over a table in key order, it answers the greatest
    id in the table that is at or below the starting position, and the null
    id when every id in the table is above it. *)
Theorem oplogStartHack_greatest_below
  (preferAbove : bool) (startingPosition : RecordId) (s : State) :
  (_isOplog (store s) = false ->
   oplogStartHack preferAbove startingPosition s = Returned None s)
  /\ (_isOplog (store s) = true -> ordered (table (store s)) ->
      exists id,
        oplogStartHack preferAbove startingPosition s = Returned (Some id) s
        /\ ((id = RecordId_null
             /\ forall k, In k (WT.keys (table (store s))) -> startingPosition < k)
            \/ (In id (WT.keys (table (store s)))
                /\ id <= startingPosition
                /\ forall k, In k (WT.keys (table (store s))) ->
                             k <= startingPosition -> k <= id))).
Proof.
  split.
  - intros Ho. unfold oplogStartHack. unfold_monad. now rewrite Ho.
  - intros Hop Ho. unfold oplogStartHack. unfold_monad. rewrite Hop. simpl negb.
    cbv iota. unfold WT.search_near.
    destruct (WT.search startingPosition (table (store s))) as [v|] eqn:Hs.
    { change (0 =? 0) with true. change (0 >? 0) with false. simpl andb. cbv iota.
      change (0 =? WT_NOTFOUND) with false. cbv iota.
      exists startingPosition. split; [reflexivity|]. right.
      split; [eapply in_keys, search_some_in; eassumption|]. split; [lia|auto]. }
    pose proof (search_none _ _ Hs) as Hnotin.
    assert (Hstrict : forall k, In k (WT.keys (table (store s))) ->
                                startingPosition <= k -> startingPosition < k).
    { intros k Hk Hle. destruct (Z.eq_dec k startingPosition); [subst; contradiction|lia]. }
    destruct (WT.above startingPosition (table (store s))) as [[a va]|] eqn:Ha;
      destruct (WT.below startingPosition (table (store s))) as [[b vb]|] eqn:Hb.
    all: try (destruct (@above_least _ _ _ _ Ho Ha) as (Hina & Hlta & Hleast)).
    all: try (destruct (@below_greatest _ _ _ _ Ho Hb) as (Hinb & Hltb & Hgreatest)).
    all: try (pose proof (@above_none _ _ Ha) as Hnoa).
    all: try (pose proof (@below_none _ _ Hb) as Hnob).
    all: try destruct preferAbove.
    all: try (change (0 =? 0) with true); try (change (1 >? 0) with true);
      try (change (-1 >? 0) with false);
      try (change (WT_NOTFOUND =? 0) with false);
      simpl andb; cbv iota; unfold WT.prev.
    all: try rewrite (@below_skips_gap _ _ _ Hnotin Hlta Hleast).
    all: rewrite ?Hb.
    all: try (change (0 =? WT_NOTFOUND) with false);
      try (change (WT_NOTFOUND =? WT_NOTFOUND) with true);
      try (change (0 =? 0) with true); cbv iota.
    all: eexists; (split; [reflexivity|]).
    all: try solve [right; simpl; split; [eapply in_keys; eassumption|];
                    split; [lia|]; intros k Hk Hle;
                    apply Hgreatest; [assumption|];
                    destruct (Z.eq_dec k startingPosition); [subst; contradiction|lia]].
    all: left; split; [reflexivity|]; intros k Hk; apply Hstrict; auto.
Qed.


(** ** Scans *)

Lemma filter_none {A} (p : A -> bool) (l : list A) :
  (forall x, In x l -> p x = false) -> filter p l = [].
Proof.
  induction l as [|x l IH]; intros Hp; simpl; [reflexivity|].
  rewrite (Hp x (or_introl eq_refl)). apply IH. intros y Hy. apply Hp. now right.
Qed.

Lemma keys_app (l1 l2 : WT.Table) : WT.keys (l1 ++ l2) = WT.keys l1 ++ WT.keys l2.
Proof. unfold WT.keys. apply map_app. Qed.

Lemma ordered_app (l1 l2 : WT.Table) :
  ordered (l1 ++ l2) ->
  ordered l1 /\ ordered l2
  /\ forall k1 k2, In k1 (WT.keys l1) -> In k2 (WT.keys l2) -> k1 < k2.
Proof.
  induction l1 as [|[k v] l1 IH]; intros Ho; simpl in *.
  - split; [constructor|]. split; [assumption|]. intros k1 k2 [].
  - pose proof (ordered_inv Ho) as [Ho' Hlt]. simpl in Hlt.
    destruct (IH Ho') as (H1 & H2 & H12).
    split; [|split; [assumption|]].
    + apply ordered_cons; [assumption|]. intros k' Hk'. apply Hlt.
      rewrite keys_app. apply in_or_app. now left.
    + intros k1 k2 [<-|Hk1] Hk2; [|now apply H12].
      apply Hlt. rewrite keys_app. apply in_or_app. now right.
Qed.

Lemma above_split (pre post : WT.Table) (k : RecordId) (v : RecordData) :
  ordered (pre ++ (k, v) :: post) ->
  WT.above k (pre ++ (k, v) :: post) = hd_error post.
Proof.
  intros Ho. destruct (ordered_app _ _ Ho) as (_ & Ho2 & H12).
  pose proof (ordered_inv Ho2) as [_ Hlt]. simpl in Hlt.
  unfold WT.above. rewrite find_app.
  assert (Hpre : find (fun kv => k <? fst kv) pre = None).
  { destruct (find (fun kv : RecordId * RecordData => k <? fst kv) pre)
      as [[k0 v0]|] eqn:Hf; [exfalso|first [reflexivity|assumption]].
    apply find_some in Hf. destruct Hf as [Hin Hk]. simpl in Hk.
    apply Z.ltb_lt in Hk. apply in_keys in Hin.
    specialize (H12 k0 k Hin (or_introl eq_refl)). lia. }
  rewrite Hpre. simpl. rewrite Z.ltb_irrefl.
  destruct post as [|[k1 v1] post]; [reflexivity|]. simpl.
  specialize (Hlt k1 (or_introl eq_refl)). apply Z.ltb_lt in Hlt. now rewrite Hlt.
Qed.

Lemma below_split (pre post : WT.Table) (k : RecordId) (v : RecordData) :
  ordered (pre ++ (k, v) :: post) ->
  WT.below k (pre ++ (k, v) :: post) = hd_error (rev pre).
Proof.
  intros Ho. destruct (ordered_app _ _ Ho) as (_ & Ho2 & H12).
  pose proof (ordered_inv Ho2) as [_ Hlt]. simpl in Hlt.
  unfold WT.below. rewrite rev_app_distr. simpl. rewrite <- app_assoc.
  rewrite find_app.
  assert (Hpost : find (fun kv => fst kv <? k) (rev post) = None).
  { destruct (find (fun kv : RecordId * RecordData => fst kv <? k) (rev post))
      as [[k0 v0]|] eqn:Hf; [exfalso|first [reflexivity|assumption]].
    apply find_some in Hf. destruct Hf as [Hin Hk]. simpl in Hk.
    apply Z.ltb_lt in Hk. apply in_rev in Hin. apply in_keys in Hin.
    specialize (Hlt k0 Hin). lia. }
  rewrite Hpost. simpl. rewrite Z.ltb_irrefl.
  destruct (rev pre) as [|[k1 v1] rpre] eqn:Hr; [reflexivity|]. simpl.
  assert (Hin : In k1 (WT.keys pre)).
  { apply in_keys with (v := v1). apply in_rev. rewrite Hr. now left. }
  specialize (H12 k1 k Hin (or_introl eq_refl)). apply Z.ltb_lt in H12.
  now rewrite H12.
Qed.

Lemma search_split (pre post : WT.Table) (k : RecordId) (v : RecordData) :
  ordered (pre ++ (k, v) :: post) ->
  WT.search k (pre ++ (k, v) :: post) = Some v.
Proof.
  intros Ho. apply search_in; [assumption|]. apply in_or_app. right. now left.
Qed.

Lemma truncate_split (pre post : WT.Table) (k : RecordId) (v : RecordData) :
  ordered (pre ++ (k, v) :: post) ->
  WT.truncate (Some k) None (pre ++ (k, v) :: post) = pre.
Proof.
  intros Ho. destruct (ordered_app _ _ Ho) as (_ & Ho2 & H12).
  pose proof (ordered_inv Ho2) as [_ Hlt]. simpl in Hlt.
  unfold WT.truncate. rewrite filter_app.
  assert (Hpre : filter (fun kv : RecordId * RecordData =>
                           negb (WT.in_range (Some k) None (fst kv))) pre = pre).
  { apply forallb_filter_id. apply forallb_forall. intros [k0 v0] Hin.
    unfold WT.in_range. simpl.
    apply in_keys in Hin. specialize (H12 k0 k Hin (or_introl eq_refl)).
    destruct (Z.leb_spec k k0); [lia|reflexivity]. }
  assert (Hpost : filter (fun kv : RecordId * RecordData =>
                            negb (WT.in_range (Some k) None (fst kv)))
                         ((k, v) :: post) = []).
  { apply filter_none. intros [k0 v0] Hin. unfold WT.in_range. simpl.
    destruct (Z.leb_spec k k0); [reflexivity|].
    destruct Hin as [[= -> ->]|Hin]; [lia|].
    apply in_keys in Hin. specialize (Hlt k0 Hin). lia. }
  rewrite Hpre, Hpost. apply app_nil_r.
Qed.


Lemma next_onRow_forward (pre post : WT.Table) (k : RecordId) (v : RecordData) :
  ordered (pre ++ (k, v) :: post) ->
  next (pre ++ (k, v) :: post) (onRow true k)
  = match post with
    | [] => Returned None (mkCursor true true false k (Some None))
    | (k1, v1) :: _ => Returned (Some (Rec.mk k1 v1)) (onRow true k1)
    end.
Proof.
  intros Ho.
  pose proof (@next_from_row (pre ++ (k, v) :: post) (onRow true k) k
                eq_refl eq_refl eq_refl) as Hnext.
  simpl in Hnext. rewrite (above_split _ _ _ _ Ho) in Hnext.
  destruct post as [|[k1 v1] post]; simpl in Hnext; [exact Hnext|].
  apply Hnext.
  - apply search_in; [assumption|]. apply in_or_app. right. right. now left.
  - intros _. destruct (ordered_app _ _ Ho) as (_ & Ho2 & _).
    apply ordered_inv in Ho2. destruct Ho2 as [_ Hlt]. apply Hlt. now left.
Qed.

Lemma next_onRow_backward (pre post : WT.Table) (k : RecordId) (v : RecordData) :
  ordered (pre ++ (k, v) :: post) ->
  next (pre ++ (k, v) :: post) (onRow false k)
  = match rev pre with
    | [] => Returned None (mkCursor false true false k (Some None))
    | (k1, v1) :: _ => Returned (Some (Rec.mk k1 v1)) (onRow false k1)
    end.
Proof.
  intros Ho.
  pose proof (@next_from_row (pre ++ (k, v) :: post) (onRow false k) k
                eq_refl eq_refl eq_refl) as Hnext.
  simpl in Hnext. rewrite (below_split _ _ _ _ Ho) in Hnext.
  destruct (rev pre) as [|[k1 v1] rpre] eqn:Hr; simpl in Hnext; [exact Hnext|].
  apply Hnext; [|discriminate].
  apply search_in; [assumption|]. apply in_or_app. left.
  apply in_rev. rewrite Hr. now left.
Qed.


(** the count of [cappedTruncateAfter], from the row the cursor is on to
    the end of the table *)
Lemma countToRemove_counts (r : WiredTigerRecordStore) (post pre : WT.Table)
  (k : RecordId) (v : RecordData) (recordsRemoved bytesRemoved : Z) (fuel : nat) :
  table r = pre ++ (k, v) :: post ->
  ordered (table r) ->
  callbackAllows r ((k, v) :: post) ->
  (length post < fuel)%nat ->
  exists cursor',
    countToRemove fuel r (Rec.mk k v) (onRow true k) recordsRemoved bytesRemoved
    = Some (Returned (recordsRemoved + 1 + Z.of_nat (length post),
                      bytesRemoved + size v + totalBytes post) cursor').
Proof.
  revert pre k v recordsRemoved bytesRemoved fuel.
  induction post as [|[k1 v1] post IH];
    intros pre k v nr nb fuel Ht Ho Hcb Hfuel;
    (destruct fuel as [|fuel]; [simpl in Hfuel; lia|]).
  - simpl countToRemove.
    pose proof (Hcb k v (or_introl eq_refl)) as Hk.
    assert (Hok : match _cappedCallback r with
                  | Some f => f k v
                  | None => OK
                  end = OK) by (destruct (_cappedCallback r); auto).
    simpl Rec.id. simpl Rec.data. rewrite Hok.
    rewrite Ht. rewrite Ht in Ho. rewrite (next_onRow_forward _ _ _ _ Ho).
    eexists. apply f_equal. apply f_equal2; [|reflexivity].
    apply f_equal2; unfold totalBytes; simpl; lia.
  - simpl countToRemove.
    pose proof (Hcb k v (or_introl eq_refl)) as Hk.
    assert (Hok : match _cappedCallback r with
                  | Some f => f k v
                  | None => OK
                  end = OK) by (destruct (_cappedCallback r); auto).
    simpl Rec.id. simpl Rec.data. rewrite Hok.
    pose proof Ho as Ho'. rewrite Ht in Ho'.
    rewrite Ht. rewrite (next_onRow_forward _ _ _ _ Ho').
    destruct (IH (pre ++ [(k, v)]) k1 v1 (nr + 1) (nb + size v) fuel) as (c' & Hrun).
    + rewrite Ht, <- app_assoc. reflexivity.
    + assumption.
    + intros k' v' Hin. apply Hcb. now right.
    + simpl in Hfuel. lia.
    + exists c'. rewrite Hrun. apply f_equal. apply f_equal2; [|reflexivity].
      apply f_equal2; unfold totalBytes; simpl length; simpl fold_right; lia.
Qed.


(** ** Truncating a capped collection from the newest end *)

Lemma getCursor_ok (snapshotOpen forward : bool) (s : State) :
  _isOplog (store s) && snapshotOpen = false ->
  getCursor snapshotOpen forward s = Returned (RecordCursor_new forward) s.
Proof.
  intros Hc. unfold getCursor. unfold_monad.
  destruct (_isOplog (store s)), forward, snapshotOpen; try discriminate; reflexivity.
Qed.

Lemma seekExact_new (t : WT.Table) (id : RecordId) (forward : bool) :
  seekExact t id (RecordCursor_new forward)
  = match WT.search id t with
    | Some v => Returned (Some (Rec.mk id v)) (onRow forward id)
    | None => Returned None (mkCursor forward true false RecordId_null (Some None))
    end.
Proof.
  unfold seekExact, RecordCursor_new. unfold_monad. simpl.
  destruct (WT.search id t); reflexivity.
Qed.

(** the unit of work of [cappedTruncateAfter] and what follows it *)
Lemma truncateAfter_commits (env : Env) (firstRemovedId : RecordId)
  (recordsRemoved bytesRemoved : Z) (s : State) :
  recoveryUnit s = emptyRU -> truncate_rc env = 0 ->
  0 <= numRecords (store s) -> 0 <= dataSize (store s) ->
  Int64.in_range (numRecords (store s) - recordsRemoved) ->
  Int64.in_range (dataSize (store s) - bytesRemoved) ->
  exists s',
    (inWriteUnitOfWork (
       invariantWTOK (truncate_rc env) ;;;
       modify (txnTruncate (Some firstRemovedId) None) ;;;
       _changeNumRecords (- recordsRemoved) ;;;
       _increaseDataSize true (- bytesRemoved) ;;;
       commitUnitOfWork env) ;;;
     s' <- get ;;
     match _oplogStones (store s') with
     | Some o =>
         putStones (updateStonesAfterCappedTruncateAfter
                      recordsRemoved bytesRemoved firstRemovedId o)
     | None => ret tt
     end) s = Returned tt s'
    /\ table (store s') = WT.truncate (Some firstRemovedId) None (table (store s))
    /\ numRecords (store s') = numRecords (store s) - recordsRemoved
    /\ dataSize (store s') = dataSize (store s) - bytesRemoved
    /\ recoveryUnit s' = emptyRU
    /\ _oplogStones (store s')
       = option_map (updateStonesAfterCappedTruncateAfter
                       recordsRemoved bytesRemoved firstRemovedId)
                    (_oplogStones (store s)).
Proof.
  intros Hru Hrc Hn Hd Hrn Hrd.
  unfold numRecords, dataSize, AtomicInt64.load in *.
  destruct s as [r ru]. simpl in *. subst ru.
  unfold inWriteUnitOfWork, _changeNumRecords, _increaseDataSize, commitUnitOfWork.
  unfold_monad. rewrite Hrc. simpl.
  rewrite !addClamped_nonneg by (try assumption; lia).
  destruct (_oplogStones r) as [o|] eqn:Hst; simpl.
  - unfold putStones. unfold_monad. simpl.
    eexists. split; [reflexivity|]. simpl. repeat split; auto; lia.
  - eexists. split; [reflexivity|]. simpl. repeat split; auto; lia.
Qed.

Lemma totalBytes_app (t1 t2 : WT.Table) :
  totalBytes (t1 ++ t2) = totalBytes t1 + totalBytes t2.
Proof.
  unfold totalBytes. induction t1 as [|kv t1 IH]; simpl; [lia|].
  rewrite IH. lia.
Qed.

(** X11.  [cappedTruncateAfter] removes exactly the rows after [end]
    (and [end] itself when inclusive), keeps the older rows as they
    are, lowers both counters by what the removed rows hold and hands
    the same figures to the stones; without a row at [end] it throws
    28807, and with nothing after [end] it changes nothing. *)
Theorem cappedTruncateAfter_removes_newer (env : Env) (snapshotOpen : bool)
  (end_ : RecordId) (inclusive : bool) (s : State) :
  (_isOplog (store s) && snapshotOpen = false ->
   WT.search end_ (table (store s)) = None ->
   cappedTruncateAfter env snapshotOpen end_ inclusive s
   = Thrown (AssertionException 28807) s)
  /\ (forall kept v after,
        _isOplog (store s) && snapshotOpen = false ->
        table (store s) = kept ++ (end_, v) :: after ->
        ordered (table (store s)) ->
        let removed := if inclusive then (end_, v) :: after else after in
        let keptRows := if inclusive then kept else kept ++ [(end_, v)] in
        (removed = [] ->
         cappedTruncateAfter env snapshotOpen end_ inclusive s = Returned tt s)
        /\ (forall firstRemovedId v1 rest,
              removed = (firstRemovedId, v1) :: rest ->
              recoveryUnit s = emptyRU ->
              truncate_rc env = 0 ->
              callbackAllows (store s) removed ->
              0 <= numRecords (store s) -> 0 <= dataSize (store s) ->
              Int64.in_range (numRecords (store s) - Z.of_nat (length removed)) ->
              Int64.in_range (dataSize (store s) - totalBytes removed) ->
              exists s',
                cappedTruncateAfter env snapshotOpen end_ inclusive s = Returned tt s'
                /\ table (store s') = keptRows
                /\ numRecords (store s') = numRecords (store s) - Z.of_nat (length removed)
                /\ dataSize (store s') = dataSize (store s) - totalBytes removed
                /\ recoveryUnit s' = emptyRU
                /\ _oplogStones (store s')
                   = option_map (updateStonesAfterCappedTruncateAfter
                                   (Z.of_nat (length removed)) (totalBytes removed)
                                   firstRemovedId)
                                (_oplogStones (store s))
                /\ (exact (store s) -> exact (store s')))).
Proof.
  split.
  - intros Hc Hnone. unfold cappedTruncateAfter.
    unfold bind at 1. unfold get at 1. cbv beta iota zeta.
    unfold bind at 1. rewrite (@getCursor_ok snapshotOpen true s Hc).
    unfold bind at 1. unfold onCursor at 1. rewrite seekExact_new, Hnone.
    reflexivity.
  - intros kept v after Hc Ht Ho removed keptRows.
    assert (Hsearch : WT.search end_ (table (store s)) = Some v).
    { rewrite Ht. apply search_split. rewrite <- Ht. exact Ho. }
    split.
    + intros Hrem. destruct inclusive; [discriminate Hrem|].
      subst removed. subst after.
      unfold cappedTruncateAfter.
      unfold bind at 1. unfold get at 1. cbv beta iota zeta.
      unfold bind at 1. rewrite (@getCursor_ok snapshotOpen true s Hc).
      unfold bind at 1. unfold onCursor at 1. rewrite seekExact_new, Hsearch.
      cbv beta iota zeta.
      unfold bind at 1. unfold bind at 1. unfold onCursor at 1.
      rewrite Ht. rewrite (next_onRow_forward _ _ _ _ ltac:(rewrite <- Ht; exact Ho)).
      reflexivity.
    + intros firstRemovedId v1 rest Hrem Hru Hrc Hcb Hn Hd Hrn Hrd.
      assert (Ho' : ordered (kept ++ (end_, v) :: after)) by (rewrite <- Ht; exact Ho).
      destruct (@truncateAfter_commits env firstRemovedId
                  (Z.of_nat (length removed)) (totalBytes removed) s
                  Hru Hrc Hn Hd Hrn Hrd)
        as (s' & Hrun & Htab & Hnum & Hdat & Hru' & Hst).
      exists s'.
      assert (Hkept : WT.truncate (Some firstRemovedId) None (table (store s)) = keptRows).
      { rewrite Ht. subst removed keptRows. destruct inclusive.
        - injection Hrem as <- <- <-. apply truncate_split. exact Ho'.
        - subst after.
          change (kept ++ (end_, v) :: (firstRemovedId, v1) :: rest)
            with (kept ++ [(end_, v)] ++ (firstRemovedId, v1) :: rest) in *.
          rewrite app_assoc in *. apply truncate_split. exact Ho'. }
      split;
        [|split; [rewrite Htab; exact Hkept|]; split; [exact Hnum|];
          split; [exact Hdat|]; split; [exact Hru'|]; split; [exact Hst|];
          intros [Hex1 Hex2]; split].
      * unfold cappedTruncateAfter.
        unfold bind at 1. unfold get at 1. cbv beta iota zeta.
        unfold bind at 1. rewrite (@getCursor_ok snapshotOpen true s Hc).
        unfold bind at 1. unfold onCursor at 1. rewrite seekExact_new, Hsearch.
        cbv beta iota zeta.
        destruct inclusive.
        -- subst removed keptRows. injection Hrem as <- <- <-.
           unfold bind at 1. unfold bind at 1.
           rewrite (@getCursor_ok snapshotOpen false s Hc).
           unfold bind at 1. unfold onCursor at 1. rewrite seekExact_new, Hsearch.
           cbv beta iota zeta. cbn [fst snd].
           assert (Hprev : exists a c',
                     next (table (store s)) (onRow false end_) = Returned a c').
           { rewrite Ht, (next_onRow_backward _ _ _ _ Ho').
             destruct (rev kept) as [|[k1 w1] ?]; eauto. }
           destruct Hprev as (a & c' & Hprev).
           destruct (@countToRemove_counts (store s) after kept end_ v 0 0
                       (S (length (table (store s)))) Ht Ho Hcb)
             as (cursor' & Hcount).
           { rewrite Ht, length_app. simpl. lia. }
           unfold invariant. unfold bind at 1. unfold ret at 1.
           unfold bind at 1. unfold onCursor at 1. rewrite Hprev.
           unfold ret at 1. cbv beta iota zeta.
           rewrite Hcount.
           replace (0 + 1 + Z.of_nat (length after))
             with (Z.of_nat (length ((end_, v) :: after))) by (simpl length; lia).
           replace (0 + size v + totalBytes after)
             with (totalBytes ((end_, v) :: after))
             by (unfold totalBytes; simpl; lia).
           exact Hrun.
        -- subst removed keptRows. subst after.
           assert (Ht2 : table (store s)
                         = (kept ++ [(end_, v)]) ++ (firstRemovedId, v1) :: rest).
           { rewrite Ht, <- app_assoc. reflexivity. }
           destruct (@countToRemove_counts (store s) rest (kept ++ [(end_, v)])
                       firstRemovedId v1 0 0
                       (S (length (table (store s)))) Ht2 Ho Hcb)
             as (cursor' & Hcount).
           { rewrite Ht2, length_app. simpl. lia. }
           assert (Hnext : next (table (store s)) (onRow true end_)
                           = Returned (Some (Rec.mk firstRemovedId v1))
                                      (onRow true firstRemovedId)).
           { rewrite Ht, (next_onRow_forward _ _ _ _ Ho'). reflexivity. }
           unfold bind at 1. unfold bind at 1. unfold onCursor at 1.
           rewrite Hnext. cbv beta iota zeta. cbn [fst snd Rec.id].
           unfold ret at 1. cbv beta iota zeta.
           rewrite Hcount.
           replace (0 + 1 + Z.of_nat (length rest))
             with (Z.of_nat (length ((firstRemovedId, v1) :: rest)))
             by (simpl length; lia).
           replace (0 + size v1 + totalBytes rest)
             with (totalBytes ((firstRemovedId, v1) :: rest))
             by (unfold totalBytes; simpl; lia).
           exact Hrun.
      * rewrite Hnum, Hex1, Htab, Hkept, Ht.
        subst removed keptRows. destruct inclusive.
        -- rewrite length_app. simpl length. lia.
        -- rewrite !length_app. simpl length. lia.
      * rewrite Hdat, Hex2, Htab, Hkept, Ht.
        subst removed keptRows. destruct inclusive.
        -- rewrite totalBytes_app. unfold totalBytes. simpl. lia.
        -- rewrite !totalBytes_app. unfold totalBytes. simpl. lia.
Qed.

(** ** Validation *)





(** ** Opening a store *)





(** ** Placing stones by a scan *)



(** ** The loop of [reclaimOplog] *)

Lemma reclaimOplog_turn (env : Env) (stone : Stone.t) (rest : list Stone.t)
  (s : State) (o : OplogStones) :
  _oplogStones (store s) = Some o ->
  _stones o = stone :: rest ->
  recoveryUnit s = emptyRU ->
  isNormal (Stone.lastRecord stone) = true ->
  truncate_rc env = 0 ->
  0 <= numRecords (store s) ->
  0 <= dataSize (store s) ->
  Int64.in_range (numRecords (store s) - Stone.records stone) ->
  Int64.in_range (dataSize (store s) - Stone.bytes stone) ->
  exists s',
    reclaimOplog_body env stone s = Returned tt s'
    /\ _oplogStones (store s')
       = Some (set_firstRecord (Stone.lastRecord stone) (set_stones rest o))
    /\ numRecords (store s') = numRecords (store s) - Stone.records stone
    /\ dataSize (store s') = dataSize (store s) - Stone.bytes stone
    /\ recoveryUnit s' = emptyRU
    /\ table (store s')
       = WT.truncate (Some (firstRecord o)) (Some (Stone.lastRecord stone))
                     (table (store s)).
Proof.
  intros Ho Hst Hru Hn Hrc Hnr Hds Hr1 Hr2.
  unfold numRecords, dataSize, AtomicInt64.load in *.
  destruct s as [r ru]. simpl in *. subst ru.
  unfold reclaimOplog_body, inWriteUnitOfWork, withStones, putStones,
    commitUnitOfWork, _changeNumRecords, _increaseDataSize.
  unfold_monad. rewrite Hn. simpl. rewrite Ho, Hrc. simpl.
  rewrite <- !Z.add_opp_r in *.
  rewrite !addClamped_nonneg by assumption.
  rewrite Ho. simpl.
  eexists. split; [reflexivity|]. simpl.
  unfold popOldestStone, set_firstRecord, set_stones. rewrite Hst. simpl.
  repeat split; reflexivity.
Qed.

(** a turn whose truncate meets a write conflict leaves everything as it
    was *)
Lemma reclaimOplog_conflict (env : Env) (stone : Stone.t) (s : State)
  (o : OplogStones) :
  _oplogStones (store s) = Some o ->
  recoveryUnit s = emptyRU ->
  isNormal (Stone.lastRecord stone) = true ->
  truncate_rc env = WT_ROLLBACK ->
  reclaimOplog_body env stone s = Returned tt s.
Proof.
  intros Ho Hru Hn Hrc.
  destruct s as [r ru]. simpl in *. subst ru.
  unfold reclaimOplog_body, inWriteUnitOfWork, withStones, catchWCE,
    abortUnitOfWork.
  unfold_monad. rewrite Hn. simpl. rewrite Ho, Hrc. simpl.
  destruct r; reflexivity.
Qed.

Lemma last_cons_default {A} (l : list A) (x d : A) : last (x :: l) d = last l x.
Proof.
  revert x d. induction l as [|y l IH]; intros x d; [reflexivity|].
  change (last (y :: l) d = last (y :: l) x). rewrite !IH. reflexivity.
Qed.

(** X14.  When every truncate succeeds, [reclaimOplog] ends within one
    turn per stone: it removes stones from the old end until none is
    in excess, lowers the counters by what the removed stones were
    estimated to hold, and keeps every row newer than the removed
    stones; a turn that meets a write conflict changes nothing and is
    tried again. *)
Theorem reclaimOplog_drains (envs : nat -> Env) (s : State) (o : OplogStones)
  (n : nat) :
  _oplogStones (store s) = Some o ->
  recoveryUnit s = emptyRU ->
  ordered (table (store s)) ->
  Forall (fun st => isNormal (Stone.lastRecord st) = true
                    /\ 0 <= Stone.records st /\ 0 <= Stone.bytes st)
         (_stones o) ->
  recordsOf (_stones o) <= numRecords (store s) ->
  bytesOf (_stones o) <= dataSize (store s) ->
  Int64.in_range (numRecords (store s)) ->
  Int64.in_range (dataSize (store s)) ->
  ((forall i, truncate_rc (envs i) = 0) ->
   exists s' o' removed,
     reclaimOplog (S (length (_stones o))) envs n s = Some (Returned tt s')
     /\ _oplogStones (store s') = Some o'
     /\ _stones o = removed ++ _stones o'
     /\ peekOldestStoneIfNeeded (store s') o' = None
     /\ numRecords (store s') = numRecords (store s) - recordsOf removed
     /\ dataSize (store s') = dataSize (store s) - bytesOf removed
     /\ recoveryUnit s' = emptyRU
     /\ firstRecord o' = last (map Stone.lastRecord removed) (firstRecord o)
     /\ (forall k, (forall st, In st removed -> Stone.lastRecord st < k) ->
                   WT.search k (table (store s')) = WT.search k (table (store s))))
  /\ (forall fuel stone,
        peekOldestStoneIfNeeded (store s) o = Some stone ->
        truncate_rc (envs n) = WT_ROLLBACK ->
        reclaimOplog (S fuel) envs n s = reclaimOplog fuel envs (S n) s).
Proof.
  intros Ho Hru Hord Hall Hrec Hby Hrn Hrd. split.
  - intros Hrc.
    remember (_stones o) as stones eqn:Hst.
    revert s o n Ho Hru Hord Hst Hrec Hby Hrn Hrd.
    induction Hall as [|stone rest (Hnorm & Hr0 & Hb0) Hall IH];
      intros s o n Ho Hru Hord Hst Hrec Hby Hrn Hrd.
    + exists s, o, []. cbn [length reclaimOplog]. rewrite Ho.
      unfold peekOldestStoneIfNeeded. rewrite <- Hst.
      destruct (negb (hasExcessStones_inlock (store s) o)); cbn [hd_error].
      all: unfold recordsOf, bytesOf; cbn; rewrite !Z.sub_0_r;
        repeat split; auto.
    + cbn [length]. remember (S (length rest)) as fuel eqn:Hfuel.
      cbn [reclaimOplog]. rewrite Ho.
      destruct (peekOldestStoneIfNeeded (store s) o) as [stone'|] eqn:Hpeek.
      * assert (stone' = stone).
        { unfold peekOldestStoneIfNeeded in Hpeek. rewrite <- Hst in Hpeek.
          destruct (negb (hasExcessStones_inlock (store s) o));
            [discriminate|]. now injection Hpeek as ->. }
        subst stone'.
        assert (Hrecs : recordsOf (stone :: rest)
                        = Stone.records stone + recordsOf rest) by reflexivity.
        assert (Hbys : bytesOf (stone :: rest)
                       = Stone.bytes stone + bytesOf rest) by reflexivity.
        assert (Hrest : 0 <= recordsOf rest /\ 0 <= bytesOf rest).
        { clear - Hall. induction Hall as [|st l (_ & Ha & Hb) _ [IH1 IH2]].
          - unfold recordsOf, bytesOf. simpl. lia.
          - change (0 <= Stone.records st + recordsOf l
                    /\ 0 <= Stone.bytes st + bytesOf l). lia. }
        rewrite Hrecs in Hrec. rewrite Hbys in Hby.
        destruct (@reclaimOplog_turn (envs n) stone rest s o Ho (eq_sym Hst)
                    Hru Hnorm (Hrc n))
          as (s1 & Hrun & Ho1 & Hn1 & Hd1 & Hru1 & Ht1);
          try (unfold Int64.in_range, Int64.min_value, Int64.max_value in *; lia).
        rewrite Hrun. subst fuel.
        destruct (IH s1 _ (S n) Ho1 Hru1)
          as (s' & o' & removed & Hloop & Ho' & Hst' & Hpk & Hn' & Hd' & Hru'
              & Hf' & Hkeep);
          try (cbn; reflexivity);
          try (cbn; unfold Int64.in_range, Int64.min_value, Int64.max_value in *; lia).
        { rewrite Ht1. apply ordered_filter. exact Hord. }
        cbn [_stones set_firstRecord set_stones] in Hloop.
        exists s', o', (stone :: removed).
        split; [exact Hloop|]. split; [exact Ho'|].
        cbn in Hst'. split; [cbn; rewrite <- Hst'; reflexivity|].
        split; [exact Hpk|].
        assert (Hrecs' : recordsOf (stone :: removed)
                         = Stone.records stone + recordsOf removed) by reflexivity.
        assert (Hbys' : bytesOf (stone :: removed)
                        = Stone.bytes stone + bytesOf removed) by reflexivity.
        rewrite Hn', Hd', Hn1, Hd1, Hrecs', Hbys'.
        split; [lia|]. split; [lia|]. split; [exact Hru'|].
        split.
        { rewrite Hf'. cbn [firstRecord set_firstRecord map].
          symmetry. apply last_cons_default. }
        intros k Hk. rewrite Hkeep by (intros st Hin; apply Hk; right; exact Hin).
        rewrite Ht1. unfold WT.truncate. rewrite (search_filter _ _ Hord).
        destruct (WT.search k (table (store s))) as [v|]; [|reflexivity].
        unfold WT.in_range. cbn [fst].
        specialize (Hk stone (or_introl eq_refl)).
        replace (k <=? Stone.lastRecord stone) with false
          by (symmetry; apply Z.leb_gt; lia).
        rewrite andb_false_r. reflexivity.
      * exists s, o, []. unfold recordsOf, bytesOf. cbn. rewrite !Z.sub_0_r.
        repeat split; auto.
  - intros fuel stone Hpeek Hrc. cbn [reclaimOplog]. rewrite Ho, Hpeek.
    assert (Hnorm : isNormal (Stone.lastRecord stone) = true).
    { unfold peekOldestStoneIfNeeded in Hpeek.
      destruct (negb (hasExcessStones_inlock (store s) o)); [discriminate|].
      destruct (_stones o) as [|st l]; [discriminate|].
      injection Hpeek as ->. inversion Hall as [|? ? (Ha & _) _]. exact Ha. }
    rewrite (@reclaimOplog_conflict (envs n) stone s o Ho Hru Hnorm Hrc).
    reflexivity.
Qed.

(** ** Inserting into the oplog *)





(** ** Opening the oplog *)

Lemma minBytes_positive (maxSize : Z) :
  10 <= maxSize -> 0 < maxSize / clampedCount maxSize.
Proof.
  intros Hten. pose proof (clampedCount_range maxSize) as Hc.
  apply Z.div_str_pos.
  unfold clampedCount in *. pose proof BSONObjMaxInternalSize_positive as HB.
  split; [lia|].
  destruct (Z.le_gt_cases (maxSize / BSONObjMaxInternalSize) 10).
  - lia.
  - assert (maxSize / BSONObjMaxInternalSize <= maxSize)
      by (apply Z.div_le_upper_bound; nia).
    lia.
Qed.




(** ** Inserting one record *)


(** ** What the capped deleter removes *)











(** ** Inserting into a capped collection *)






(** ** Resizing the cap *)

Lemma adjust_run (maxSize : Z) (s : State) (o : OplogStones) :
  0 <= maxSize -> Int64.in_range maxSize ->
  _oplogStones (store s) = Some o ->
  adjust maxSize s
  = (putStones (set_minBytesPerStone (maxSize / clampedCount maxSize) o) ;;;
     invariant (maxSize / clampedCount maxSize >? 0)) s.
Proof.
  intros Hpos Hr Ho. pose proof (clampedCount_range maxSize) as Hc.
  pose proof BSONObjMaxInternalSize_positive as HB.
  unfold adjust, withStones. rewrite Ho.
  rewrite Z.quot_div_nonneg by lia.
  rewrite (toUInt64_nonneg (z := maxSize)) by (assumption || lia).
  rewrite toUInt64_nonneg.
  - change (Z.min kMaxStonesToKeep
              (Z.max kMinStonesToKeep (maxSize / BSONObjMaxInternalSize)))
      with (clampedCount maxSize).
    rewrite wrap_in_range; [reflexivity|].
    unfold Int64.in_range, Int64.min_value, Int64.max_value in *.
    split.
    + transitivity 0; [lia|]. apply Z.div_pos; lia.
    + transitivity maxSize; [|lia]. apply Z.div_le_upper_bound; nia.
  - apply Z.div_pos; lia.
  - unfold Int64.in_range, Int64.min_value, Int64.max_value in *.
    split.
    + transitivity 0; [lia|]. apply Z.div_pos; lia.
    + transitivity maxSize; [|lia]. apply Z.div_le_upper_bound; nia.
Qed.

(** X20.  [updateCappedSize] with the size the store has changes
    nothing.  With another size it sets the cap without looking at
    it, and a store with stones gets the threshold that goes with the
    new cap, its stones and open segment being left as they are;
    a second call with the same size then changes nothing.  A size
    under ten bytes on a store with stones fails the invariant on
    the threshold. *)
Theorem updateCappedSize_adjusts (cappedSize : Z) (s : State) :
  (_cappedMaxSize (store s) = cappedSize ->
   updateCappedSize cappedSize s = Returned OK s)
  /\ (_cappedMaxSize (store s) <> cappedSize ->
      _oplogStones (store s) = None ->
      updateCappedSize cappedSize s
      = Returned OK (on_store (set_cappedMaxSize cappedSize) s))
  /\ (forall o,
        _cappedMaxSize (store s) <> cappedSize ->
        _oplogStones (store s) = Some o ->
        Int64.in_range cappedSize ->
        (10 <= cappedSize ->
         let s' :=
           on_store (fun r =>
             set_oplogStones
               (Some (set_minBytesPerStone
                        (cappedSize / clampedCount cappedSize) o))
               (set_cappedMaxSize cappedSize r)) s in
         updateCappedSize cappedSize s = Returned OK s'
         /\ 0 < cappedSize / clampedCount cappedSize
         /\ updateCappedSize cappedSize s' = Returned OK s')
        /\ (0 <= cappedSize < 10 ->
            updateCappedSize cappedSize s = Terminated)).
Proof.
  split; [|split].
  - intros Heq. unfold updateCappedSize. unfold_monad.
    rewrite Heq, Z.eqb_refl. reflexivity.
  - intros Hne Hst. unfold updateCappedSize, hasOplogStones. unfold_monad.
    destruct (Z.eqb_spec (_cappedMaxSize (store s)) cappedSize);
      [contradiction|].
    rewrite Hst. reflexivity.
  - intros o Hne Hst Hr.
    assert (Hrun : 0 <= cappedSize ->
              updateCappedSize cappedSize s
              = match (putStones (set_minBytesPerStone
                                    (cappedSize / clampedCount cappedSize) o) ;;;
                       invariant (cappedSize / clampedCount cappedSize >? 0))
                        (on_store (set_cappedMaxSize cappedSize) s) with
                | Returned _ s' => Returned OK s'
                | Thrown e s' => Thrown e s'
                | Terminated => Terminated
                end).
    { intros Hpos. unfold updateCappedSize, hasOplogStones.
      unfold bind at 1. unfold get at 1.
      destruct (Z.eqb_spec (_cappedMaxSize (store s)) cappedSize);
        [contradiction|].
      rewrite Hst. unfold bind at 1. unfold modify at 1.
      unfold bind at 1.
      rewrite (@adjust_run cappedSize (on_store (set_cappedMaxSize cappedSize) s) o
                 Hpos Hr)
        by (destruct s as [[] ?]; exact Hst).
      match goal with
      | |- match ?m with _ => _ end = _ => destruct m; reflexivity
      end. }
    split.
    + intros Hten s'.
      pose proof (minBytes_positive Hten) as Hmin.
      assert (Hfirst : updateCappedSize cappedSize s = Returned OK s').
      { rewrite Hrun by lia. unfold putStones. unfold_monad.
        destruct (Z.gtb_spec (cappedSize / clampedCount cappedSize) 0); [|lia].
        subst s'. destruct s as [[] ?]. reflexivity. }
      split; [exact Hfirst|]. split; [exact Hmin|].
      unfold updateCappedSize. unfold_monad.
      replace (_cappedMaxSize (store s')) with cappedSize
        by (subst s'; destruct s as [[] ?]; reflexivity).
      rewrite Z.eqb_refl. reflexivity.
    + intros Hsmall. rewrite Hrun by lia. unfold putStones. unfold_monad.
      assert (Hz : cappedSize / clampedCount cappedSize = 0).
      { apply Z.div_small. unfold clampedCount.
        pose proof BSONObjMaxInternalSize_positive as HB.
        assert (cappedSize / BSONObjMaxInternalSize <= cappedSize)
          by (apply Z.div_le_upper_bound; nia).
        lia. }
      rewrite Hz. reflexivity.
Qed.


End Further.

(** * The further statements at concrete stores *)

Section FurtherConcrete.
#[local] Existing Instance mongo36.

(** a closed equation, comparison or range, by evaluation *)
Ltac closed :=
  first [ reflexivity
        | vm_compute; reflexivity
        | vm_compute; discriminate
        | vm_compute; split; discriminate ].

(** a concrete table is in key order *)
Ltac sorted := unfold ordered; simpl; repeat constructor.


Lemma updateRecord_findRecord_witness :
  exists s',
    updateRecord quietEnv insert_ok 7 (payload 10) plainState = Returned OK s'
    /\ findRecord 7 [] s' = Returned (true, payload 10) s'
    /\ numRecords (store s') = 2.
Proof.
  destruct (proj2 (@updateRecord_findRecord mongo36 quietEnv insert_ok 7
                     (payload 10) [] plainState eq_refl eq_refl)
                  (payload 40))
    as (s' & Hrun & Hfind & _ & Hn & _); try closed.
  exists s'. split; [exact Hrun|]. split; [exact Hfind|exact Hn].
Defined.

Lemma insertDocuments_abort_restores_witness :
  exists e s',
    insertDocuments quietEnv insert_ok Aborts [payload 1] emptyPlain
    = Thrown e s'
    /\ table (store s') = []
    /\ numRecords (store s') = 0
    /\ dataSize (store s') = 0
    /\ recoveryUnit s' = emptyRU.
Proof.
  assert (Hthm := @insertDocuments_abort_restores mongo36 quietEnv insert_ok
                    Aborts [payload 1] emptyPlain).
  destruct Hthm as [Hthrown Hnever]; try closed.
  - sorted.
  - destruct (insertDocuments quietEnv insert_ok Aborts [payload 1] emptyPlain)
      as [ids s'|e s'|] eqn:Hrun.
    + exfalso. exact (Hnever eq_refl ids s' eq_refl).
    + exists e, s'. split; [reflexivity|].
      destruct (Hthrown e s' eq_refl) as (Ht & Hn & Hd & _ & Hru).
      split; [exact Ht|]. split; [exact Hn|]. split; [exact Hd|exact Hru].
    + vm_compute in Hrun. discriminate Hrun.
Defined.

Lemma seekExact_positions_witness :
  exists c',
    seekExact [(3, payload 40); (7, payload 40)] 3 (RecordCursor_new true)
    = Returned (Some (Rec.mk 3 (payload 40))) c'
    /\ _lastReturnedId c' = 3 /\ _eof c' = false.
Proof.
  destruct (proj2 (@seekExact_positions [(3, payload 40); (7, payload 40)] 3
                     (RecordCursor_new true)
                     ltac:(discriminate))
                  (payload 40) eq_refl)
    as (c' & Hrun & Hid & Heof & _).
  exists c'. split; [exact Hrun|]. split; [exact Hid|exact Heof].
Defined.

Lemma save_restore_resumes_witness :
  restore plainStore true (save (onRow true 7)) = Returned true (onRow true 7)
  /\ restore plainStore true
       (reattachToOperationContext
          (detachFromOperationContext (save (onRow true 7))))
     = Returned true (onRow true 7).
Proof.
  apply (@save_restore_resumes mongo36 plainStore true (onRow true 7)
           (payload 40)); closed.
Defined.


Lemma reclaimOplog_drains_witness :
  exists s' o' removed,
    reclaimOplog 3 (fun _ => quietEnv) 0 estimatedOplog = Some (Returned tt s')
    /\ _oplogStones (store s') = Some o'
    /\ [Stone.mk 5 50 10; Stone.mk 5 50 20] = removed ++ _stones o'
    /\ peekOldestStoneIfNeeded (store s') o' = None
    /\ numRecords (store s') = 10 - recordsOf removed
    /\ recoveryUnit s' = emptyRU.
Proof.
  destruct (@reclaimOplog_drains mongo36 (fun _ => quietEnv) estimatedOplog
              (mkOplogStones [Stone.mk 5 50 10; Stone.mk 5 50 20] 0 0 10
                             RecordId_null false) 0)
    as [Hdrain _];
    [closed|closed|sorted|repeat constructor; closed
    |closed|closed|closed|closed|].
  destruct (Hdrain (fun _ => eq_refl))
    as (s' & o' & removed & Hrun & Ho & Hst & Hpk & Hn & _ & Hru & _).
  exists s', o', removed. split; [exact Hrun|]. split; [exact Ho|].
  split; [exact Hst|]. split; [exact Hpk|]. split; [exact Hn|exact Hru].
Defined.






End FurtherConcrete.
